(** * wdfront: turn protocol, client world view, spatial unit index and
    interceptor engagement, embedded and verified.

    - [Schemas]   : src/core/Schemas.ts (the zod schemas of intents and turns).
    - [UnitGrid]  : the spatial unit index (src/core/game/UnitGrid.ts).
    - [GameView]  : src/core/game/GameView.ts (UnitView, PlayerView, GameView).
    - [SAM]       : the interceptor engagement resolver
                    (src/core/execution/SAMLauncherExecution.ts). *)

From Stdlib Require Import ZArith QArith List String Ascii Bool Lia.
From stdpp Require Import base option list gmap strings.

#[local] Set Warnings "-register-all".

(* ===================================================================== *)
(** ** Schemas.ts *)
(* ===================================================================== *)

Module Schemas.

Local Open Scope string_scope.

(** The structures a schema is run on: what [JSON.parse] yields, plus
    [undefined] (the value of a missing property) and [bigint].  Numbers
    on the wire are finite, so a rational stands for them. *)
Inductive value : Type :=
| VUndefined
| VNull
| VBool (b : bool)
| VNum (q : Q)
| VBigInt (z : Z)
| VStr (s : string)
| VArr (items : list value)
| VObj (fields : list (string * value)).

(** zod's issue codes. *)
Inductive issue : Type :=
| invalid_type | invalid_value | invalid_format | too_small | too_big
| invalid_union | custom.

Inductive parsed (A : Type) : Type :=
| Ok (a : A)
| Err (e : issue).
Arguments Ok {A} a.
Arguments Err {A} e.

Definition schema : Type := value -> parsed value.
Definition shape : Type := list (string * schema).

Definition is_ok {A} (r : parsed A) : bool :=
  match r with Ok _ => true | Err _ => false end.

Definition is_undefined (v : value) : bool :=
  match v with VUndefined => true | _ => false end.

(** [input[key]]: the first binding of the key, [undefined] when there is none. *)
Fixpoint get (k : string) (fields : list (string * value)) : value :=
  match fields with
  | [] => VUndefined
  | (k', v) :: rest => if String.eqb k k' then v else get k rest
  end.

(** *** The zod combinators the file uses *)

Definition z_number : schema := fun v =>
  match v with VNum _ => Ok v | _ => Err invalid_type end.

Definition z_string : schema := fun v =>
  match v with VStr _ => Ok v | _ => Err invalid_type end.

Definition z_boolean : schema := fun v =>
  match v with VBool _ => Ok v | _ => Err invalid_type end.

Definition z_bigint : schema := fun v =>
  match v with VBigInt _ => Ok v | _ => Err invalid_type end.

Definition z_literal (lit : string) : schema := fun v =>
  match v with
  | VStr s => if String.eqb s lit then Ok v else Err invalid_value
  | _ => Err invalid_value
  end.

Definition z_enum (values : list string) : schema := fun v =>
  match v with
  | VStr s => if existsb (String.eqb s) values then Ok v else Err invalid_value
  | _ => Err invalid_value
  end.

(** A check added to a schema ([.regex], [.max], [.refine], ...): run after
    the schema accepted. *)
Definition check (test : value -> bool) (e : issue) (s : schema) : schema :=
  fun v =>
    match s v with
    | Ok v' => if test v' then Ok v' else Err e
    | Err e' => Err e'
    end.

Definition num_test (p : Q -> bool) (v : value) : bool :=
  match v with VNum q => p q | _ => true end.

Definition str_test (p : string -> bool) (v : value) : bool :=
  match v with VStr s => p s | _ => true end.

Definition nonnegative : schema -> schema :=
  check (num_test (fun q => Qle_bool 0 q)) too_small.

Definition num_max (bound : Z) : schema -> schema :=
  check (num_test (fun q => Qle_bool q (inject_Z bound))) too_big.

Definition str_max (n : nat) : schema -> schema :=
  check (str_test (fun s => Nat.leb (String.length s) n)) too_big.

Definition str_min (n : nat) : schema -> schema :=
  check (str_test (fun s => Nat.leb n (String.length s))) too_small.

(** [.length(n)]: too long is [too_big], too short is [too_small]. *)
Definition str_length (n : nat) (s : schema) : schema :=
  str_min n (str_max n s).

Definition regex (re : string -> bool) : schema -> schema :=
  check (str_test re) invalid_format.

Definition refine (p : value -> bool) : schema -> schema := check p custom.

Definition nullable (s : schema) : schema := fun v =>
  match v with VNull => Ok VNull | _ => s v end.

Definition optional (s : schema) : schema := fun v =>
  match v with VUndefined => Ok VUndefined | _ => s v end.

Definition union (options : list schema) : schema := fun v =>
  match find (fun s => is_ok (s v)) options with
  | Some s => s v
  | None => Err invalid_union
  end.

Fixpoint parse_items (s : schema) (items : list value) : parsed (list value) :=
  match items with
  | [] => Ok []
  | x :: rest =>
      match s x with
      | Err e => Err e
      | Ok x' =>
          match parse_items s rest with
          | Err e => Err e
          | Ok rest' => Ok (x' :: rest')
          end
      end
  end.

Definition array (s : schema) : schema := fun v =>
  match v with
  | VArr items =>
      match parse_items s items with
      | Ok items' => Ok (VArr items')
      | Err e => Err e
      end
  | _ => Err invalid_type
  end.

(** [z.object]: every key of the shape is run on [input[key]]; keys the
    shape does not name are stripped; a key whose result is [undefined] is
    left out of the output.  The first issue met is the one reported (zod
    gathers them all; success and failure are the same). *)
Fixpoint parse_shape (sh : shape) (input : list (string * value))
  : parsed (list (string * value)) :=
  match sh with
  | [] => Ok []
  | (k, s) :: rest =>
      match s (get k input) with
      | Err e => Err e
      | Ok v =>
          match parse_shape rest input with
          | Err e => Err e
          | Ok out => Ok (if is_undefined v then out else (k, v) :: out)
          end
      end
  end.

Definition z_object (sh : shape) : schema := fun v =>
  match v with
  | VObj input =>
      match parse_shape sh input with
      | Ok out => Ok (VObj out)
      | Err e => Err e
      end
  | _ => Err invalid_type
  end.

Definition has_key (k : string) (sh : shape) : bool :=
  existsb (fun e => String.eqb k (fst e)) sh.

Fixpoint shape_field (k : string) (sh : shape) : schema :=
  match sh with
  | [] => fun _ => Err invalid_union
  | (k', s) :: rest => if String.eqb k k' then s else shape_field k rest
  end.

(** [base.extend(ext)] is [{...base.shape, ...ext}]: the keys of the base
    keep their place (an overridden one takes the new schema), new keys follow. *)
Definition extend (base ext : shape) : shape :=
  (map (fun e => (fst e, if has_key (fst e) ext then shape_field (fst e) ext else snd e)) base
   ++ List.filter (fun e => negb (has_key (fst e) base)) ext)%list.

(** [z.discriminatedUnion(key, options)]: the option is chosen by the value
    of [input[key]] alone; when no option's discriminator accepts it the
    result is an issue, and no option is tried. *)
Definition discriminatedUnion (key : string) (options : list shape) : schema :=
  fun v =>
    match v with
    | VObj input =>
        match find (fun sh => is_ok (shape_field key sh (get key input))) options with
        | Some sh => z_object sh v
        | None => Err invalid_union
        end
    | _ => Err invalid_type
    end.

(** *** Utility types *)

Definition is_alnum (c : ascii) : bool :=
  let n := nat_of_ascii c in
  ((48 <=? n) && (n <=? 57) || (65 <=? n) && (n <=? 90) || (97 <=? n) && (n <=? 122))%nat.

(** [/^[a-zA-Z0-9]+$/] *)
Definition re_alnum_plus (s : string) : bool :=
  negb (String.eqb s "") && forallb is_alnum (list_ascii_of_string s).

(** [/^[A-Za-z0-9_-]*$/], zod's [.base64url()] *)
Definition re_base64url (s : string) : bool :=
  forallb (fun c => is_alnum c || Ascii.eqb c "_" || Ascii.eqb c "-")
          (list_ascii_of_string s).

Definition ID : schema := str_length 8 (regex re_alnum_plus z_string).

Definition starts_with_bang (s : string) : bool :=
  match s with String c _ => Ascii.eqb c "!" | EmptyString => false end.

Section Tables.

(** What Schemas.ts imports from files that are not part of this
    development: the enumerations of Game.ts, the quick-chat and country
    tables, the emoji table's length, the pattern decoder, and the one
    Unicode regular expression of [SafeString]. *)
Variable PlayerType : list string.
Variable UnitType : list string.
Variable AllPlayers : string.
Variable quickChatKeys : list string.
Variable countryCodes : list string.
Variable flattenedEmojiTable_length : Z.
Variable PatternDecoder_accepts : string -> bool.
Variable SafeString_re : string -> bool.

Definition SafeString : schema := str_max 1000 (regex SafeString_re z_string).

Definition EmojiSchema : schema :=
  num_max (flattenedEmojiTable_length - 1) (nonnegative z_number).

Definition UsernameSchema : schema := SafeString.

Definition FlagSchema : schema :=
  refine (fun v =>
            match v with
            | VUndefined => true
            | VStr s =>
                String.eqb s "" || starts_with_bang s
                || existsb (String.eqb s) countryCodes
            | _ => true
            end)
         (optional (str_max 128 z_string)).

Definition RequiredPatternSchema : schema :=
  refine (str_test PatternDecoder_accepts)
         (regex re_base64url (str_max 1403 z_string)).

Definition PatternSchema : schema := optional RequiredPatternSchema.

Definition QuickChatKeySchema : schema := z_enum quickChatKeys.

Definition PlayerTypeSchema : schema := z_enum PlayerType.

(** *** Intents *)

Definition BaseIntentSchema : shape := [("clientID", ID)].

Definition AllianceExtensionIntentSchema : shape :=
  extend BaseIntentSchema
    [("type", z_literal "allianceExtension"); ("recipient", ID)].

Definition AttackIntentSchema : shape :=
  extend BaseIntentSchema
    [("type", z_literal "attack"); ("targetID", nullable ID);
     ("troops", nullable (nonnegative z_number))].

Definition SpawnIntentSchema : shape :=
  extend BaseIntentSchema
    [("type", z_literal "spawn"); ("name", UsernameSchema);
     ("flag", FlagSchema); ("pattern", PatternSchema);
     ("playerType", PlayerTypeSchema); ("tile", z_number)].

Definition BoatAttackIntentSchema : shape :=
  extend BaseIntentSchema
    [("type", z_literal "boat"); ("targetID", nullable ID);
     ("troops", nonnegative z_number); ("dst", z_number);
     ("src", nullable z_number)].

Definition AllianceRequestIntentSchema : shape :=
  extend BaseIntentSchema
    [("type", z_literal "allianceRequest"); ("recipient", ID)].

Definition AllianceRequestReplyIntentSchema : shape :=
  extend BaseIntentSchema
    [("type", z_literal "allianceRequestReply"); ("requestor", ID);
     ("accept", z_boolean)].

Definition BreakAllianceIntentSchema : shape :=
  extend BaseIntentSchema
    [("type", z_literal "breakAlliance"); ("recipient", ID)].

Definition TargetPlayerIntentSchema : shape :=
  extend BaseIntentSchema
    [("type", z_literal "targetPlayer"); ("target", ID)].

Definition EmojiIntentSchema : shape :=
  extend BaseIntentSchema
    [("type", z_literal "emoji");
     ("recipient", union [ID; z_literal AllPlayers]);
     ("emoji", EmojiSchema)].

Definition EmbargoIntentSchema : shape :=
  extend BaseIntentSchema
    [("type", z_literal "embargo"); ("targetID", ID);
     ("action", union [z_literal "start"; z_literal "stop"])].

Definition DonateGoldIntentSchema : shape :=
  extend BaseIntentSchema
    [("type", z_literal "donate_gold"); ("recipient", ID);
     ("gold", nullable z_bigint)].

Definition DonateTroopIntentSchema : shape :=
  extend BaseIntentSchema
    [("type", z_literal "donate_troops"); ("recipient", ID);
     ("troops", nullable z_number)].

Definition BuildUnitIntentSchema : shape :=
  extend BaseIntentSchema
    [("type", z_literal "build_unit"); ("unit", z_enum UnitType);
     ("tile", z_number)].

Definition UpgradeStructureIntentSchema : shape :=
  extend BaseIntentSchema
    [("type", z_literal "upgrade_structure"); ("unit", z_enum UnitType);
     ("unitId", z_number)].

Definition CancelAttackIntentSchema : shape :=
  extend BaseIntentSchema
    [("type", z_literal "cancel_attack"); ("attackID", z_string)].

Definition CancelBoatIntentSchema : shape :=
  extend BaseIntentSchema
    [("type", z_literal "cancel_boat"); ("unitID", z_number)].

Definition MoveWarshipIntentSchema : shape :=
  extend BaseIntentSchema
    [("type", z_literal "move_warship"); ("unitId", z_number);
     ("tile", z_number)].

Definition QuickChatIntentSchema : shape :=
  extend BaseIntentSchema
    [("type", z_literal "quick_chat"); ("recipient", ID);
     ("quickChatKey", QuickChatKeySchema); ("target", optional ID)].

Definition MarkDisconnectedIntentSchema : shape :=
  extend BaseIntentSchema
    [("type", z_literal "mark_disconnected"); ("isDisconnected", z_boolean)].

Definition KickPlayerIntentSchema : shape :=
  extend BaseIntentSchema
    [("type", z_literal "kick_player"); ("target", ID)].

Definition intent_options : list shape :=
  [ AttackIntentSchema; CancelAttackIntentSchema; SpawnIntentSchema;
    MarkDisconnectedIntentSchema; BoatAttackIntentSchema;
    CancelBoatIntentSchema; AllianceRequestIntentSchema;
    AllianceRequestReplyIntentSchema; BreakAllianceIntentSchema;
    TargetPlayerIntentSchema; EmojiIntentSchema; DonateGoldIntentSchema;
    DonateTroopIntentSchema; BuildUnitIntentSchema;
    UpgradeStructureIntentSchema; EmbargoIntentSchema;
    MoveWarshipIntentSchema; QuickChatIntentSchema;
    AllianceExtensionIntentSchema; KickPlayerIntentSchema ].

Definition IntentSchema : schema := discriminatedUnion "type" intent_options.

(** The literal discriminators of the twenty variants, in the order of
    [intent_options]. *)
Definition intent_types : list string :=
  [ "attack"; "cancel_attack"; "spawn"; "mark_disconnected"; "boat";
    "cancel_boat"; "allianceRequest"; "allianceRequestReply";
    "breakAlliance"; "targetPlayer"; "emoji"; "donate_gold";
    "donate_troops"; "build_unit"; "upgrade_structure"; "embargo";
    "move_warship"; "quick_chat"; "allianceExtension"; "kick_player" ].

(** *** Server utility types *)

Definition TurnSchema : schema :=
  z_object
    [("turnNumber", z_number);
     ("intents", array IntentSchema);
     ("hash", optional (nullable z_number))].

(** The discriminator a candidate structure carries: [input.type]. *)
Definition discriminator (v : value) : value :=
  match v with VObj input => get "type" input | _ => VUndefined end.

(** What the twenty variants have in common. *)
Definition intent_variant (sh : shape) : Prop :=
  List.NoDup (map fst sh) /\ In ("clientID", ID) sh /\
  exists t, In t intent_types /\ In ("type", z_literal t) sh /\
            shape_field "type" sh = z_literal t.

End Tables.

(** *** Facts on the combinators *)

Lemma get_cons_ne k k' v fields :
  k <> k' -> get k ((k', v) :: fields) = get k fields.
Proof.
  intros Hne. simpl. destruct (String.eqb_spec k k'); [contradiction | reflexivity].
Qed.

Lemma get_cons_eq k v fields : get k ((k, v) :: fields) = v.
Proof. simpl. now rewrite String.eqb_refl. Qed.

Lemma z_literal_ok lit v v' :
  z_literal lit v = Ok v' -> v = VStr lit /\ v' = VStr lit.
Proof.
  destruct v; simpl; try discriminate.
  destruct (String.eqb_spec s lit); [| discriminate].
  intros [= <-]. subst. auto.
Qed.

Lemma z_literal_is_ok lit v :
  is_ok (z_literal lit v) = true -> v = VStr lit.
Proof.
  destruct (z_literal lit v) eqn:E; [| discriminate].
  intros _. now apply z_literal_ok in E.
Qed.

Lemma check_ok test e s v v' :
  check test e s v = Ok v' -> s v = Ok v' /\ test v' = true.
Proof.
  unfold check. destruct (s v) as [w | e']; [| discriminate].
  destruct (test w) eqn:T; [| discriminate].
  intros [= <-]. auto.
Qed.

Lemma ID_ok v v' :
  ID v = Ok v' ->
  exists s, v = VStr s /\ v' = VStr s /\ String.length s = 8%nat /\
            re_alnum_plus s = true.
Proof.
  unfold ID, str_length, str_min, str_max, regex. intros H.
  apply check_ok in H as [H Hmin]. apply check_ok in H as [H Hmax].
  apply check_ok in H as [H Hre].
  destruct v; simpl in H; try discriminate. injection H as <-.
  unfold str_test in Hmin, Hmax, Hre. exists s. repeat split; auto.
  apply Nat.leb_le in Hmin, Hmax. lia.
Qed.

(** A key of the shape was run on [input[key]], and its result is what the
    output holds under that key. *)
Lemma parse_shape_field sh input out k s :
  List.NoDup (map fst sh) -> parse_shape sh input = Ok out -> In (k, s) sh ->
  exists v, s (get k input) = Ok v /\
            (is_undefined v = false -> get k out = v).
Proof.
  revert out. induction sh as [| [k0 s0] rest IH]; intros out Hnd Hp Hin.
  - destruct Hin.
  - simpl in Hp. inversion Hnd as [| ? ? Hnotin Hnd']; subst.
    destruct (s0 (get k0 input)) as [v0 | e0] eqn:E0; [| discriminate].
    destruct (parse_shape rest input) as [out' | e'] eqn:Er; [| discriminate].
    injection Hp as <-.
    destruct Hin as [[= -> ->] | Hin].
    + exists v0. split; [assumption |]. intros ->. apply get_cons_eq.
    + destruct (IH out' Hnd' eq_refl Hin) as (v & Hs & Hget).
      exists v. split; [assumption |]. intros Hu.
      assert (k <> k0) as Hne.
      { intros ->. apply Hnotin. apply (in_map fst) in Hin. exact Hin. }
      destruct (is_undefined v0); [| rewrite get_cons_ne by assumption]; auto.
Qed.

Lemma z_object_ok sh v out :
  z_object sh v = Ok out ->
  exists input fields, v = VObj input /\ out = VObj fields /\
                       parse_shape sh input = Ok fields.
Proof.
  destruct v; simpl; try discriminate.
  destruct (parse_shape sh fields) as [o | e] eqn:E; [| discriminate].
  intros [= <-]. eauto.
Qed.

Lemma parse_items_ok s items :
  is_ok (parse_items s items) = true <->
  Forall (fun i => is_ok (s i) = true) items.
Proof.
  induction items as [| x rest IH]; simpl.
  - split; auto.
  - destruct (s x) as [x' | e] eqn:E.
    + destruct (parse_items s rest) as [r | e'].
      * split; [| reflexivity]. intros _. constructor; [now rewrite E |].
        now apply IH.
      * split; [discriminate |]. intros HF. inversion HF; subst.
        now apply IH.
    + split; [discriminate |]. intros HF. inversion HF as [| ? ? Hx]; subst.
      rewrite E in Hx. discriminate.
Qed.

Section Intents.

Variable PlayerType : list string.
Variable UnitType : list string.
Variable AllPlayers : string.
Variable quickChatKeys : list string.
Variable countryCodes : list string.
Variable flattenedEmojiTable_length : Z.
Variable PatternDecoder_accepts : string -> bool.
Variable SafeString_re : string -> bool.

Abbreviation options :=
  (intent_options PlayerType UnitType AllPlayers quickChatKeys countryCodes
                  flattenedEmojiTable_length PatternDecoder_accepts SafeString_re).
Abbreviation Intent :=
  (IntentSchema PlayerType UnitType AllPlayers quickChatKeys countryCodes
                flattenedEmojiTable_length PatternDecoder_accepts SafeString_re).
Abbreviation Turn :=
  (TurnSchema PlayerType UnitType AllPlayers quickChatKeys countryCodes
              flattenedEmojiTable_length PatternDecoder_accepts SafeString_re).

Lemma intent_options_variants : Forall intent_variant options.
Proof.
  unfold intent_options.
  repeat match goal with
         | |- Forall _ (_ :: _) => constructor
         | |- Forall _ [] => constructor
         end.
  all: unfold intent_variant; split;
    [ cbn; repeat (constructor; [cbn; intuition discriminate |]); constructor
    | split;
      [ cbn; auto
      | eexists; split; [| split; [| cbn; reflexivity]]; cbn; auto 25 ] ].
Qed.

Lemma intent_option_chosen input sh :
  find (fun sh => is_ok (shape_field "type" sh (get "type" input))) options
  = Some sh ->
  intent_variant sh /\ exists t, In t intent_types /\ get "type" input = VStr t.
Proof.
  intros Hf. apply find_some in Hf as [Hin Hok].
  pose proof intent_options_variants as HF.
  rewrite List.Forall_forall in HF. specialize (HF sh Hin).
  split; [assumption |].
  destruct HF as (_ & _ & t & Ht & _ & Hfield).
  rewrite Hfield in Hok. apply z_literal_is_ok in Hok. eauto.
Qed.

Lemma intent_option_none input :
  (forall t, In t intent_types -> get "type" input <> VStr t) ->
  find (fun sh => is_ok (shape_field "type" sh (get "type" input))) options
  = None.
Proof.
  intros Hno.
  destruct (find _ options) as [sh |] eqn:Hf; [| reflexivity].
  apply intent_option_chosen in Hf as (_ & t & Ht & Heq).
  exfalso. exact (Hno t Ht Heq).
Qed.

(** C7.  Every structure [IntentSchema] accepts is an object that carries the
    issuing client's identity ([clientID], a string of the [ID] format: eight
    letters or digits) beside a [type] that is one of the twenty literal
    discriminators, and the accepted intent holds both; a candidate whose
    discriminator is none of the twenty is answered by an issue
    ([invalid_union] for an object, [invalid_type] for anything else), never
    by a variant. *)
Theorem IntentSchema_clientID_and_closed_discriminator :
  (forall v out,
      Intent v = Ok out ->
      exists input fields cid t,
        v = VObj input /\ out = VObj fields /\
        get "clientID" input = VStr cid /\ get "clientID" fields = VStr cid /\
        String.length cid = 8%nat /\ re_alnum_plus cid = true /\
        get "type" input = VStr t /\ get "type" fields = VStr t /\
        In t intent_types)
  /\
  (forall v,
      (forall t, In t intent_types -> discriminator v <> VStr t) ->
      Intent v = Err invalid_union \/ Intent v = Err invalid_type).
Proof.
  split.
  - intros v out H. unfold IntentSchema, discriminatedUnion in H.
    destruct v as [| | | | | | | input]; try discriminate.
    destruct (find _ options) as [sh |] eqn:Hf; [| discriminate].
    apply intent_option_chosen in Hf as ((Hnd & Hcid & t & Ht & Hty & _) & _).
    apply z_object_ok in H as (input' & fields & [= <-] & -> & Hp).
    destruct (parse_shape_field _ _ _ _ _ Hnd Hp Hcid) as (v1 & H1 & G1).
    destruct (parse_shape_field _ _ _ _ _ Hnd Hp Hty) as (v2 & H2 & G2).
    apply ID_ok in H1 as (cid & Hin1 & -> & Hlen & Hre).
    apply z_literal_ok in H2 as (Hin2 & ->).
    exists input, fields, cid, t. repeat split; auto.
  - intros v Hno. unfold IntentSchema, discriminatedUnion.
    destruct v as [| | | | | | | input]; auto.
    left. now rewrite intent_option_none.
Qed.

(** C8 (as amended).  [TurnSchema] accepts an object exactly when
    [turnNumber] is a number (an integer or not), [intents] is an array whose
    items [IntentSchema] accepts, and [hash] is left out, [null] or a number:
    a value of [turnNumber] or [hash] that is no number ([hash]: nor [null],
    nor left out) is rejected, a number that is no integer is not. *)
Theorem TurnSchema_accepts_iff :
  forall input,
    is_ok (Turn (VObj input)) = true <->
    (exists q, get "turnNumber" input = VNum q) /\
    (exists items, get "intents" input = VArr items /\
                   Forall (fun i => is_ok (Intent i) = true) items) /\
    (get "hash" input = VUndefined \/ get "hash" input = VNull \/
     exists h, get "hash" input = VNum h).
Proof.
  intros input. unfold TurnSchema, z_object, parse_shape.
  destruct (get "turnNumber" input) as [| | | q | | | |] eqn:Etn; simpl;
    try (split; [discriminate | intros ((q' & Hq) & _); discriminate]).
  destruct (get "intents" input) as [| | | | | | items |] eqn:Ein; simpl;
    try (split; [discriminate | intros (_ & (it & Hit & _) & _); discriminate]).
  pose proof (parse_items_ok Intent items) as Hitems.
  destruct (parse_items Intent items) as [items' | e]; simpl in Hitems.
  - destruct (get "hash" input) as [| | | h | | | |] eqn:Eh; simpl;
      try (split; [discriminate
                  | intros (_ & _ & [Hh | [Hh | (h' & Hh)]]); discriminate]).
    + split; [| reflexivity]. intros _. repeat split; eauto.
      exists items. split; [reflexivity | now apply Hitems].
    + split; [| reflexivity]. intros _. repeat split; eauto.
      exists items. split; [reflexivity | now apply Hitems].
    + split; [| reflexivity]. intros _. repeat split; eauto.
      exists items. split; [reflexivity | now apply Hitems].
  - split; [discriminate |]. intros (_ & (it & [= <-] & HF) & _).
    apply Hitems in HF. discriminate.
Qed.

End Intents.

(** A valid attack intent, and a candidate of an unknown type. *)
Lemma IntentSchema_clientID_and_closed_discriminator_witness :
  (exists input fields cid t,
      VObj [("clientID", VStr "abcd1234"); ("type", VStr "attack");
            ("targetID", VNull); ("troops", VNum (5 # 1))] = VObj input /\
      VObj [("clientID", VStr "abcd1234"); ("type", VStr "attack");
            ("targetID", VNull); ("troops", VNum (5 # 1))] = VObj fields /\
      get "clientID" input = VStr cid /\ get "clientID" fields = VStr cid /\
      String.length cid = 8%nat /\ re_alnum_plus cid = true /\
      get "type" input = VStr t /\ get "type" fields = VStr t /\
      In t intent_types)
  /\
  (IntentSchema [] [] "AllPlayers" [] [] 0 (fun _ => true) (fun _ => true)
     (VObj [("clientID", VStr "abcd1234"); ("type", VStr "nuke_everything")])
   = Err invalid_union \/
   IntentSchema [] [] "AllPlayers" [] [] 0 (fun _ => true) (fun _ => true)
     (VObj [("clientID", VStr "abcd1234"); ("type", VStr "nuke_everything")])
   = Err invalid_type).
Proof.
  split.
  - apply (proj1 (IntentSchema_clientID_and_closed_discriminator
                    [] [] "AllPlayers" [] [] 0 (fun _ => true) (fun _ => true))).
    vm_compute. reflexivity.
  - apply (proj2 (IntentSchema_clientID_and_closed_discriminator
                    [] [] "AllPlayers" [] [] 0 (fun _ => true) (fun _ => true))).
    intros t Ht. simpl in Ht. simpl.
    intuition (subst; discriminate).
Defined.

(** A turn whose number is 3/2 and whose hash is 1/2 is accepted: neither
    field has to be an integer. *)
Lemma TurnSchema_accepts_fractional_numbers :
  (forall z : Z, ~ (3 # 2 == inject_Z z)%Q) /\
  (forall z : Z, ~ (1 # 2 == inject_Z z)%Q) /\
  is_ok (TurnSchema [] [] "AllPlayers" [] [] 0 (fun _ => true) (fun _ => true)
           (VObj [("turnNumber", VNum (3 # 2)); ("intents", VArr []);
                  ("hash", VNum (1 # 2))])) = true.
Proof.
  repeat split.
  - intros z. unfold Qeq, inject_Z. simpl. lia.
  - intros z. unfold Qeq, inject_Z. simpl. lia.
Qed.

End Schemas.

(* ===================================================================== *)
(** ** Game.ts and GameMap.ts: the types the core shares *)
(* ===================================================================== *)

Module Game.

Definition TileRef : Type := Z.
Definition Tick : Type := Z.
Definition PlayerID : Type := string.

(** The closed enumeration of unit types (the members the sources name). *)
Inductive UnitType : Type :=
| TransportShip | Warship | Port | AtomBomb | HydrogenBomb | TradeShip
| MissileSilo | DefensePost | SAMLauncher | City.

#[global] Instance UnitType_eq_dec : EqDecision UnitType.
Proof. solve_decision. Defined.

(** What the core requires of the map collaborator: the conversion of a
    tile reference to its coordinates. *)
Record GameMap : Type := {
  map_x : TileRef -> Z;
  map_y : TileRef -> Z
}.

(** Distance between cell centres, squared. *)
Definition euclideanDistSquared (gm : GameMap) (c1 c2 : TileRef) : Z :=
  ((map_x gm c1 - map_x gm c2) * (map_x gm c1 - map_x gm c2)
   + (map_y gm c1 - map_y gm c2) * (map_y gm c1 - map_y gm c2))%Z.

(** A map of the given width, tiles numbered row by row. *)
Definition row_major (width : Z) : GameMap :=
  {| map_x := fun t => (t mod width)%Z; map_y := fun t => (t / width)%Z |}.

End Game.

(* ===================================================================== *)
(** ** UnitGrid.ts: the spatial unit index *)
(* ===================================================================== *)

Module UnitGrid.
Import Game.

Local Open Scope Z_scope.

(** What the index reads of a unit ([Unit | UnitView] in the callers). *)
Record UnitOps (U : Type) : Type := {
  u_tile : U -> TileRef;
  u_type : U -> UnitType;
  u_owner : U -> PlayerID;
  u_isActive : U -> bool
}.
Arguments u_tile {U} _ _.
Arguments u_type {U} _ _.
Arguments u_owner {U} _ _.
Arguments u_isActive {U} _ _.

Definition cell : Type := (Z * Z)%type.

(** A unit of the core, as far as the index reads it. *)
Record Unit : Type := {
  unit_id : Z;
  unit_tile : TileRef;
  unit_type : UnitType;
  unit_owner : PlayerID;
  unit_isActive : bool
}.

#[global] Instance Unit_eq_dec : EqDecision Unit.
Proof. solve_decision. Defined.

Definition unit_ops : UnitOps Unit :=
  {| u_tile := unit_tile; u_type := unit_type;
     u_owner := unit_owner; u_isActive := unit_isActive |}.

(** The set-up of the range tests: a defense post built at (0, 0) of a map
    200 tiles wide, buckets of 100 tiles. *)
Definition test_map : GameMap := row_major 200.

Definition test_post : Unit :=
  {| unit_id := 1; unit_tile := 0; unit_type := DefensePost;
     unit_owner := "test_id"; unit_isActive := true |}.

Section Grid.

Context {U : Type} `{EqDecision U}.
Variable gm : GameMap.
Variable ops : UnitOps U.
Variable cellSize : Z.

(** Modelled from the spec: UnitGrid.ts is not among the sources; §3
    (Spatial cell) has the index as fixed-size buckets of the grid, each
    holding the units currently located in it. *)
Abbreviation grid := (gmap cell (list U)).

Definition cell_of (t : TileRef) : cell :=
  (map_x gm t / cellSize, map_y gm t / cellSize).

Definition bucket (g : grid) (c : cell) : list U := default [] (g !! c).

Definition indexed (g : grid) (u : U) : Prop := exists c, u ∈ bucket g c.

(** Modelled from the spec: addUnit of UnitGrid.ts (§4.1): "inserts into
    the bucket computed from the unit's current tile".  A bucket is a set:
    a unit it already holds is not held twice. *)
Definition addUnit (u : U) (g : grid) : grid :=
  let c := cell_of (u_tile ops u) in
  if decide (u ∈ bucket g c) then g else <[c := bucket g c ++ [u]]> g.

(** Modelled from the spec: removeUnit of UnitGrid.ts (§4.1, §7): "removes
    from its last-known bucket", that is from where the index holds it; a
    unit that was never indexed, or is removed twice, is "tolerated
    silently" as a no-op. *)
Definition removeUnit (u : U) (g : grid) : grid :=
  (fun b => filter (fun v => v <> u) b) <$> g.

(** Modelled from the spec: updateUnitCell of UnitGrid.ts (§4.1): "removes
    from the old bucket and re-inserts into the bucket for the unit's new
    position". *)
Definition updateUnitCell (u : U) (g : grid) : grid :=
  addUnit u (removeUnit u g).

(** Modelled from the spec: the buckets a query visits (§4.1): "only
    buckets that can possibly contain a qualifying unit are visited — never
    a full scan": those whose cells meet the square of side [2 * radius]
    around the tile. *)
Definition cellsInRange (tile : TileRef) (radius : Z) : list cell :=
  let x0 := (map_x gm tile - radius) / cellSize in
  let x1 := (map_x gm tile + radius) / cellSize in
  let y0 := (map_y gm tile - radius) / cellSize in
  let y1 := (map_y gm tile + radius) / cellSize in
  cy ← seqZ y0 (y1 - y0 + 1); cx ← seqZ x0 (x1 - x0 + 1); [(cx, cy)].

Definition squaredDistanceFromTile (u : U) (tile : TileRef) : Z :=
  euclideanDistSquared gm (u_tile ops u) tile.

Definition passes (predicate : option (U * Z -> bool)) (p : U * Z) : bool :=
  match predicate with Some f => f p | None => true end.

(** Modelled from the spec: nearbyUnits of UnitGrid.ts (§4.1): "returns
    every active unit of one of the requested types whose squared Euclidean
    distance to tile is ≤ radius², each paired with that squared distance,
    filtered further by an optional predicate"; "inclusive boundary". *)
Definition nearbyUnits (g : grid) (tile : TileRef) (radius : Z)
    (types : list UnitType) (predicate : option (U * Z -> bool))
  : list (U * Z) :=
  c ← cellsInRange tile radius;
  u ← bucket g c;
  let d := squaredDistanceFromTile u tile in
  if u_isActive ops u
     && bool_decide (u_type ops u ∈ types)
     && (d <=? radius * radius)
     && passes predicate (u, d)
  then [(u, d)] else [].

(** Modelled from the spec: hasUnitNearby of UnitGrid.ts (§4.1):
    "specialization that stops at the first match; true iff at least one
    unit of the given type and owning player exists within radius
    (inclusive)". *)
Definition hasUnitNearby (g : grid) (tile : TileRef) (radius : Z)
    (type : UnitType) (ownerId : PlayerID) : bool :=
  existsb
    (fun c =>
       existsb
         (fun u =>
            bool_decide (u_type ops u = type)
            && bool_decide (u_owner ops u = ownerId)
            && u_isActive ops u
            && (squaredDistanceFromTile u tile <=? radius * radius))
         (bucket g c))
    (cellsInRange tile radius).

(** *** Facts on the index *)

Hypothesis cellSize_pos : 0 < cellSize.

Lemma bucket_addUnit u g : u ∈ bucket (addUnit u g) (cell_of (u_tile ops u)).
Proof.
  unfold addUnit. case_decide as Hin; [exact Hin |].
  unfold bucket at 1. rewrite lookup_insert_eq. simpl.
  apply elem_of_app. right. apply list_elem_of_singleton. reflexivity.
Qed.

Lemma bucket_removeUnit u v g c :
  v ∈ bucket (removeUnit u g) c <-> v ∈ bucket g c /\ v <> u.
Proof.
  unfold bucket, removeUnit. rewrite lookup_fmap.
  destruct (g !! c) as [b |]; simpl.
  - rewrite list_elem_of_filter. tauto.
  - split; [intros Hv | intros [Hv _]]; inversion Hv.
Qed.

Lemma square_le_bounds (x r : Z) : 0 <= r -> x * x <= r * r -> - r <= x <= r.
Proof.
  intros Hr Hx. split.
  - destruct (Z_le_gt_dec (- r) x) as [| Hgt]; [assumption |].
    assert (r * r < x * x) by nia. lia.
  - destruct (Z_le_gt_dec x r) as [| Hgt]; [assumption |].
    assert (r * r < x * x) by nia. lia.
Qed.

Lemma within_radius_bounds (a b c d r : Z) :
  0 <= r -> (a - b) * (a - b) + (c - d) * (c - d) <= r * r ->
  b - r <= a <= b + r /\ d - r <= c <= d + r.
Proof.
  intros Hr Hd.
  assert (0 <= (a - b) * (a - b)) by apply Z.square_nonneg.
  assert (0 <= (c - d) * (c - d)) by apply Z.square_nonneg.
  assert (- r <= a - b <= r) by (apply square_le_bounds; lia).
  assert (- r <= c - d <= r) by (apply square_le_bounds; lia).
  lia.
Qed.

Lemma cellsInRange_spec tile radius cx cy :
  (cx, cy) ∈ cellsInRange tile radius <->
  (map_x gm tile - radius) / cellSize <= cx <= (map_x gm tile + radius) / cellSize /\
  (map_y gm tile - radius) / cellSize <= cy <= (map_y gm tile + radius) / cellSize.
Proof.
  unfold cellsInRange. rewrite list_elem_of_bind. split.
  - intros (y & Hin & Hy). apply list_elem_of_bind in Hin as (x & Hin & Hx).
    apply list_elem_of_singleton in Hin. injection Hin as -> ->.
    apply elem_of_seqZ in Hx, Hy. lia.
  - intros [Hx Hy]. exists cy. split.
    + apply list_elem_of_bind. exists cx. split.
      * apply list_elem_of_singleton. reflexivity.
      * apply elem_of_seqZ. lia.
    + apply elem_of_seqZ. lia.
Qed.

(** The bucket of a unit within the radius is one of those visited. *)
Lemma cell_of_in_range (u : U) tile radius :
  0 <= radius ->
  squaredDistanceFromTile u tile <= radius * radius ->
  cell_of (u_tile ops u) ∈ cellsInRange tile radius.
Proof.
  intros Hr Hd. unfold cell_of. apply cellsInRange_spec.
  unfold squaredDistanceFromTile, euclideanDistSquared in Hd.
  apply within_radius_bounds in Hd as [Hx Hy]; [| assumption].
  repeat split; apply Z.div_le_mono; lia.
Qed.

Lemma elem_of_nearbyUnits g tile radius types predicate (p : U * Z) :
  p ∈ nearbyUnits g tile radius types predicate <->
  exists c, c ∈ cellsInRange tile radius /\ p.1 ∈ bucket g c /\
    p.2 = squaredDistanceFromTile p.1 tile /\
    u_isActive ops p.1 = true /\ u_type ops p.1 ∈ types /\
    p.2 <= radius * radius /\ passes predicate p = true.
Proof.
  unfold nearbyUnits. rewrite list_elem_of_bind. split.
  - intros (c & Hin & Hc). apply list_elem_of_bind in Hin as (u & Hin & Hu).
    destruct (u_isActive ops u) eqn:Ea; simpl in Hin; [| inversion Hin].
    case_bool_decide as Et; simpl in Hin; [| inversion Hin].
    destruct (Z.leb_spec (squaredDistanceFromTile u tile) (radius * radius));
      simpl in Hin; [| inversion Hin].
    destruct (passes predicate _) eqn:Ep; [| inversion Hin].
    apply list_elem_of_singleton in Hin. subst p. simpl.
    exists c. repeat split; auto.
  - intros (c & Hc & Hu & Hd & Ha & Ht & Hle & Hp).
    destruct p as [u d]; simpl in *. subst d.
    exists c. split; [| assumption].
    apply list_elem_of_bind. exists u. split; [| assumption].
    rewrite Ha, bool_decide_eq_true_2 by assumption.
    apply Z.leb_le in Hle. rewrite Hle, Hp. simpl.
    apply list_elem_of_singleton. reflexivity.
Qed.

Lemma hasUnitNearby_true g tile radius type ownerId :
  hasUnitNearby g tile radius type ownerId = true <->
  exists c u, c ∈ cellsInRange tile radius /\ u ∈ bucket g c /\
    u_type ops u = type /\ u_owner ops u = ownerId /\
    u_isActive ops u = true /\
    squaredDistanceFromTile u tile <= radius * radius.
Proof.
  unfold hasUnitNearby. rewrite existsb_exists. split.
  - intros (c & Hc & Hex). apply existsb_exists in Hex as (u & Hu & Hb).
    apply andb_true_iff in Hb as [Hb Hle].
    apply andb_true_iff in Hb as [Hb Ha].
    apply andb_true_iff in Hb as [Ht Ho].
    apply bool_decide_eq_true in Ht, Ho. apply Z.leb_le in Hle.
    exists c, u. rewrite <- !list_elem_of_In in *. repeat split; auto.
  - intros (c & u & Hc & Hu & Ht & Ho & Ha & Hle).
    exists c. rewrite <- list_elem_of_In. split; [assumption |].
    apply existsb_exists. exists u. rewrite <- list_elem_of_In.
    split; [assumption |].
    rewrite !bool_decide_eq_true_2, Ha by assumption.
    apply Z.leb_le in Hle. now rewrite Hle.
Qed.

(** C4.  A unit indexed at distance exactly [r] (between cell centres) of
    a tile is returned by [nearbyUnits] with radius [r], paired with its
    squared distance [r * r], and makes [hasUnitNearby] with radius [r] true:
    the boundary is in range.  With a radius [r'] smaller than the unit's
    distance, [nearbyUnits] returns no pair of that unit and the unit cannot
    be what makes [hasUnitNearby] true: it is false when the index holds no
    other unit of the type and owner; and every pair [nearbyUnits] returns
    holds the unit's squared distance to the tile. *)
Theorem boundary_distance_in_range g u tile r types :
  0 <= r ->
  u_isActive ops u = true ->
  u_type ops u ∈ types ->
  squaredDistanceFromTile u tile = r * r ->
  (u, r * r) ∈ nearbyUnits (addUnit u g) tile r types None /\
  hasUnitNearby (addUnit u g) tile r (u_type ops u) (u_owner ops u) = true /\
  (forall g' r' predicate,
      0 <= r' < r ->
      (forall d, (u, d) ∉ nearbyUnits g' tile r' types predicate) /\
      ((forall v, indexed g' v -> v = u) ->
       hasUnitNearby g' tile r' (u_type ops u) (u_owner ops u) = false)) /\
  (forall g' r' predicate p,
      p ∈ nearbyUnits g' tile r' types predicate ->
      p.2 = squaredDistanceFromTile p.1 tile).
Proof.
  intros Hr Ha Ht Hd.
  assert (cell_of (u_tile ops u) ∈ cellsInRange tile r) as Hcell.
  { apply cell_of_in_range; [assumption | lia]. }
  split; [| split; [| split]].
  - apply elem_of_nearbyUnits. exists (cell_of (u_tile ops u)). simpl.
    repeat split; auto using bucket_addUnit. lia.
  - apply hasUnitNearby_true. exists (cell_of (u_tile ops u)), u.
    repeat split; auto using bucket_addUnit. lia.
  - intros g' r' predicate Hr'. split.
    + intros d Hin. apply elem_of_nearbyUnits in Hin
        as (c & _ & _ & Hd' & _ & _ & Hle & _). simpl in *. nia.
    + intros Honly.
      destruct (hasUnitNearby g' tile r' _ _) eqn:Eh; [| reflexivity].
      apply hasUnitNearby_true in Eh as (c & v & _ & Hv & _ & _ & _ & Hle).
      assert (v = u) as -> by (apply Honly; exists c; exact Hv). nia.
  - intros g' r' predicate p Hin.
    apply elem_of_nearbyUnits in Hin as (c & _ & _ & Hd' & _).
    exact Hd'.
Qed.

Lemma indexed_addUnit (u v : U) g :
  indexed (addUnit u g) v -> v = u \/ indexed g v.
Proof.
  intros [c Hv]. unfold addUnit in Hv. case_decide as Hin.
  - right. exists c. exact Hv.
  - unfold bucket in Hv at 1.
    destruct (decide (cell_of (u_tile ops u) = c)) as [<- | Hne].
    + rewrite lookup_insert_eq in Hv. simpl in Hv.
      apply elem_of_app in Hv as [Hv | Hv].
      * right. eexists. exact Hv.
      * left. now apply list_elem_of_singleton in Hv.
    + rewrite lookup_insert_ne in Hv by assumption. right. exists c. exact Hv.
Qed.

Lemma indexed_removeUnit (u v : U) g :
  indexed (removeUnit u g) v <-> indexed g v /\ v <> u.
Proof.
  unfold indexed. split.
  - intros [c Hv]. apply bucket_removeUnit in Hv as [Hv Hne]. eauto.
  - intros [[c Hv] Hne]. exists c. apply bucket_removeUnit. auto.
Qed.

Lemma indexed_updateUnitCell (u v : U) g :
  indexed (updateUnitCell u g) v -> v = u \/ indexed g v.
Proof.
  unfold updateUnitCell. intros Hv.
  apply indexed_addUnit in Hv as [-> | Hv]; [now left |].
  apply indexed_removeUnit in Hv as [Hv _]. now right.
Qed.

Lemma indexed_addUnit_empty (u v : U) : indexed (addUnit u ∅) v -> v = u.
Proof.
  intros [c Hv]. unfold addUnit in Hv. case_decide as Hin.
  - unfold bucket in Hin. rewrite lookup_empty in Hin. inversion Hin.
  - unfold bucket in Hv.
    destruct (decide (cell_of (u_tile ops u) = c)) as [<- | Hne].
    + rewrite lookup_insert_eq in Hv. simpl in Hv.
      rewrite lookup_empty in Hv. simpl in Hv.
      now apply list_elem_of_singleton in Hv.
    + rewrite lookup_insert_ne, lookup_empty in Hv by assumption.
      inversion Hv.
Qed.

End Grid.

(** The range tests' cases "exactly on the range" (radius 10, checked from
    (10, 0)) and one short of it (radius 9). *)
Lemma boundary_distance_in_range_witness :
  (test_post, 10 * 10) ∈
    nearbyUnits test_map unit_ops 100 (addUnit test_map unit_ops 100 test_post ∅)
                10 10 [DefensePost] None /\
  hasUnitNearby test_map unit_ops 100 (addUnit test_map unit_ops 100 test_post ∅)
                10 10 DefensePost "test_id" = true /\
  hasUnitNearby test_map unit_ops 100 (addUnit test_map unit_ops 100 test_post ∅)
                10 9 DefensePost "test_id" = false.
Proof.
  destruct (boundary_distance_in_range test_map unit_ops 100 ltac:(lia)
              ∅ test_post 10 10 [DefensePost])
    as (H1 & H2 & H3 & _).
  - lia.
  - reflexivity.
  - apply list_elem_of_here.
  - reflexivity.
  - split; [exact H1 |]. split; [exact H2 |].
    apply (H3 (addUnit test_map unit_ops 100 test_post ∅) 9 None); [lia |].
    intros v. apply indexed_addUnit_empty.
Defined.

End UnitGrid.

(* ===================================================================== *)
(** ** UnitGrid.test.ts, replayed on the index *)
(* ===================================================================== *)

Module UnitGridTest.
Import Game UnitGrid.

Local Open Scope Z_scope.

Definition built (n : Z) (x : Z) (type : UnitType) : Unit :=
  {| unit_id := n; unit_tile := x; unit_type := type;
     unit_owner := "test_id"; unit_isActive := true |}.

(** [checkRange(mapName, unitPosX, rangeCheck, range)] *)
Definition checkRange (unitPosX rangeCheck range : Z) : bool :=
  hasUnitNearby test_map unit_ops 100
    (addUnit test_map unit_ops 100 (built 1 unitPosX DefensePost) ∅)
    rangeCheck range DefensePost "test_id".

(** [nearbyUnits(mapName, unitPosX, rangeCheck, range, unitTypes).length] *)
Definition nearbyUnitsCount (unitPosX rangeCheck range : Z)
    (unitTypes : list UnitType) : nat :=
  length
    (nearbyUnits test_map unit_ops 100
       (foldl (fun g nt => addUnit test_map unit_ops 100
                             (built (Z.of_nat nt.1) unitPosX nt.2) g)
              ∅ (imap (fun n t => (n, t)) unitTypes))
       rangeCheck range unitTypes None).

Example test_hasUnitCases :
  checkRange 0 0 10 = true /\
  checkRange 0 10 10 = true /\
  checkRange 0 11 10 = false /\
  checkRange 0 42 198 = true /\
  checkRange 0 199 198 = false.
Proof. repeat split; vm_compute; reflexivity. Qed.

Example test_unitsInRangeCases :
  nearbyUnitsCount 0 0 10 [Warship] = 1%nat /\
  nearbyUnitsCount 0 0 10 [City; Port] = 2%nat /\
  nearbyUnitsCount 0 0 10 [] = 0%nat /\
  nearbyUnitsCount 0 10 10 [City] = 1%nat /\
  nearbyUnitsCount 0 11 10 [DefensePost] = 0%nat /\
  nearbyUnitsCount 0 42 198 [TradeShip] = 1%nat /\
  nearbyUnitsCount 0 199 198 [TransportShip] = 0%nat.
Proof. repeat split; vm_compute; reflexivity. Qed.

End UnitGridTest.

(* ===================================================================== *)
(** ** GameView.ts: the client world view *)
(* ===================================================================== *)

Module GameView.
Import Game.

Local Open Scope Z_scope.

(** The records of a delta (GameUpdates.ts), as far as the view's tables,
    the index and the readiness read them. *)
Record UnitUpdate : Type := {
  id : Z;
  unitType : UnitType;
  ownerID : Z;
  pos : TileRef;
  isActive : bool;
  level : Z;
  missileTimerQueue : list Tick
}.

Record PlayerUpdate : Type := {
  player_id : PlayerID;
  smallID : Z;
  clientID : option string;
  name : string
}.

Record GameUpdates : Type := {
  playerUpdates : list PlayerUpdate;
  unitUpdates : list UnitUpdate
}.

Record GameUpdateViewData : Type := {
  tick : Tick;
  updates : option GameUpdates
}.

Record Config : Type := {
  SAMCooldown : Z;
  SiloCooldown : Z
}.

(** *** UnitView *)

Record UnitView : Type := {
  _wasUpdated : bool;
  lastPos : list TileRef;
  _createdAt : Tick;
  data : UnitUpdate
}.

Definition new_UnitView (now : Tick) (d : UnitUpdate) : UnitView :=
  {| _wasUpdated := true; lastPos := [pos d]; _createdAt := now; data := d |}.

Definition UnitView_lastTile (u : UnitView) : TileRef :=
  match lastPos u with
  | [] => pos (data u)
  | p :: _ => p
  end.

Definition UnitView_update (d : UnitUpdate) (u : UnitView) : UnitView :=
  {| _wasUpdated := true; lastPos := lastPos u ++ [pos d];
     _createdAt := _createdAt u; data := d |}.

Definition UnitView_id (u : UnitView) : Z := id (data u).
Definition UnitView_tile (u : UnitView) : TileRef := pos (data u).
Definition UnitView_type (u : UnitView) : UnitType := unitType (data u).
Definition UnitView_isActive (u : UnitView) : bool := isActive (data u).

(** [lastPos.slice(-1)] *)
Definition slice_last (l : list TileRef) : list TileRef :=
  match last l with Some p => [p] | None => [] end.

(** The start of an update: [_wasUpdated = false; lastPos = lastPos.slice(-1)]. *)
Definition UnitView_settle (u : UnitView) : UnitView :=
  {| _wasUpdated := false; lastPos := slice_last (lastPos u);
     _createdAt := _createdAt u; data := data u |}.

(** *** PlayerView *)

(** [created_from] is the update the mirror was constructed from: what is
    derived once at creation and cached (the anonymous name, the pattern
    decoder) is a function of it. *)
Record PlayerView : Type := {
  player_data : PlayerUpdate;
  created_from : PlayerUpdate
}.

Definition new_PlayerView (pu : PlayerUpdate) : PlayerView :=
  {| player_data := pu; created_from := pu |}.

Definition PlayerView_set_data (pu : PlayerUpdate) (p : PlayerView) : PlayerView :=
  {| player_data := pu; created_from := created_from p |}.

(** *** GameView *)

(** A reference to a [UnitView] object: the unit table and the index hold
    the same objects. *)
Definition loc : Type := positive.

Record GameView : Type := {
  lastUpdate : option GameUpdateViewData;
  smallIDToID : gmap Z PlayerID;
  _players : gmap PlayerID PlayerView;
  heap : gmap loc UnitView;
  _units : gmap Z loc;
  unitGrid : gmap UnitGrid.cell (list loc);
  toDelete : gset Z
}.

Definition empty_view : GameView :=
  {| lastUpdate := None; smallIDToID := ∅; _players := ∅; heap := ∅;
     _units := ∅; unitGrid := ∅; toDelete := ∅ |}.

Inductive error : Type :=
| updates_not_initialized
| player_id_not_found (id : PlayerID)
| small_id_not_found (id : Z).

Inductive result (A : Type) : Type :=
| Return (a : A)
| Throw (e : error).
Arguments Return {A} a.
Arguments Throw {A} e.

(** The identity of an object, which [===] compares.  [new] makes an
    object under the next identity, which no object made before has. *)
Definition ident : Type := positive.

(** What [playerBySmallID] resolves to: a [TerraNulliusImpl] object, known
    by its identity, or the mirror of a player. *)
Inductive owner : Type :=
| TerraNulliusImpl (o : ident)
| APlayer (p : PlayerView).

(** [new TerraNulliusImpl()]: the object made, and the next identity. *)
Definition new_TerraNulliusImpl (next : ident) : owner * ident :=
  (TerraNulliusImpl next, Pos.succ next).

Definition ticks (gv : GameView) : Tick :=
  match lastUpdate gv with None => 0 | Some u => tick u end.

Definition player (gv : GameView) (id : PlayerID) : result PlayerView :=
  match _players gv !! id with
  | None => Throw (player_id_not_found id)
  | Some p => Return p
  end.

(** [playerBySmallID(id)], called when [next] is the next identity: what it
    returns or throws, and the next identity after the call. *)
Definition playerBySmallID (gv : GameView) (id : Z) (next : ident)
  : result owner * ident :=
  if id =? 0 then
    let (sentinel, next') := new_TerraNulliusImpl next in
    (Return sentinel, next')
  else
    (match smallIDToID gv !! id with
     | None => Throw (small_id_not_found id)
     | Some playerId =>
         match player gv playerId with
         | Return p => Return (APlayer p)
         | Throw e => Throw e
         end
     end, next).

Definition hasPlayer (gv : GameView) (id : PlayerID) : bool := false.

Definition cooldownDuration (cfg : Config) (u : UnitView) : Z :=
  if decide (unitType (data u) = SAMLauncher)
  then SAMCooldown cfg else SiloCooldown cfg.

(** One pass of the loop over the reloading charges. *)
Definition add_progress (now : Tick) (duration maxMissiles : Z)
    (readiness : Q) (cooldown : Tick) : Q :=
  let cooldownProgress := now - cooldown in
  let cooldownRatio := (inject_Z cooldownProgress / inject_Z duration)%Q in
  let adjusted := (cooldownRatio / inject_Z maxMissiles)%Q in
  (readiness + adjusted)%Q.

(** [UnitView.missileReadinesss]: How "ready" this unit is from 0 to 1.
    JavaScript's numbers are read as rationals: the rounding of doubles
    is not modelled, nor a division by zero, which the source has for level
    0 or a cooldown of 0 (the facts below keep both positive). *)
Definition missileReadinesss (cfg : Config) (gv : GameView) (u : UnitView) : Q :=
  let maxMissiles := level (data u) in
  let missilesReloading := Z.of_nat (length (missileTimerQueue (data u))) in
  if missilesReloading =? 0 then 1%Q
  else
    let missilesReady := maxMissiles - missilesReloading in
    if (missilesReady =? 0) && (1 <? maxMissiles) then 0%Q
    else
      fold_left (add_progress (ticks gv) (cooldownDuration cfg u) maxMissiles)
                (missileTimerQueue (data u))
                (inject_Z missilesReady / inject_Z maxMissiles)%Q.

(** The mirrors the unit table holds ([this._units.values()]; the source
    lists them in insertion order, which nothing here depends on). *)
Definition unit_values (gv : GameView) : list UnitView :=
  omap (fun e => heap gv !! e.2) (map_to_list (_units gv)).

Definition units (gv : GameView) (types : list UnitType) : list UnitView :=
  match types with
  | [] => filter (fun u => UnitView_isActive u = true) (unit_values gv)
  | _ =>
      filter (fun u => UnitView_isActive u = true /\ UnitView_type u ∈ types)
             (unit_values gv)
  end.

Definition unit (gv : GameView) (id : Z) : option UnitView :=
  _units gv !! id ≫= fun l => heap gv !! l.

(** A delta whose one unit record is of a destroyed warship, and the view
    a first delta of one player makes. *)
Definition dead_unit : UnitUpdate :=
  {| id := 7; unitType := Warship; ownerID := 1; pos := 0; isActive := false;
     level := 1; missileTimerQueue := [] |}.

Definition delta_dead_unit : GameUpdateViewData :=
  {| tick := 1;
     updates := Some {| playerUpdates := []; unitUpdates := [dead_unit] |} |}.

Definition a_player : PlayerUpdate :=
  {| player_id := "defender_id"; smallID := 1; clientID := None;
     name := "defender" |}.

Definition delta_a_player : GameUpdateViewData :=
  {| tick := 1;
     updates := Some {| playerUpdates := [a_player]; unitUpdates := [] |} |}.

(** A launcher of level 2 whose one reloading charge was fired at tick 0,
    seen at tick 150 under a cooldown of 75 ticks. *)
Definition stale_launcher : UnitView :=
  {| _wasUpdated := true; lastPos := [0]; _createdAt := 0;
     data := {| id := 3; unitType := SAMLauncher; ownerID := 1; pos := 0;
                isActive := true; level := 2; missileTimerQueue := [0] |} |}.

Definition view_at_150 : GameView :=
  {| lastUpdate := Some {| tick := 150; updates := None |};
     smallIDToID := ∅; _players := ∅; heap := ∅; _units := ∅;
     unitGrid := ∅; toDelete := ∅ |}.

Definition cooldown_75 : Config := {| SAMCooldown := 75; SiloCooldown := 75 |}.

(** *** GameView.update *)

Definition with_units (h : gmap loc UnitView) (us : gmap Z loc)
    (g : gmap UnitGrid.cell (list loc)) (td : gset Z) (gv : GameView)
  : GameView :=
  {| lastUpdate := lastUpdate gv; smallIDToID := smallIDToID gv;
     _players := _players gv; heap := h; _units := us; unitGrid := g;
     toDelete := td |}.

Definition with_lastUpdate (gu : GameUpdateViewData) (gv : GameView) : GameView :=
  {| lastUpdate := Some gu; smallIDToID := smallIDToID gv;
     _players := _players gv; heap := heap gv; _units := _units gv;
     unitGrid := unitGrid gv; toDelete := toDelete gv |}.

Definition with_players (ids : gmap Z PlayerID) (ps : gmap PlayerID PlayerView)
    (gv : GameView) : GameView :=
  {| lastUpdate := lastUpdate gv; smallIDToID := ids; _players := ps;
     heap := heap gv; _units := _units gv; unitGrid := unitGrid gv;
     toDelete := toDelete gv |}.

(** [this.toDelete.forEach((id) => this._units.delete(id)); this.toDelete.clear()] *)
Definition cleanup (gv : GameView) : GameView :=
  with_units (heap gv) (set_fold delete (_units gv) (toDelete gv))
             (unitGrid gv) ∅ gv.

Definition applyPlayerUpdate (gv : GameView) (pu : PlayerUpdate) : GameView :=
  with_players
    (<[smallID pu := player_id pu]> (smallIDToID gv))
    (match _players gv !! player_id pu with
     | Some p => <[player_id pu := PlayerView_set_data pu p]> (_players gv)
     | None => <[player_id pu := new_PlayerView pu]> (_players gv)
     end)
    gv.

(** [for (const unit of this._units.values()) { ... }] *)
Definition settle (gv : GameView) : GameView :=
  let live : gset loc := map_img (_units gv) in
  with_units
    (map_imap (fun l u => Some (if decide (l ∈ live) then UnitView_settle u else u))
              (heap gv))
    (_units gv) (unitGrid gv) (toDelete gv) gv.

Section Update.

(** The map and the bucket size the view's [UnitGrid] is built with. *)
Variable gm : GameMap.
Variable cellSize : Z.

(** How the index reads the objects it holds. *)
Definition view_ops (h : gmap loc UnitView) (ids : gmap Z PlayerID)
  : UnitGrid.UnitOps loc :=
  {| UnitGrid.u_tile := fun l => from_option UnitView_tile 0 (h !! l);
     UnitGrid.u_type := fun l => from_option UnitView_type City (h !! l);
     UnitGrid.u_owner := fun l =>
       default EmptyString (h !! l ≫= fun u => ids !! ownerID (data u));
     UnitGrid.u_isActive := fun l => from_option UnitView_isActive false (h !! l) |}.

(** The body of [gu.updates[GameUpdateType.Unit].forEach((update) => ...)],
    first half: the mirror of the record's id is updated in place, or a
    new one is made, set in the table and added to the index. *)
Definition locate (gv : GameView) (update : UnitUpdate) : loc * GameView :=
  match _units gv !! id update with
  | Some l =>
      (l, with_units (alter (UnitView_update update) l (heap gv))
                     (_units gv) (unitGrid gv) (toDelete gv) gv)
  | None =>
      let l := fresh (dom (heap gv)) in
      let h := <[l := new_UnitView (ticks gv) update]> (heap gv) in
      (l, with_units h (<[id update := l]> (_units gv))
                     (UnitGrid.addUnit gm (view_ops h (smallIDToID gv))
                                       cellSize l (unitGrid gv))
                     (toDelete gv) gv)
  end.

(** Second half: the index follows the record, and an inactive unit is
    noted for deletion. *)
Definition reindex (update : UnitUpdate) (l : loc) (gv : GameView) : GameView :=
  match heap gv !! l with
  | None => gv
  | Some unit =>
      let ops := view_ops (heap gv) (smallIDToID gv) in
      let gv2 :=
        if negb (isActive update) then
          with_units (heap gv) (_units gv)
                     (UnitGrid.removeUnit l (unitGrid gv)) (toDelete gv) gv
        else if bool_decide (UnitView_tile unit <> UnitView_lastTile unit) then
          with_units (heap gv) (_units gv)
                     (UnitGrid.updateUnitCell gm ops cellSize l (unitGrid gv))
                     (toDelete gv) gv
        else gv in
      if negb (UnitView_isActive unit) then
        (* Wait until next tick to delete the unit. *)
        with_units (heap gv2) (_units gv2) (unitGrid gv2)
                   ({[UnitView_id unit]} ∪ toDelete gv2) gv2
      else gv2
  end.

Definition applyUnitUpdate (gv : GameView) (update : UnitUpdate) : GameView :=
  let found := locate gv update in
  reindex update found.1 found.2.

(** [update(gu)].  The tile updates, which go to the map, are left out. *)
Definition update (gu : GameUpdateViewData) (gv : GameView) : result GameView :=
  let gv := with_lastUpdate gu (cleanup gv) in
  match updates gu with
  | None => Throw updates_not_initialized
  | Some us =>
      let gv := foldl applyPlayerUpdate gv (playerUpdates us) in
      let gv := settle gv in
      Return (foldl applyUnitUpdate gv (unitUpdates us))
  end.

(** The deltas of consecutive ticks, applied in order. *)
Fixpoint run (gus : list GameUpdateViewData) (gv : GameView) : result GameView :=
  match gus with
  | [] => Return gv
  | gu :: rest =>
      match update gu gv with
      | Return gv' => run rest gv'
      | Throw e => Throw e
      end
  end.

(** The unit table names objects of the heap, one per id, each under its
    own id. *)
Definition wf (gv : GameView) : Prop :=
  (forall i l, _units gv !! i = Some l ->
               exists u, heap gv !! l = Some u /\ UnitView_id u = i) /\
  (forall i j l, _units gv !! i = Some l -> _units gv !! j = Some l -> i = j).

(** The tables before the unit records of an update are run. *)
Definition before_units (gu : GameUpdateViewData) (us : GameUpdates)
    (gv : GameView) : GameView :=
  settle (foldl applyPlayerUpdate (with_lastUpdate gu (cleanup gv))
                (playerUpdates us)).

(** What one unit record does to the tables, the index and the deletion set. *)
Record step_of (r : UnitUpdate) (l : loc) (gv gv' : GameView) : Prop := {
  step_wf : wf gv';
  step_table : _units gv' !! id r = Some l;
  step_object : exists u, heap gv' !! l = Some u /\ data u = r;
  step_heap_kept : forall l' u, l' <> l -> heap gv !! l' = Some u ->
                                heap gv' !! l' = Some u;
  step_heap_grows : forall l', is_Some (heap gv !! l') -> is_Some (heap gv' !! l');
  step_table_other : forall j, j <> id r -> _units gv' !! j = _units gv !! j;
  step_table_from : forall j l', _units gv' !! j = Some l' ->
                      _units gv !! j = Some l' \/ (j = id r /\ heap gv !! l' = None);
  step_index : forall l', UnitGrid.indexed (unitGrid gv') l' ->
                          UnitGrid.indexed (unitGrid gv) l' \/ l' = l;
  step_delete_kept : toDelete gv ⊆ toDelete gv';
  step_inactive : isActive r = false ->
                  ~ UnitGrid.indexed (unitGrid gv') l /\ id r ∈ toDelete gv'
}.

(** *** Facts on the update *)

Lemma cleanup_lookup gv i :
  _units (cleanup gv) !! i
  = if decide (i ∈ toDelete gv) then None else _units gv !! i.
Proof.
  unfold cleanup. simpl. revert i.
  refine (set_fold_ind_L
            (fun (m : gmap Z loc) (X : gset Z) =>
               forall i, m !! i = if decide (i ∈ X) then None else _units gv !! i)
            delete (_units gv) _ _ (toDelete gv)).
  - intros i. case_decide as Hi; [| reflexivity].
    now apply not_elem_of_empty in Hi.
  - intros x X r Hx IH i. rewrite lookup_delete, IH.
    destruct (decide (x = i)) as [-> | Hne].
    + rewrite decide_True; [reflexivity |].
      apply elem_of_union_l, elem_of_singleton. reflexivity.
    + destruct (decide (i ∈ X)) as [Hi | Hi].
      * rewrite decide_True; [reflexivity |]. now apply elem_of_union_r.
      * rewrite decide_False; [reflexivity |].
        rewrite elem_of_union, elem_of_singleton. intros [-> | Hi']; auto.
Qed.

Lemma wf_cleanup gv : wf gv -> wf (cleanup gv).
Proof.
  intros [Hheap Hinj]. split.
  - intros i l Hi. rewrite cleanup_lookup in Hi.
    case_decide; [discriminate |]. apply Hheap in Hi. exact Hi.
  - intros i j l Hi Hj. rewrite cleanup_lookup in Hi, Hj.
    repeat case_decide; try discriminate. eauto.
Qed.

Lemma players_units_part gv ps :
  heap (foldl applyPlayerUpdate gv ps) = heap gv /\
  _units (foldl applyPlayerUpdate gv ps) = _units gv /\
  unitGrid (foldl applyPlayerUpdate gv ps) = unitGrid gv /\
  toDelete (foldl applyPlayerUpdate gv ps) = toDelete gv.
Proof.
  revert gv. induction ps as [| pu ps IH]; intros gv; simpl; [auto |].
  destruct (IH (applyPlayerUpdate gv pu)) as (-> & -> & -> & ->). auto.
Qed.

Lemma settle_heap_lookup gv l :
  heap (settle gv) !! l
  = (fun u => if decide (l ∈ (map_img (_units gv) : gset loc))
              then UnitView_settle u else u) <$> heap gv !! l.
Proof.
  unfold settle. simpl. rewrite map_lookup_imap.
  destruct (heap gv !! l); reflexivity.
Qed.

Lemma wf_settle gv : wf gv -> wf (settle gv).
Proof.
  intros [Hheap Hinj]. split; [| exact Hinj].
  intros i l Hi. destruct (Hheap i l Hi) as (u & Hu & Hid).
  rewrite settle_heap_lookup, Hu. simpl.
  eexists. split; [reflexivity |]. case_decide; exact Hid.
Qed.

Lemma applyUnitUpdate_step gv r :
  wf gv -> exists l, step_of r l gv (applyUnitUpdate gv r).
Proof.
  intros [Hheap Hinj]. unfold applyUnitUpdate, locate.
  destruct (_units gv !! id r) as [l |] eqn:Hl.
  - (* a known id: the mirror is updated in place *)
    destruct (Hheap _ _ Hl) as (u & Hu & Hid). exists l.
    assert (alter (UnitView_update r) l (heap gv) !! l
            = Some (UnitView_update r u)) as Hu'.
    { rewrite lookup_alter_eq, Hu. reflexivity. }
    unfold reindex. simpl. rewrite Hu'.
    assert (forall g td,
      let gv' := with_units (alter (UnitView_update r) l (heap gv))
                            (_units gv) g td gv in
      (forall l', UnitGrid.indexed g l' ->
                  UnitGrid.indexed (unitGrid gv) l' \/ l' = l) ->
      toDelete gv ⊆ td ->
      (isActive r = false -> ~ UnitGrid.indexed g l /\ id r ∈ td) ->
      step_of r l gv gv') as Hbuild.
    { intros g td gv' Hg Htd Hin. split; simpl; auto.
      - split; simpl; [| exact Hinj].
        intros i l' Hi. destruct (decide (l' = l)) as [-> | Hne].
        + rewrite Hu'. eexists. split; [reflexivity |]. simpl.
          unfold UnitView_id. simpl.
          rewrite (Hinj _ _ _ Hi Hl). reflexivity.
        + rewrite lookup_alter_ne by auto. eauto.
      - eauto.
      - intros l' u0 Hne Hu0. rewrite lookup_alter_ne by auto. exact Hu0.
      - intros l' [u0 Hu0]. destruct (decide (l' = l)) as [-> | Hne].
        + rewrite Hu'. eauto.
        + rewrite lookup_alter_ne by auto. eauto. }
    unfold UnitView_isActive. simpl.
    destruct (isActive r) eqn:Ha; simpl.
    + case_bool_decide.
      * apply Hbuild; [| set_solver | discriminate].
        intros l' Hin. apply UnitGrid.indexed_updateUnitCell in Hin. tauto.
      * apply Hbuild; [tauto | set_solver | discriminate].
    + apply Hbuild.
      * intros l' Hin. apply UnitGrid.indexed_removeUnit in Hin. tauto.
      * set_solver.
      * intros _. split; [| unfold UnitView_id; simpl; set_solver].
        intros Hin. apply UnitGrid.indexed_removeUnit in Hin. tauto.
  - (* an unknown id: a new mirror *)
    set (l := fresh (dom (heap gv))).
    assert (heap gv !! l = None) as Hfresh.
    { apply not_elem_of_dom. apply is_fresh. }
    exists l. unfold reindex. simpl. rewrite lookup_insert_eq.
    set (h := <[l := new_UnitView (ticks gv) r]> (heap gv)).
    set (g0 := UnitGrid.addUnit gm (view_ops h (smallIDToID gv)) cellSize l
                                (unitGrid gv)).
    assert (forall g td,
      let gv' := with_units h (<[id r := l]> (_units gv)) g td gv in
      (forall l', UnitGrid.indexed g l' ->
                  UnitGrid.indexed (unitGrid gv) l' \/ l' = l) ->
      toDelete gv ⊆ td ->
      (isActive r = false -> ~ UnitGrid.indexed g l /\ id r ∈ td) ->
      step_of r l gv gv') as Hbuild.
    { intros g td gv' Hg Htd Hin. split; simpl; auto.
      - split; simpl.
        + intros i l' Hi. destruct (decide (i = id r)) as [-> | Hne].
          * rewrite lookup_insert_eq in Hi. injection Hi as <-.
            unfold h. rewrite lookup_insert_eq. eauto.
          * rewrite lookup_insert_ne in Hi by auto.
            destruct (Hheap _ _ Hi) as (u & Hu & Hid).
            exists u. split; [| exact Hid].
            unfold h. rewrite lookup_insert_ne; [exact Hu |].
            intros <-. congruence.
        + intros i j l' Hi Hj.
          destruct (decide (i = id r)) as [-> | Hi'];
            destruct (decide (j = id r)) as [-> | Hj']; auto.
          * rewrite lookup_insert_eq in Hi. injection Hi as <-.
            rewrite lookup_insert_ne in Hj by auto.
            destruct (Hheap _ _ Hj) as (u & Hu & _). congruence.
          * rewrite lookup_insert_eq in Hj. injection Hj as <-.
            rewrite lookup_insert_ne in Hi by auto.
            destruct (Hheap _ _ Hi) as (u & Hu & _). congruence.
          * rewrite lookup_insert_ne in Hi, Hj by auto. eauto.
      - apply lookup_insert_eq.
      - unfold h. rewrite lookup_insert_eq. eauto.
      - intros l' u0 Hne Hu0. unfold h. rewrite lookup_insert_ne by auto.
        exact Hu0.
      - intros l' [u0 Hu0]. unfold h.
        destruct (decide (l' = l)) as [-> | Hne].
        + rewrite lookup_insert_eq. eauto.
        + rewrite lookup_insert_ne by auto. eauto.
      - intros j Hne. rewrite lookup_insert_ne by auto. reflexivity.
      - intros j l' Hj. destruct (decide (j = id r)) as [-> | Hne].
        + rewrite lookup_insert_eq in Hj. injection Hj as <-. auto.
        + rewrite lookup_insert_ne in Hj by auto. auto. }
    assert (forall l', UnitGrid.indexed g0 l' ->
                       UnitGrid.indexed (unitGrid gv) l' \/ l' = l) as Hg0.
    { intros l' Hin. apply UnitGrid.indexed_addUnit in Hin. tauto. }
    unfold UnitView_isActive. simpl.
    destruct (isActive r) eqn:Ha; simpl.
    + case_bool_decide.
      * apply Hbuild; [| set_solver | discriminate].
        intros l' Hin. apply UnitGrid.indexed_updateUnitCell in Hin.
        destruct Hin as [-> | Hin]; auto.
      * apply Hbuild; [exact Hg0 | set_solver | discriminate].
    + apply Hbuild.
      * intros l' Hin. apply UnitGrid.indexed_removeUnit in Hin as [Hin _].
        auto.
      * set_solver.
      * intros _. split; [| unfold UnitView_id; simpl; set_solver].
        intros Hin. apply UnitGrid.indexed_removeUnit in Hin. tauto.
Qed.

Lemma wf_empty_view : wf empty_view.
Proof. split; intros *; simpl; rewrite lookup_empty; discriminate. Qed.

Lemma fold_wf gv rs : wf gv -> wf (foldl applyUnitUpdate gv rs).
Proof.
  revert gv. induction rs as [| r rs IH]; intros gv Hwf; simpl; [exact Hwf |].
  destruct (applyUnitUpdate_step gv r Hwf) as [l0 Hs].
  apply IH. exact (step_wf _ _ _ _ Hs).
Qed.

(** Records of other ids leave a deactivated mirror as it is: in the table,
    out of the index, noted for deletion. *)
Lemma fold_other_records gv rs i l u :
  (forall r, r ∈ rs -> id r <> i) ->
  wf gv -> _units gv !! i = Some l -> heap gv !! l = Some u ->
  ~ UnitGrid.indexed (unitGrid gv) l -> i ∈ toDelete gv ->
  let gv' := foldl applyUnitUpdate gv rs in
  wf gv' /\ _units gv' !! i = Some l /\ heap gv' !! l = Some u /\
  ~ UnitGrid.indexed (unitGrid gv') l /\ i ∈ toDelete gv'.
Proof.
  revert gv. induction rs as [| r rs IH]; intros gv Hrs Hwf Hi Hu Hnin Htd;
    simpl; [auto |].
  destruct (applyUnitUpdate_step gv r Hwf) as [l0 Hs].
  assert (id r <> i) as Hne by (apply Hrs; left).
  assert (_units (applyUnitUpdate gv r) !! i = Some l) as Hi'.
  { rewrite (step_table_other _ _ _ _ Hs) by auto. exact Hi. }
  assert (l <> l0) as Hl.
  { intros ->. apply Hne.
    exact (proj2 (step_wf _ _ _ _ Hs) _ _ _ (step_table _ _ _ _ Hs) Hi'). }
  apply IH; auto.
  - intros r' Hr'. apply Hrs. now right.
  - exact (step_wf _ _ _ _ Hs).
  - exact (step_heap_kept _ _ _ _ Hs _ _ Hl Hu).
  - intros Hin. apply (step_index _ _ _ _ Hs) in Hin. tauto.
  - apply (step_delete_kept _ _ _ _ Hs). exact Htd.
Qed.

(** An object that is in no entry of the table enters none again. *)
Lemma fold_absent gv rs l :
  wf gv -> is_Some (heap gv !! l) -> (forall j, _units gv !! j <> Some l) ->
  let gv' := foldl applyUnitUpdate gv rs in
  wf gv' /\ is_Some (heap gv' !! l) /\ (forall j, _units gv' !! j <> Some l).
Proof.
  revert gv. induction rs as [| r rs IH]; intros gv Hwf Hl Habs; simpl; [auto |].
  destruct (applyUnitUpdate_step gv r Hwf) as [l0 Hs].
  apply IH.
  - exact (step_wf _ _ _ _ Hs).
  - exact (step_heap_grows _ _ _ _ Hs _ Hl).
  - intros j Hj. apply (step_table_from _ _ _ _ Hs) in Hj as [Hj | [_ Hj]].
    + exact (Habs j Hj).
    + destruct Hl as [u Hu]. congruence.
Qed.

Lemma fold_untouched gv rs i :
  (forall r, r ∈ rs -> id r <> i) -> wf gv ->
  _units (foldl applyUnitUpdate gv rs) !! i = _units gv !! i.
Proof.
  revert gv. induction rs as [| r rs IH]; intros gv Hrs Hwf; simpl; [auto |].
  destruct (applyUnitUpdate_step gv r Hwf) as [l0 Hs].
  rewrite IH.
  - apply (step_table_other _ _ _ _ Hs). intros ->. eapply Hrs; [left | auto].
  - intros r' Hr'. apply Hrs. now right.
  - exact (step_wf _ _ _ _ Hs).
Qed.

Lemma update_unfold gu us gv :
  updates gu = Some us ->
  update gu gv = Return (foldl applyUnitUpdate (before_units gu us gv)
                               (unitUpdates us)).
Proof. intros H. unfold update, before_units. rewrite H. reflexivity. Qed.

Lemma before_units_table gu us gv :
  _units (before_units gu us gv) = _units (cleanup gv).
Proof.
  unfold before_units. simpl.
  destruct (players_units_part (with_lastUpdate gu (cleanup gv))
                               (playerUpdates us)) as (_ & -> & _).
  reflexivity.
Qed.

Lemma before_units_heap gu us gv l :
  is_Some (heap gv !! l) -> is_Some (heap (before_units gu us gv) !! l).
Proof.
  intros [u Hu]. unfold before_units. rewrite settle_heap_lookup.
  destruct (players_units_part (with_lastUpdate gu (cleanup gv))
                               (playerUpdates us)) as (-> & _).
  simpl. rewrite Hu. simpl. eauto.
Qed.

Lemma wf_before_units gu us gv : wf gv -> wf (before_units gu us gv).
Proof.
  intros Hwf. unfold before_units. apply wf_settle.
  apply wf_cleanup in Hwf. destruct Hwf as [Hheap Hinj].
  destruct (players_units_part (with_lastUpdate gu (cleanup gv))
                               (playerUpdates us)) as (Hh & Hu & _).
  unfold wf. rewrite Hh, Hu. simpl. split; assumption.
Qed.

Lemma wf_update gu gv gv' : wf gv -> update gu gv = Return gv' -> wf gv'.
Proof.
  intros Hwf Hup. destruct (updates gu) as [us |] eqn:Hus.
  - rewrite (update_unfold _ _ _ Hus) in Hup. injection Hup as <-.
    apply fold_wf. now apply wf_before_units.
  - unfold update in Hup. rewrite Hus in Hup. discriminate.
Qed.

Lemma wf_run gus gv gv' : wf gv -> run gus gv = Return gv' -> wf gv'.
Proof.
  revert gv. induction gus as [| gu gus IH]; intros gv Hwf Hrun; simpl in Hrun.
  - injection Hrun as <-. exact Hwf.
  - destruct (update gu gv) as [gv1 | e] eqn:Hup; [| discriminate].
    exact (IH gv1 (wf_update _ _ _ Hwf Hup) Hrun).
Qed.

Lemma update_absent gu gv gv' l :
  wf gv -> is_Some (heap gv !! l) -> (forall j, _units gv !! j <> Some l) ->
  update gu gv = Return gv' ->
  wf gv' /\ is_Some (heap gv' !! l) /\ (forall j, _units gv' !! j <> Some l).
Proof.
  intros Hwf Hl Habs Hup. destruct (updates gu) as [us |] eqn:Hus.
  - rewrite (update_unfold _ _ _ Hus) in Hup. injection Hup as <-.
    apply fold_absent.
    + now apply wf_before_units.
    + now apply before_units_heap.
    + intros j. rewrite before_units_table, cleanup_lookup.
      case_decide; [discriminate | apply Habs].
  - unfold update in Hup. rewrite Hus in Hup. discriminate.
Qed.

Lemma run_absent gus gv gv' l :
  wf gv -> is_Some (heap gv !! l) -> (forall j, _units gv !! j <> Some l) ->
  run gus gv = Return gv' ->
  forall j, _units gv' !! j <> Some l.
Proof.
  revert gv. induction gus as [| gu gus IH]; intros gv Hwf Hl Habs Hrun;
    simpl in Hrun.
  - injection Hrun as <-. exact Habs.
  - destruct (update gu gv) as [gv1 | e] eqn:Hup; [| discriminate].
    destruct (update_absent _ _ _ _ Hwf Hl Habs Hup) as (Hwf1 & Hl1 & Habs1).
    exact (IH gv1 Hwf1 Hl1 Habs1 Hrun).
Qed.

Lemma units_active gv types u : u ∈ units gv types -> UnitView_isActive u = true.
Proof.
  unfold units. destruct types; intros Hin;
    apply list_elem_of_filter in Hin; tauto.
Qed.

(** C5 (as amended).  When the last record a delta carries for a unit
    marks it inactive, the update leaves the unit's mirror out of the spatial
    index and keeps it in the unit table, where [unit(id)] finds it with
    [isActive() == false]; [units(...)], which lists active units only, does
    not return it.  The cleanup pass of the next update takes the mirror out
    of the table, for all later updates: [unit(id)] is undefined after the
    next update unless its delta carries a record of that id again. *)
Theorem deactivated_unit_kept_one_tick gv gu us before r after :
  wf gv ->
  updates gu = Some us ->
  unitUpdates us = before ++ r :: after ->
  isActive r = false ->
  (forall r', r' ∈ after -> id r' <> id r) ->
  exists gv' l u,
    update gu gv = Return gv' /\
    _units gv' !! id r = Some l /\ heap gv' !! l = Some u /\
    unit gv' (id r) = Some u /\ UnitView_isActive u = false /\
    ~ UnitGrid.indexed (unitGrid gv') l /\
    (forall types, u ∉ units gv' types) /\
    (forall gu2 gus gv'',
        run (gu2 :: gus) gv' = Return gv'' ->
        forall j, _units gv'' !! j <> Some l) /\
    (forall gu2 us2 gv'',
        updates gu2 = Some us2 ->
        (forall r', r' ∈ unitUpdates us2 -> id r' <> id r) ->
        update gu2 gv' = Return gv'' ->
        unit gv'' (id r) = None).
Proof.
  intros Hwf Hus Hrs Ha Hafter.
  rewrite (update_unfold _ _ _ Hus), Hrs, foldl_app. simpl.
  set (gv0 := foldl applyUnitUpdate (before_units gu us gv) before).
  assert (wf gv0) as Hwf0 by (apply fold_wf; now apply wf_before_units).
  destruct (applyUnitUpdate_step gv0 r Hwf0) as [l Hs].
  destruct (step_object _ _ _ _ Hs) as (u & Hu & Hdata).
  destruct (step_inactive _ _ _ _ Hs Ha) as [Hnin Htd].
  destruct (fold_other_records (applyUnitUpdate gv0 r) after (id r) l u)
    as (Hwf' & Hl' & Hu' & Hnin' & Htd'); auto.
  { exact (step_wf _ _ _ _ Hs). }
  { exact (step_table _ _ _ _ Hs). }
  set (gv' := foldl applyUnitUpdate (applyUnitUpdate gv0 r) after) in *.
  assert (UnitView_isActive u = false) as Hina.
  { unfold UnitView_isActive. now rewrite Hdata. }
  assert (forall j, _units (cleanup gv') !! j <> Some l) as Hclean.
  { intros j. rewrite cleanup_lookup. case_decide as Hj; [discriminate |].
    intros Hjl. apply Hj.
    rewrite (proj2 Hwf' _ _ _ Hjl Hl'). exact Htd'. }
  exists gv', l, u. repeat split; auto.
  - unfold unit. rewrite Hl'. simpl. exact Hu'.
  - intros types Hin. apply units_active in Hin. congruence.
  - intros gu2 gus gv'' Hrun. simpl in Hrun.
    destruct (update gu2 gv') as [gv1 | e] eqn:Hup; [| discriminate].
    assert (wf gv1 /\ is_Some (heap gv1 !! l) /\
            forall j, _units gv1 !! j <> Some l) as (Hwf1 & Hl1 & Habs1).
    { destruct (updates gu2) as [us2 |] eqn:Hus2.
      - rewrite (update_unfold _ _ _ Hus2) in Hup. injection Hup as <-.
        apply fold_absent.
        + now apply wf_before_units.
        + apply before_units_heap. eauto.
        + intros j. rewrite before_units_table. apply Hclean.
      - unfold update in Hup. rewrite Hus2 in Hup. discriminate. }
    exact (run_absent gus gv1 gv'' l Hwf1 Hl1 Habs1 Hrun).
  - intros gu2 us2 gv'' Hus2 Hno Hup.
    rewrite (update_unfold _ _ _ Hus2) in Hup. injection Hup as <-.
    unfold unit. rewrite fold_untouched; auto using wf_before_units.
    rewrite before_units_table, cleanup_lookup.
    rewrite decide_True by exact Htd'. reflexivity.
Qed.

(** *** Identity resolution *)

Lemma applyUnitUpdate_ids gv r :
  smallIDToID (applyUnitUpdate gv r) = smallIDToID gv.
Proof.
  unfold applyUnitUpdate, locate, reindex.
  destruct (_units gv !! id r); simpl;
    repeat match goal with
           | |- context [match ?x with _ => _ end] => destruct x; simpl
           end; reflexivity.
Qed.

Lemma fold_units_ids gv rs :
  smallIDToID (foldl applyUnitUpdate gv rs) = smallIDToID gv.
Proof.
  revert gv. induction rs as [| r rs IH]; intros gv; simpl; [reflexivity |].
  rewrite IH. apply applyUnitUpdate_ids.
Qed.

Lemma fold_players_ids gv ps i :
  smallIDToID (foldl applyPlayerUpdate gv ps) !! i = None <->
  smallIDToID gv !! i = None /\ forall pu, pu ∈ ps -> smallID pu <> i.
Proof.
  revert gv. induction ps as [| pu ps IH]; intros gv; simpl.
  - split; [intros H; split; [exact H |] | tauto].
    intros pu Hpu. inversion Hpu.
  - rewrite IH. simpl. rewrite lookup_insert_None. split.
    + intros [[Hi Hne] Hps]. split; [exact Hi |].
      intros pu' Hin. apply elem_of_cons in Hin as [-> | Hin]; auto.
    + intros [Hi Hps]. repeat split; auto.
      * apply Hps. left.
      * intros pu' Hin. apply Hps. now right.
Qed.

Lemma update_ids gu us gv gv' i :
  updates gu = Some us -> update gu gv = Return gv' ->
  smallIDToID gv' !! i = None <->
  smallIDToID gv !! i = None /\
  forall pu, pu ∈ playerUpdates us -> smallID pu <> i.
Proof.
  intros Hus Hup. rewrite (update_unfold _ _ _ Hus) in Hup.
  injection Hup as <-. rewrite fold_units_ids. unfold before_units. simpl.
  rewrite fold_players_ids. simpl. reflexivity.
Qed.

(** A small-id is registered by the player updates of the deltas, and by
    nothing else. *)
Lemma run_ids gus gv gv' i :
  run gus gv = Return gv' ->
  smallIDToID gv' !! i = None <->
  smallIDToID gv !! i = None /\
  forall gu us pu, gu ∈ gus -> updates gu = Some us ->
                   pu ∈ playerUpdates us -> smallID pu <> i.
Proof.
  revert gv. induction gus as [| gu gus IH]; intros gv Hrun; simpl in Hrun.
  - injection Hrun as <-. split; [intros H; split; [exact H |] | tauto].
    intros gu us pu Hgu. inversion Hgu.
  - destruct (update gu gv) as [gv1 | e] eqn:Hup; [| discriminate].
    destruct (updates gu) as [us |] eqn:Hus.
    + rewrite (IH gv1 Hrun), (update_ids gu us gv gv1 i Hus Hup). split.
      * intros [[Hi Hps] Hrest]. split; [exact Hi |].
        intros gu' us' pu Hin Hus' Hpu.
        apply elem_of_cons in Hin as [-> | Hin]; [| eauto].
        rewrite Hus in Hus'. injection Hus' as <-. auto.
      * intros [Hi Hall]. repeat split; auto.
        -- intros pu Hpu. apply (Hall gu us pu); auto. left.
        -- intros gu' us' pu Hin. apply Hall. now right.
    + unfold update in Hup. rewrite Hus in Hup. discriminate.
Qed.

(** C9 (as amended).  In a view built from the deltas received so far,
    [playerBySmallID] throws for every small-id other than 0 that no player
    update of those deltas carried, making no object; small-id 0,
    registered or not, resolves without failing to a [TerraNulliusImpl]
    object that the call makes: an object of its own for each call, so that
    the sentinels of two calls, whatever was made between them, are never
    the same object. *)
Theorem playerBySmallID_unregistered gus gv :
  run gus empty_view = Return gv ->
  (forall next,
      playerBySmallID gv 0 next = (Return (TerraNulliusImpl next), Pos.succ next)) /\
  (forall next r1 next1 next2 r2 next3,
      playerBySmallID gv 0 next = (r1, next1) ->
      (next1 <= next2)%positive ->
      playerBySmallID gv 0 next2 = (r2, next3) ->
      r1 <> r2) /\
  forall i,
    i <> 0 ->
    (forall gu us pu, gu ∈ gus -> updates gu = Some us ->
                      pu ∈ playerUpdates us -> smallID pu <> i) ->
    forall next,
      playerBySmallID gv i next = (Throw (small_id_not_found i), next).
Proof.
  intros Hrun. split; [reflexivity |]. split.
  - intros next r1 next1 next2 r2 next3 H1 Hle H2.
    unfold playerBySmallID in H1, H2. simpl in H1, H2.
    injection H1 as <- <-. injection H2 as <- <-.
    intros [= Heq]. lia.
  - intros i Hi Hnot next. unfold playerBySmallID.
    destruct (Z.eqb_spec i 0) as [| _]; [contradiction |].
    assert (smallIDToID gv !! i = None) as ->; [| reflexivity].
    apply (run_ids gus empty_view gv i Hrun). split; [| exact Hnot].
    apply lookup_empty.
Qed.

End Update.

(** The view after the delta of one destroyed warship: [unit(7)] finds the
    mirror, inactive; [units()] lists nothing. *)
Lemma deactivated_unit_not_enumerated :
  exists gv' u,
    update UnitGrid.test_map 100 delta_dead_unit empty_view = Return gv' /\
    unit gv' 7 = Some u /\ UnitView_isActive u = false /\
    units gv' [] = [].
Proof.
  eexists. eexists. split; [vm_compute; reflexivity |].
  repeat split; vm_compute; reflexivity.
Qed.

Lemma deactivated_unit_kept_one_tick_witness :
  exists gv' l u,
    update UnitGrid.test_map 100 delta_dead_unit empty_view = Return gv' /\
    _units gv' !! id dead_unit = Some l /\ heap gv' !! l = Some u /\
    unit gv' (id dead_unit) = Some u /\ UnitView_isActive u = false /\
    ~ UnitGrid.indexed (unitGrid gv') l /\
    (forall types, u ∉ units gv' types) /\
    (forall gu2 gus gv'',
        run UnitGrid.test_map 100 (gu2 :: gus) gv' = Return gv'' ->
        forall j, _units gv'' !! j <> Some l) /\
    (forall gu2 us2 gv'',
        updates gu2 = Some us2 ->
        (forall r', r' ∈ unitUpdates us2 -> id r' <> id dead_unit) ->
        update UnitGrid.test_map 100 gu2 gv' = Return gv'' ->
        unit gv'' (id dead_unit) = None).
Proof.
  apply (deactivated_unit_kept_one_tick UnitGrid.test_map 100 empty_view
           delta_dead_unit
           {| playerUpdates := []; unitUpdates := [dead_unit] |}
           [] dead_unit []).
  - apply wf_empty_view.
  - reflexivity.
  - reflexivity.
  - reflexivity.
  - intros r' Hr'. inversion Hr'.
Defined.

(** The view a new [GameView] is: two calls in a row with small-id 0
    return two objects, not one. *)
Lemma playerBySmallID_sentinel_not_singleton :
  exists o1 o2 next1 next2,
    playerBySmallID empty_view 0 1%positive
    = (Return (TerraNulliusImpl o1), next1) /\
    playerBySmallID empty_view 0 next1 = (Return (TerraNulliusImpl o2), next2) /\
    o1 <> o2.
Proof.
  exists 1%positive, 2%positive, 2%positive, 3%positive.
  split; [reflexivity |]. split; [reflexivity |]. discriminate.
Qed.

(** After the delta of player 1, small-id 2 does not resolve, and small-id
    0 resolves to a new object at each call. *)
Lemma playerBySmallID_unregistered_witness :
  exists gv,
    run UnitGrid.test_map 100 [delta_a_player] empty_view = Return gv /\
    (forall next,
        playerBySmallID gv 0 next
        = (Return (TerraNulliusImpl next), Pos.succ next)) /\
    (forall next r1 next1 next2 r2 next3,
        playerBySmallID gv 0 next = (r1, next1) ->
        (next1 <= next2)%positive ->
        playerBySmallID gv 0 next2 = (r2, next3) ->
        r1 <> r2) /\
    forall next, playerBySmallID gv 2 next = (Throw (small_id_not_found 2), next).
Proof.
  eexists. split; [vm_compute; reflexivity |].
  destruct (playerBySmallID_unregistered UnitGrid.test_map 100
              [delta_a_player] _ eq_refl) as (H0 & Hnew & Hi).
  split; [exact H0 |]. split; [exact Hnew |]. apply Hi; [lia |].
  intros gu us pu Hgu Hus Hpu.
  apply list_elem_of_singleton in Hgu. subst gu.
  injection Hus as <-. apply list_elem_of_singleton in Hpu. subst pu.
  simpl. lia.
Defined.

(** C10.  [hasPlayer] answers false for every view and every id, also for an
    id under which [player] finds a mirror: it does not tell what the player
    table holds. *)
Theorem hasPlayer_always_false :
  (forall gv id, hasPlayer gv id = false) /\
  (exists gv p,
      run UnitGrid.test_map 100 [delta_a_player] empty_view = Return gv /\
      player gv "defender_id" = Return p /\
      hasPlayer gv "defender_id" = false).
Proof.
  split; [reflexivity |].
  eexists. eexists. split; [vm_compute; reflexivity |].
  split; reflexivity.
Qed.

(** *** Readiness *)

Lemma missileReadinesss_no_reload cfg gv u :
  missileTimerQueue (data u) = [] -> missileReadinesss cfg gv u = 1%Q.
Proof. intros H. unfold missileReadinesss. now rewrite H. Qed.

Lemma adjusted_bounds (p d M : Z) :
  0 < d -> 0 < M -> 0 <= p <= d ->
  (0 <= inject_Z p / inject_Z d / inject_Z M)%Q /\
  (inject_Z p / inject_Z d / inject_Z M <= 1 / inject_Z M)%Q.
Proof.
  intros Hd HM Hp.
  assert (0 < inject_Z d)%Q as Hd' by (rewrite <- (Zlt_Qlt 0); exact Hd).
  assert (0 < inject_Z M)%Q as HM' by (rewrite <- (Zlt_Qlt 0); exact HM).
  assert (0 <= inject_Z p / inject_Z d)%Q as H0.
  { apply Qle_shift_div_l; [exact Hd' |]. rewrite Qmult_0_l.
    rewrite <- (Zle_Qle 0). lia. }
  assert (inject_Z p / inject_Z d <= 1)%Q as H1.
  { apply Qle_shift_div_r; [exact Hd' |]. rewrite Qmult_1_l.
    rewrite <- Zle_Qle. lia. }
  split.
  - apply Qle_shift_div_l; [exact HM' |]. now rewrite Qmult_0_l.
  - unfold Qdiv at 1 3. apply Qmult_le_compat_r; [exact H1 |].
    apply Qinv_le_0_compat. now apply Qlt_le_weak.
Qed.

Lemma fold_progress_bounds now d M queue (acc : Q) :
  0 < d -> 0 < M ->
  Forall (fun t => 0 <= now - t <= d) queue ->
  (acc <= fold_left (add_progress now d M) queue acc)%Q /\
  (fold_left (add_progress now d M) queue acc
   <= acc + inject_Z (Z.of_nat (length queue)) / inject_Z M)%Q.
Proof.
  intros Hd HM. revert acc.
  induction queue as [| t queue IH]; intros acc HF; simpl fold_left.
  - split; [apply Qle_refl |]. simpl. unfold Qdiv. rewrite Qmult_0_l, Qplus_0_r.
    apply Qle_refl.
  - apply Forall_cons in HF as [Ht HF].
    destruct (adjusted_bounds (now - t) d M Hd HM Ht) as [Hlo Hhi].
    destruct (IH (add_progress now d M acc t) HF) as [IHlo IHhi].
    unfold add_progress in *. split.
    + eapply Qle_trans; [| exact IHlo].
      rewrite <- (Qplus_0_r acc) at 1. apply Qplus_le_r. exact Hlo.
    + eapply Qle_trans; [exact IHhi |].
      replace (Z.of_nat (length (t :: queue)))
        with (1 + Z.of_nat (length queue)) by (simpl length; lia).
      assert (inject_Z (1 + Z.of_nat (length queue)) / inject_Z M
              == 1 / inject_Z M
                 + inject_Z (Z.of_nat (length queue)) / inject_Z M)%Q as Heq.
      { rewrite inject_Z_plus. unfold Qdiv.
        rewrite Qmult_plus_distr_l. reflexivity. }
      rewrite Heq, Qplus_assoc. apply Qplus_le_l, Qplus_le_r. exact Hhi.
Qed.

(** Under the invariants of the records the executor emits (a level of
    at least 1, no more charges reloading than the level, every timer
    within the cooldown window) the readiness, in exact arithmetic, is in
    [0, 1]; the code's sum of doubles can round to just above 1 there. *)
Lemma missileReadinesss_unit_interval cfg gv u :
  0 < level (data u) ->
  Z.of_nat (length (missileTimerQueue (data u))) <= level (data u) ->
  0 < cooldownDuration cfg u ->
  Forall (fun t => 0 <= ticks gv - t <= cooldownDuration cfg u)
         (missileTimerQueue (data u)) ->
  (0 <= missileReadinesss cfg gv u)%Q /\ (missileReadinesss cfg gv u <= 1)%Q.
Proof.
  intros HM Hn Hd HF. unfold missileReadinesss.
  destruct (_ =? 0); [split; discriminate |].
  destruct (_ && _); [split; discriminate |].
  destruct (fold_progress_bounds (ticks gv) (cooldownDuration cfg u)
              (level (data u)) (missileTimerQueue (data u))
              (inject_Z (level (data u)
                         - Z.of_nat (length (missileTimerQueue (data u))))
               / inject_Z (level (data u)))
              Hd HM HF) as [Hlo Hhi].
  remember (level (data u)) as M eqn:EM.
  remember (Z.of_nat (length (missileTimerQueue (data u)))) as n eqn:En.
  assert (0 < inject_Z M)%Q as HM' by (rewrite <- (Zlt_Qlt 0); exact HM).
  split.
  - eapply Qle_trans; [| exact Hlo].
    apply Qle_shift_div_l; [exact HM' |]. rewrite Qmult_0_l.
    rewrite <- (Zle_Qle 0). lia.
  - eapply Qle_trans; [exact Hhi |].
    unfold Qdiv. rewrite <- Qmult_plus_distr_l, <- inject_Z_plus.
    match goal with
    | |- (inject_Z ?z * _ <= _)%Q =>
        replace z with M by (subst n; unfold Tick; lia)
    end.
    apply Qle_lteq. right. apply Qmult_inv_r.
    intros H0. rewrite H0 in HM'. discriminate.
Qed.

(** C6, at an input the claim fails on.  A launcher of level 2 with one
    charge reloading since tick 0, read at tick 150 under a cooldown of 75
    ticks: [missileReadinesss] is 1/2 + (150/75)/2 = 3/2, above 1. *)
Theorem missileReadinesss_above_one :
  (missileReadinesss cooldown_75 view_at_150 stale_launcher == 3 # 2)%Q /\
  (1 < missileReadinesss cooldown_75 view_at_150 stale_launcher)%Q.
Proof. split; vm_compute; reflexivity. Qed.

End GameView.

(* ===================================================================== *)
(** ** SAMLauncherExecution.ts: the interceptor engagement resolver *)
(* ===================================================================== *)

Module SAM.
Import Game.

(** One point of a munition's flight path, as the tests of the SAM
    launcher build them: [{ tile, targetable }]. *)
Record TrajectoryTile : Type := {
  tt_tile : TileRef;
  targetable : bool
}.

(** A guided munition in flight, as the tests build it: an owner, a
    trajectory, and (from NukeExecution.ts, not among the sources) how far
    along it the munition is. *)
Record Munition : Type := {
  m_id : Z;
  m_owner : Z;
  trajectory : list TrajectoryTile;
  trajectoryIndex : nat;
  m_active : bool
}.

(** Modelled from the spec: the engagement state of an interceptor, of
    SAMLauncherExecution.ts, which is not among the sources (§3): "committed
    target reference (unit id, optional), cooldown-remaining". *)
Record Interceptor : Type := {
  i_id : Z;
  i_owner : Z;
  i_tile : TileRef;
  target : option Z;
  cooldown : nat
}.

Record World : Type := {
  interceptors : list Interceptor;
  munitions : list Munition
}.

(** Modelled from the spec: what the rest of a tick does around the
    resolver (§4.3, "unit movement/aging"; NukeExecution.ts is not among the
    sources): each munition moves some points along its path (none for one
    that no execution drives, as the bombs the tests build), and new ones
    are launched. *)
Record Events : Type := {
  moved : Munition -> nat;
  launched : list Munition
}.

(** Modelled from the spec: the states of §3: [Idle] (no target, not
    cooling down), [Engaged] (committed to one target), [Cooldown] (timer
    running). *)
Inductive EngagementState : Type := Idle | Engaged (t : Z) | Cooldown (remaining : nat).

Definition state (i : Interceptor) : EngagementState :=
  match target i, cooldown i with
  | Some t, _ => Engaged t
  | None, O => Idle
  | None, S n => Cooldown (S n)
  end.

(** Modelled from the spec: [isInCooldown()] of the unit (§8.5: "reports
    in cooldown"): the timer is running. *)
Definition isInCooldown (i : Interceptor) : bool := negb (Nat.eqb (cooldown i) 0).

Definition set_state (t : option Z) (c : nat) (i : Interceptor) : Interceptor :=
  {| i_id := i_id i; i_owner := i_owner i; i_tile := i_tile i;
     target := t; cooldown := c |}.

Definition deactivate (m : Munition) : Munition :=
  {| m_id := m_id m; m_owner := m_owner m; trajectory := trajectory m;
     trajectoryIndex := trajectoryIndex m; m_active := false |}.

(** The targets the interceptors hold. *)
Definition claims (ics : list Interceptor) : list Z := omap target ics.

Definition claimed (ics : list Interceptor) (t : Z) : bool :=
  bool_decide (t ∈ claims ics).

(** No munition is the committed target of two interceptors. *)
Definition unique_claims (ics : list Interceptor) : Prop := NoDup (claims ics).

(** The set-up of the test "two sams should not target twice same nuke":
    launchers at (1, 1) and (1, 2) of a map 200 tiles wide, a bomb flying
    (1, 1), (1, 2), (1, 3); and a launcher far from that path. *)
Definition sam1 : Interceptor :=
  {| i_id := 1%Z; i_owner := 1%Z; i_tile := 201%Z; target := None; cooldown := 0 |}.

Definition sam2 : Interceptor :=
  {| i_id := 2%Z; i_owner := 1%Z; i_tile := 401%Z; target := None; cooldown := 0 |}.

Definition far_sam : Interceptor :=
  {| i_id := 3%Z; i_owner := 1%Z; i_tile := 399%Z; target := None; cooldown := 0 |}.

Definition nuke : Munition :=
  {| m_id := 10%Z; m_owner := 2%Z;
     trajectory := [ {| tt_tile := 201%Z; targetable := true |};
                     {| tt_tile := 401%Z; targetable := true |};
                     {| tt_tile := 601%Z; targetable := true |} ];
     trajectoryIndex := 0; m_active := true |}.

(** The set-up of the test "SAMs should target only bombs aimed at nearby
    targets if not close to launch site", on the same map: a launcher at
    (100, 1) under the middle of the flight (the other is [far_sam], at the
    target (199, 1)), and a bomb that can be hit near its launch site and
    near its target only. *)
Definition middle_sam : Interceptor :=
  {| i_id := 4%Z; i_owner := 1%Z; i_tile := 300%Z; target := None; cooldown := 0 |}.

Definition overflight : Munition :=
  {| m_id := 13%Z; m_owner := 2%Z;
     trajectory := [ {| tt_tile := 1407%Z; targetable := true |};
                     {| tt_tile := 660%Z; targetable := false |};
                     {| tt_tile := 300%Z; targetable := false |};
                     {| tt_tile := 350%Z; targetable := false |};
                     {| tt_tile := 399%Z; targetable := true |} ];
     trajectoryIndex := 0; m_active := true |}.

(** The two bombs of the test "sam should only get one nuke at a time". *)
Definition nuke_east : Munition :=
  {| m_id := 11%Z; m_owner := 2%Z;
     trajectory := [ {| tt_tile := 201%Z; targetable := true |};
                     {| tt_tile := 202%Z; targetable := true |};
                     {| tt_tile := 203%Z; targetable := true |} ];
     trajectoryIndex := 0; m_active := true |}.

Definition nuke_south : Munition :=
  {| m_id := 12%Z; m_owner := 2%Z;
     trajectory := [ {| tt_tile := 201%Z; targetable := true |};
                     {| tt_tile := 401%Z; targetable := true |};
                     {| tt_tile := 601%Z; targetable := true |} ];
     trajectoryIndex := 0; m_active := true |}.

(** The events of the tests' ticks: nothing is launched; a bomb the test
    builds stays where it is, a bomb an execution drives moves on. *)
Definition still : Events := {| moved := fun _ => 0%nat; launched := [] |}.

Definition flight : Events := {| moved := fun _ => 1%nat; launched := [] |}.

(** The tick in which the bomb of [overflight] is launched. *)
Definition launch_overflight : Events :=
  {| moved := fun _ => 1%nat; launched := [overflight] |}.

Section Resolver.

(** The collaborators of §6: the map's distance, the configuration's
    engagement radius and cooldown duration, and (external) diplomacy. *)
Variable gm : GameMap.
Variable radius : Z.
Variable SAMCooldown : nat.
Variable friendly : Z -> Z -> bool.

Definition in_radius (i : Interceptor) (t : TileRef) : bool :=
  (euclideanDistSquared gm (i_tile i) t <=? radius * radius)%Z.

(** Where the munition is. *)
Definition position (m : Munition) : option TileRef :=
  tt_tile <$> trajectory m !! trajectoryIndex m.

(** The remaining flight path: the path from the point the munition is
    at, that point included, to its target. *)
Definition remaining (m : Munition) : list TrajectoryTile :=
  drop (trajectoryIndex m) (trajectory m).

(** Modelled from the spec: the reachability filter of
    SAMLauncherExecution.ts (§4.5): "munitions whose remaining flight path
    still passes through the interceptor's radius before reaching their
    target", at a point where the munition can be hit ([targetable], as the
    tests build the points of a trajectory). *)
Definition reachable (i : Interceptor) (m : Munition) : bool :=
  existsb (fun p => targetable p && in_radius i (tt_tile p)) (remaining m).

(** Modelled from the spec: the eligibility scan of SAMLauncherExecution.ts
    (§4.5): "hostile guided-munition units within the interceptor's
    engagement radius, filtered to" the reachable ones; "a second
    interceptor scanning the same tick must skip a target already claimed". *)
Definition eligible (others : list Interceptor) (i : Interceptor)
    (m : Munition) : bool :=
  m_active m
  && negb (friendly (i_owner i) (m_owner m))
  && from_option (in_radius i) false (position m)
  && reachable i m
  && negb (claimed others (m_id m)).

(** Modelled from the spec: the tie-break of SAMLauncherExecution.ts
    (§4.5): "commit to the nearest by remaining path distance; ties broken
    by lowest target identity". *)
Definition nearer (m1 m2 : Munition) : bool :=
  let d1 := length (remaining m1) in
  let d2 := length (remaining m2) in
  (d1 <? d2)%nat || ((d1 =? d2)%nat && (m_id m1 <? m_id m2)%Z).

Definition choose (candidates : list Munition) : option Munition :=
  foldl (fun best m =>
           match best with
           | None => Some m
           | Some b => if nearer m b then Some m else Some b
           end)
        None candidates.

(** Modelled from the spec: the outcome of an engagement (§4.5, §8.8):
    the munition is destroyed ("the nuke is inactive"). *)
Definition destroy (t : Z) (ms : list Munition) : list Munition :=
  (fun m => if decide (m_id m = t) then deactivate m else m) <$> ms.

(** Modelled from the spec: one interceptor's turn in a tick, of
    SAMLauncherExecution.ts (§4.5): a committed engagement resolves and "the
    interceptor transitions to Cooldown for a fixed duration (a
    configuration value), decrementing each tick, and cannot acquire a new
    target while cooling down"; an idle interceptor commits to the chosen
    eligible munition, if there is one. *)
Definition step_interceptor (others : list Interceptor) (ms : list Munition)
    (i : Interceptor) : Interceptor * list Munition :=
  match target i with
  | Some t => (set_state None SAMCooldown i, destroy t ms)
  | None =>
      match cooldown i with
      | S n => (set_state None n i, ms)
      | O =>
          match choose (filter (fun m => eligible others i m = true) ms) with
          | Some m => (set_state (Some (m_id m)) 0 i, ms)
          | None => (i, ms)
          end
      end
  end.

(** Modelled from the spec: the interceptors take their turns "within a
    single tick in a fixed evaluation order" (§4.5), here the order of the
    list; each sees what those before it did. *)
Fixpoint process (done todo : list Interceptor) (ms : list Munition)
  : list Interceptor * list Munition :=
  match todo with
  | [] => (done, ms)
  | i :: rest =>
      let r := step_interceptor (done ++ rest) ms i in
      process (done ++ [r.1]) rest r.2
  end.

(** Modelled from the spec: the munition's own movement (§4.5: "the
    munition reaches its own terminal condition"): some points further on
    its path, and at the end of the path it is no longer in flight. *)
Definition advance (n : nat) (m : Munition) : Munition :=
  match n with
  | O => m
  | S _ =>
      if m_active m then
        if (trajectoryIndex m + n <? length (trajectory m))%nat then
          {| m_id := m_id m; m_owner := m_owner m; trajectory := trajectory m;
             trajectoryIndex := trajectoryIndex m + n; m_active := true |}
        else deactivate m
      else m
  end.

Definition fly (e : Events) (w : World) : World :=
  {| interceptors := interceptors w;
     munitions := ((fun m => advance (moved e m) m) <$> munitions w)
                  ++ launched e |}.

(** Modelled from the spec: the resolver's pass of a tick (§4.5): every
    interceptor takes its turn. *)
Definition resolve (w : World) : World :=
  let r := process [] (interceptors w) (munitions w) in
  {| interceptors := r.1; munitions := r.2 |}.

(** Modelled from the spec: one tick (§4.3): "unit movement/aging,
    cooldown decrement, engagement resolution". *)
Definition tick (e : Events) (w : World) : World := resolve (fly e w).

Fixpoint run (es : list Events) (w : World) : World :=
  match es with
  | [] => w
  | e :: rest => run rest (tick e w)
  end.

(** A later stage of the same flight: the munition's identity and path
    are kept, its place on the path does not go back. *)
Definition descends (m m' : Munition) : Prop :=
  m_id m' = m_id m /\ m_owner m' = m_owner m /\ trajectory m' = trajectory m /\
  (trajectoryIndex m <= trajectoryIndex m')%nat.



(** *** Facts on the resolver *)

#[local] Instance descends_refl : Reflexive descends.
Proof. intros m. unfold descends. auto. Qed.

#[local] Instance descends_trans : Transitive descends.
Proof.
  intros a b c (H1 & H2 & H3 & H4) (H5 & H6 & H7 & H8). unfold descends.
  repeat split; try congruence. lia.
Qed.

Lemma descends_deactivate m : descends m (deactivate m).
Proof. unfold descends. simpl. auto. Qed.

Lemma descends_advance n m : descends m (advance n m).
Proof.
  unfold advance. destruct n; [reflexivity |].
  destruct (m_active m); [| reflexivity].
  destruct (_ <? _)%nat; [| apply descends_deactivate].
  unfold descends. simpl. repeat split; auto. lia.
Qed.

Lemma descends_destroy t ms : Forall2 descends ms (destroy t ms).
Proof.
  unfold destroy. apply Forall2_fmap_r.
  induction ms as [| m ms IH]; constructor; [| exact IH].
  simpl. destruct (decide (m_id m = t)); [apply descends_deactivate | reflexivity].
Qed.



Lemma choose_from (best : option Munition) candidates m :
  foldl (fun best m =>
           match best with
           | None => Some m
           | Some b => if nearer m b then Some m else Some b
           end) best candidates = Some m ->
  best = Some m \/ m ∈ candidates.
Proof.
  revert best. induction candidates as [| c cs IH]; intros best H; simpl in H.
  - now left.
  - apply IH in H as [H | H]; [| right; now right].
    destruct best as [b |].
    + destruct (nearer c b); injection H as <-; [right; left | now left].
    + injection H as <-. right. left.
Qed.

Lemma choose_elem candidates m : choose candidates = Some m -> m ∈ candidates.
Proof.
  intros H. apply choose_from in H as [H | H]; [discriminate | exact H].
Qed.

Lemma choose_some_from (b : Munition) candidates :
  is_Some (foldl (fun best m =>
                    match best with
                    | None => Some m
                    | Some b => if nearer m b then Some m else Some b
                    end) (Some b) candidates).
Proof.
  revert b. induction candidates as [| c cs IH]; intros b; simpl; [eauto |].
  destruct (nearer c b); apply IH.
Qed.

Lemma choose_is_Some candidates : candidates <> [] -> is_Some (choose candidates).
Proof.
  destruct candidates as [| c cs]; [congruence |]. intros _.
  unfold choose. simpl. apply choose_some_from.
Qed.

Lemma eligible_reachable others i m :
  eligible others i m = true ->
  reachable i m = true /\ (m_id m ∉ claims others) /\ m_active m = true.
Proof.
  unfold eligible, claimed. intros H.
  apply andb_true_iff in H as [H Hc]. apply andb_true_iff in H as [H Hr].
  apply andb_true_iff in H as [H _]. apply andb_true_iff in H as [Ha _].
  repeat split; auto.
  apply negb_true_iff, bool_decide_eq_false in Hc. exact Hc.
Qed.

Lemma eligible_claimed others i m :
  m_id m ∈ claims others -> eligible others i m = false.
Proof.
  intros Hin. unfold eligible, claimed.
  rewrite bool_decide_eq_true_2 by exact Hin. simpl.
  now rewrite andb_false_r.
Qed.

Lemma eligible_inactive others i m :
  m_active m = false -> eligible others i m = false.
Proof. intros Hm. unfold eligible. now rewrite Hm. Qed.

Lemma idle_state i : state i = Idle -> target i = None /\ cooldown i = 0%nat.
Proof.
  unfold state. destruct (target i); [discriminate |].
  destruct (cooldown i); [auto | discriminate].
Qed.

Lemma set_state_same i : set_state (target i) (cooldown i) i = i.
Proof. destruct i; reflexivity. Qed.

(** What one turn can leave in the interceptor's target: nothing, or a
    munition that was eligible to it and claimed by no other. *)
Lemma step_interceptor_target others ms i t :
  target (step_interceptor others ms i).1 = Some t ->
  state i = Idle /\
  exists m, m ∈ ms /\ m_id m = t /\ eligible others i m = true.
Proof.
  unfold step_interceptor, state.
  destruct i as [iid own tile [t0 |] [| n]]; simpl; try discriminate.
  destruct (choose _) as [m |] eqn:Hch; simpl; [| discriminate].
  intros [= <-]. split; [reflexivity |].
  apply choose_elem, list_elem_of_filter in Hch as [He Hm]. eauto.
Qed.

Lemma step_interceptor_munitions others ms i :
  Forall2 descends ms (step_interceptor others ms i).2.
Proof.
  unfold step_interceptor.
  destruct (target i); simpl; [apply descends_destroy |].
  destruct (cooldown i); simpl; [| reflexivity].
  destruct (choose _); reflexivity.
Qed.

Lemma step_interceptor_engaged others ms i t :
  target i = Some t ->
  step_interceptor others ms i = (set_state None SAMCooldown i, destroy t ms).
Proof. intros Ht. unfold step_interceptor. now rewrite Ht. Qed.

Lemma step_interceptor_cooling others ms i c :
  target i = None -> cooldown i = S c ->
  step_interceptor others ms i = (set_state None c i, ms).
Proof. intros Ht Hc. unfold step_interceptor. now rewrite Ht, Hc. Qed.

Lemma step_interceptor_idle others ms i :
  state i = Idle ->
  (forall m, m ∈ ms -> eligible others i m = false) ->
  step_interceptor others ms i = (i, ms).
Proof.
  intros Hi Hno. unfold step_interceptor, state in *.
  destruct (target i); [discriminate |].
  destruct (cooldown i); [| discriminate].
  destruct (choose _) as [m |] eqn:Hch; [| reflexivity].
  apply choose_elem, list_elem_of_filter in Hch as [He Hm].
  rewrite (Hno m Hm) in He. discriminate.
Qed.

Lemma step_interceptor_commits others ms i m :
  state i = Idle -> m ∈ ms -> eligible others i m = true ->
  exists m', m' ∈ ms /\ eligible others i m' = true /\
             step_interceptor others ms i = (set_state (Some (m_id m')) 0 i, ms).
Proof.
  intros Hi Hm He. unfold step_interceptor, state in *.
  destruct (target i); [discriminate |].
  destruct (cooldown i); [| discriminate].
  destruct (choose_is_Some (filter (fun m => eligible others i m = true) ms))
    as [m' Hch].
  { intros Hnil. assert (m ∈ filter (fun m => eligible others i m = true) ms)
      as Hin by (apply list_elem_of_filter; auto).
    rewrite Hnil in Hin. inversion Hin. }
  rewrite Hch. exists m'.
  apply choose_elem, list_elem_of_filter in Hch as [He' Hm']. auto.
Qed.

Lemma claims_app l k : claims (l ++ k) = claims l ++ claims k.
Proof. apply omap_app. Qed.

Lemma process_unique done todo ms :
  unique_claims (done ++ todo) -> unique_claims (process done todo ms).1.
Proof.
  revert done ms. induction todo as [| i rest IH]; intros done ms Hu; simpl.
  - now rewrite app_nil_r in Hu.
  - apply IH. unfold unique_claims in *.
    rewrite <- app_assoc. simpl.
    rewrite claims_app in *. simpl in *.
    apply NoDup_app in Hu as (Hd & Hdr & Hr).
    assert (NoDup (claims rest) /\
            forall x, x ∈ claims done -> x ∉ claims rest) as [Hrest Hdisj].
    { unfold claims in *. simpl in *. destruct (target i).
      - apply NoDup_cons in Hr as [_ Hr]. split; [exact Hr |].
        intros x Hx Hin. apply (Hdr x Hx). now right.
      - split; [exact Hr | exact Hdr]. }
    destruct (target (step_interceptor (done ++ rest) ms i).1) as [t |] eqn:Ht.
    + apply step_interceptor_target in Ht as (_ & m & _ & <- & He).
      apply eligible_reachable in He as (_ & Hnc & _).
      rewrite claims_app in Hnc.
      apply NoDup_app. repeat split; [exact Hd | |].
      * intros x Hx Hin. apply elem_of_cons in Hin as [-> | Hin].
        -- apply Hnc. apply elem_of_app. now left.
        -- exact (Hdisj x Hx Hin).
      * apply NoDup_cons. split; [| exact Hrest].
        intros Hin. apply Hnc. apply elem_of_app. now right.
    + apply NoDup_app. repeat split; assumption.
Qed.


Lemma process_done_lookup done todo ms k :
  (k < length done)%nat -> (process done todo ms).1 !! k = done !! k.
Proof.
  revert done ms. induction todo as [| i rest IH]; intros done ms Hk; simpl.
  - reflexivity.
  - rewrite IH by (rewrite length_app; lia). now apply lookup_app_l.
Qed.

(** The interceptor at a place of the list takes its turn once, against
    some state of the others and a later stage of the munitions. *)
Lemma process_lookup done todo ms k i :
  todo !! k = Some i ->
  exists others ms',
    Forall2 descends ms ms' /\
    (process done todo ms).1 !! (length done + k)%nat
    = Some (step_interceptor others ms' i).1.
Proof.
  revert done ms k. induction todo as [| j rest IH]; intros done ms k Hk;
    [discriminate |].
  destruct k as [| k]; simpl in *.
  - injection Hk as ->. exists (done ++ rest), ms. split; [reflexivity |].
    rewrite Nat.add_0_r, process_done_lookup by (rewrite length_app; simpl; lia).
    now rewrite list_lookup_middle.
  - destruct (IH (done ++ [(step_interceptor (done ++ rest) ms j).1])
                 (step_interceptor (done ++ rest) ms j).2 k Hk)
      as (others & ms' & HF & Hl).
    exists others, ms'. split.
    + etransitivity; [apply step_interceptor_munitions | exact HF].
    + rewrite length_app in Hl. simpl in Hl.
      replace (length done + S k)%nat with (length done + 1 + k)%nat by lia.
      exact Hl.
Qed.

Lemma resolve_lookup w k i :
  interceptors w !! k = Some i ->
  exists others ms',
    Forall2 descends (munitions w) ms' /\
    interceptors (resolve w) !! k = Some (step_interceptor others ms' i).1.
Proof.
  intros Hk. exact (process_lookup [] (interceptors w) (munitions w) k i Hk).
Qed.



Lemma run_unique es w :
  unique_claims (interceptors w) -> unique_claims (interceptors (run es w)).
Proof.
  revert w. induction es as [| e rest IH]; intros w Hu; simpl; [exact Hu |].
  apply IH. unfold tick, resolve. simpl. now apply process_unique.
Qed.

Lemma unique_claims_lookup ics k1 k2 i1 i2 t :
  unique_claims ics ->
  ics !! k1 = Some i1 -> ics !! k2 = Some i2 ->
  target i1 = Some t -> target i2 = Some t -> k1 = k2.
Proof.
  unfold unique_claims, claims.
  revert k1 k2. induction ics as [| i rest IH]; intros k1 k2 Hu H1 H2 T1 T2;
    [discriminate |].
  assert (forall k j, rest !! k = Some j -> target j = Some t ->
                      t ∈ omap target rest) as Hin.
  { intros k j Hk Hj. apply list_elem_of_omap. exists j. split; [| exact Hj].
    apply list_elem_of_lookup. eauto. }
  assert (NoDup (omap target rest)) as Hrest.
  { simpl in Hu. destruct (target i); [now apply NoDup_cons in Hu |]. exact Hu. }
  destruct k1 as [| k1], k2 as [| k2]; simpl in *.
  - reflexivity.
  - injection H1 as ->. rewrite T1 in Hu. apply NoDup_cons in Hu as [Hn _].
    exfalso. apply Hn. eauto.
  - injection H2 as ->. rewrite T2 in Hu. apply NoDup_cons in Hu as [Hn _].
    exfalso. apply Hn. eauto.
  - f_equal. eauto.
Qed.

(** Two idle interceptors, one munition eligible to both: the first to
    take its turn commits, the second skips the claimed munition. *)
Lemma two_interceptors_commit a b m :
  state a = Idle -> state b = Idle ->
  eligible [b] a m = true -> eligible [a] b m = true ->
  resolve {| interceptors := [a; b]; munitions := [m] |}
  = {| interceptors := [set_state (Some (m_id m)) 0 a; b]; munitions := [m] |}.
Proof.
  intros Ha Hb Ea Eb.
  unfold resolve. cbn [process interceptors munitions app].
  destruct (step_interceptor_commits [b] [m] a m Ha) as (m' & Hm' & _ & ->);
    [left | exact Ea |].
  apply list_elem_of_singleton in Hm'. subst m'. cbn [fst snd app].
  rewrite step_interceptor_idle; [reflexivity | exact Hb |].
  intros m' Hm'. apply list_elem_of_singleton in Hm'. subst m'.
  apply eligible_claimed. simpl. left.
Qed.

(** The tick after, wherever the munition has got to, the engagement
    resolves: the munition is destroyed, the first interceptor cools down
    and the second, left with nothing eligible, stays idle. *)
Lemma two_interceptors_resolve a b m e :
  state b = Idle -> launched e = [] ->
  tick e {| interceptors := [set_state (Some (m_id m)) 0 a; b];
            munitions := [m] |}
  = {| interceptors := [set_state None SAMCooldown a; b];
       munitions := [deactivate (advance (moved e m) m)] |}.
Proof.
  intros Hb He.
  unfold tick, resolve, fly.
  cbn [process interceptors munitions fmap list_fmap app]. rewrite He.
  cbn [app].
  rewrite (step_interceptor_engaged _ _ _ (m_id m)) by reflexivity.
  cbn [fst snd app]. unfold destroy. cbn [fmap list_fmap].
  rewrite decide_True by apply descends_advance.
  rewrite step_interceptor_idle; [reflexivity | exact Hb |].
  intros m' Hm'. apply list_elem_of_singleton in Hm'. subst m'.
  now apply eligible_inactive.
Qed.

Lemma tick_engaged e w k i t :
  interceptors w !! k = Some i -> target i = Some t ->
  interceptors (tick e w) !! k = Some (set_state None SAMCooldown i).
Proof.
  intros Hk Ht.
  destruct (resolve_lookup (fly e w) k i Hk) as (others & ms' & _ & Hl).
  unfold tick. rewrite Hl.
  now rewrite (step_interceptor_engaged _ _ _ t Ht).
Qed.

Lemma tick_cooling e w k i c :
  interceptors w !! k = Some i -> target i = None -> cooldown i = S c ->
  interceptors (tick e w) !! k = Some (set_state None c i).
Proof.
  intros Hk Ht Hc.
  destruct (resolve_lookup (fly e w) k i Hk) as (others & ms' & _ & Hl).
  unfold tick. rewrite Hl.
  now rewrite (step_interceptor_cooling _ _ _ c Ht Hc).
Qed.

Lemma run_cooling es w k i :
  interceptors w !! k = Some i -> target i = None ->
  (length es <= cooldown i)%nat ->
  interceptors (run es w) !! k
  = Some (set_state None (cooldown i - length es) i).
Proof.
  revert w i. induction es as [| e rest IH]; intros w i Hk Ht Hlen;
    simpl in *.
  - rewrite Nat.sub_0_r, <- Ht, set_state_same. exact Hk.
  - destruct (cooldown i) as [| c] eqn:Hc; [lia |].
    pose proof (tick_cooling e w k i c Hk Ht Hc) as Hstep.
    rewrite (IH _ _ Hstep); [reflexivity | reflexivity | simpl; lia].
Qed.


(** **** The turn of one interceptor among the others *)








(** **** One interceptor, one munition *)







(** C1.  An interceptor's engagement state has room for one committed
    target ([target] is optional), and through every run of ticks, whatever
    moves and whatever is launched, no munition is the committed target of
    two interceptors.  When two idle interceptors both have the same
    munition eligible in a tick, the first in the evaluation order commits
    to it and the second skips it; at the next tick the engagement
    resolves, the munition is destroyed, and exactly that one interceptor is
    in cooldown. *)
Theorem at_most_one_target :
  (forall i, (length (claims [i]) <= 1)%nat) /\
  (forall es w k1 k2 i1 i2 t,
      unique_claims (interceptors w) ->
      interceptors (run es w) !! k1 = Some i1 ->
      interceptors (run es w) !! k2 = Some i2 ->
      target i1 = Some t -> target i2 = Some t -> k1 = k2) /\
  (forall a b m e,
      state a = Idle -> state b = Idle ->
      eligible [b] a m = true -> eligible [a] b m = true ->
      launched e = [] ->
      interceptors (resolve {| interceptors := [a; b]; munitions := [m] |})
      = [set_state (Some (m_id m)) 0 a; b] /\
      interceptors
        (tick e (resolve {| interceptors := [a; b]; munitions := [m] |}))
      = [set_state None SAMCooldown a; b] /\
      Forall (fun m' => m_active m' = false)
        (munitions
           (tick e (resolve {| interceptors := [a; b]; munitions := [m] |}))) /\
      isInCooldown (set_state None SAMCooldown a)
      = negb (Nat.eqb SAMCooldown 0) /\
      isInCooldown b = false).
Proof.
  split; [| split].
  - intros i. unfold claims. simpl. destruct (target i); simpl; lia.
  - intros es w k1 k2 i1 i2 t Hu H1 H2 T1 T2.
    exact (unique_claims_lookup _ k1 k2 i1 i2 t (run_unique es w Hu)
                                H1 H2 T1 T2).
  - intros a b m e Ha Hb Ea Eb He.
    rewrite (two_interceptors_commit a b m Ha Hb Ea Eb).
    rewrite (two_interceptors_resolve a b m e Hb He). simpl.
    repeat split; auto.
    apply idle_state in Hb as [_ Hb]. unfold isInCooldown. now rewrite Hb.
Qed.


(** C3.  From the tick that resolves its engagement on, an interceptor has
    no target and its cooldown counts down from the configured duration by
    one per tick, whatever moves or is launched meanwhile: it reports
    cooldown after each of the next [SAMCooldown] ticks (the resolving one
    included) and no longer after the one that follows. *)
Theorem cooldown_as_configured w k i t e es :
  interceptors w !! k = Some i -> target i = Some t ->
  (length es <= SAMCooldown)%nat ->
  exists i',
    interceptors (run (e :: es) w) !! k = Some i' /\
    target i' = None /\
    cooldown i' = (SAMCooldown - length es)%nat /\
    isInCooldown i' = bool_decide (length es < SAMCooldown)%nat.
Proof.
  intros Hk Ht Hlen. simpl.
  pose proof (tick_engaged e w k i t Hk Ht) as Hres.
  eexists. split.
  - apply (run_cooling es _ k _ Hres); [reflexivity | exact Hlen].
  - simpl. split; [reflexivity |]. split; [reflexivity |].
    unfold isInCooldown. simpl.
    destruct (SAMCooldown - length es)%nat eqn:Hd; simpl.
    + symmetry. apply bool_decide_eq_false. lia.
    + symmetry. apply bool_decide_eq_true. lia.
Qed.

End Resolver.

(** The two launchers and the bomb of the test, radius 70, cooldown 75. *)
Lemma at_most_one_target_witness :
  interceptors
    (resolve (row_major 200) 70%Z 75 Z.eqb
             {| interceptors := [sam1; sam2]; munitions := [nuke] |})
  = [set_state (Some (m_id nuke)) 0 sam1; sam2] /\
  interceptors
    (tick (row_major 200) 70%Z 75 Z.eqb still
       (resolve (row_major 200) 70%Z 75 Z.eqb
                {| interceptors := [sam1; sam2]; munitions := [nuke] |}))
  = [set_state None 75 sam1; sam2] /\
  Forall (fun m' => m_active m' = false)
    (munitions
       (tick (row_major 200) 70%Z 75 Z.eqb still
          (resolve (row_major 200) 70%Z 75 Z.eqb
                   {| interceptors := [sam1; sam2]; munitions := [nuke] |}))) /\
  isInCooldown (set_state None 75 sam1) = negb (Nat.eqb 75 0) /\
  isInCooldown sam2 = false.
Proof.
  apply (proj2 (proj2 (at_most_one_target (row_major 200) 70%Z 75 Z.eqb))
               sam1 sam2 nuke still);
    vm_compute; reflexivity.
Defined.



(** The first launcher, committed to the bomb: three ticks later its
    cooldown stands at 73 of 75. *)
Lemma cooldown_as_configured_witness :
  exists i',
    interceptors
      (run (row_major 200) 70%Z 75 Z.eqb (still :: [still; still])
           {| interceptors := [set_state (Some 10%Z) 0 sam1; sam2];
              munitions := [nuke] |}) !! 0%nat = Some i' /\
    target i' = None /\
    cooldown i' = (75 - length [still; still])%nat /\
    isInCooldown i' = bool_decide (length [still; still] < 75)%nat.
Proof.
  apply (cooldown_as_configured (row_major 200) 70%Z 75 Z.eqb
           {| interceptors := [set_state (Some 10%Z) 0 sam1; sam2];
              munitions := [nuke] |}
           0%nat (set_state (Some 10%Z) 0 sam1) 10%Z still [still; still]).
  - reflexivity.
  - reflexivity.
  - simpl. lia.
Defined.

End SAM.

(* ===================================================================== *)
(** ** The tests of the SAM launcher, replayed on the resolver *)
(* ===================================================================== *)

Module SAMTest.
Import Game SAM.

Definition test_run (n : nat) (w : World) : World :=
  run (row_major 200) 70%Z 75 Z.eqb (replicate n still) w.

Definition active_munitions (w : World) : list Munition :=
  List.filter m_active (munitions w).

Definition in_cooldown_at (k : nat) (w : World) : bool :=
  from_option isInCooldown false (interceptors w !! k).

(** "sam should only get one nuke at a time" *)
Example test_one_nuke_at_a_time :
  length (active_munitions
            {| interceptors := [sam1]; munitions := [nuke_east; nuke_south] |})
  = 2%nat /\
  length (active_munitions
            (test_run 3 {| interceptors := [sam1];
                           munitions := [nuke_east; nuke_south] |}))
  = 1%nat.
Proof. split; vm_compute; reflexivity. Qed.

(** "sam should cooldown as long as configured" *)
Example test_cooldown_as_configured :
  in_cooldown_at 0 {| interceptors := [sam1]; munitions := [nuke] |} = false /\
  active_munitions
    (test_run 3 {| interceptors := [sam1]; munitions := [nuke] |}) = [] /\
  forallb (fun n => in_cooldown_at 0
                      (test_run n {| interceptors := [sam1];
                                     munitions := [nuke] |}))
          (seq 4 (75 - 3)) = true /\
  in_cooldown_at 0
    (test_run (75 + 2) {| interceptors := [sam1]; munitions := [nuke] |})
  = false.
Proof. repeat split; vm_compute; reflexivity. Qed.

(** "two sams should not target twice same nuke" *)
Example test_two_sams_one_nuke :
  active_munitions
    (test_run 3 {| interceptors := [sam1; sam2]; munitions := [nuke] |}) = [] /\
  length (List.filter isInCooldown
            (interceptors
               (test_run 3 {| interceptors := [sam1; sam2];
                              munitions := [nuke] |})))
  = 1%nat.
Proof. split; vm_compute; reflexivity. Qed.

(** "SAMs should target only bombs aimed at nearby targets if not close to
    launch site", the bomb flying one point of its path a tick *)
Example test_only_bombs_aimed_at_nearby_targets :
  let w := run (row_major 200) 70%Z 75 Z.eqb
               [flight; flight; flight; flight; flight]
               {| interceptors := [middle_sam; far_sam];
                  munitions := [overflight] |} in
  active_munitions w = [] /\
  in_cooldown_at 0 w = false /\ in_cooldown_at 1 w = true.
Proof. repeat split; vm_compute; reflexivity. Qed.

(** "SAMs should target close to launch site": the launcher at (1, 1), the
    bomb launched from (7, 7) *)
Example test_close_to_launch_site :
  let w := run (row_major 200) 70%Z 75 Z.eqb
               [launch_overflight; flight; flight]
               {| interceptors := [sam1]; munitions := [] |} in
  active_munitions w = [] /\ in_cooldown_at 0 w = true.
Proof. split; vm_compute; reflexivity. Qed.

End SAMTest.

(* ===================================================================== *)
(** ** Schemas.ts, continued: tokens, messages, and what validation keeps *)
(* ===================================================================== *)

Module SchemasMore.
Import Schemas.

Local Open Scope string_scope.

(** [a ?? b]: [b] only when [a] is [null] or [undefined]. *)
Definition nullish_or {A} (a : option A) (b : A) : A :=
  match a with Some x => x | None => b end.

(** [schema.safeParse(v).success], always a boolean. *)
Definition safeParse_success (s : schema) (v : value) : option bool :=
  Some (is_ok (s v)).

Section Tokens.

(** zod's string formats [z.uuid()] and [z.jwt()]. *)
Variable uuid_format : string -> bool.
Variable jwt_format : string -> bool.

Definition PersistentIdSchema : schema := regex uuid_format z_string.
Definition JwtTokenSchema : schema := regex jwt_format z_string.

Definition TokenSchema : schema :=
  refine (fun v =>
            nullish_or (safeParse_success PersistentIdSchema v)
                       (is_ok (JwtTokenSchema v)))
         z_string.

End Tokens.

(** *** More of zod *)

Definition num_min (bound : Z) : schema -> schema :=
  check (num_test (fun q => Qle_bool (inject_Z bound) q)) too_small.

Definition is_int (q : Q) : bool := Z.eqb (Z.pos (Qden (Qred q))) 1.

(** [.int()] *)
Definition int : schema -> schema := check (num_test is_int) invalid_type.

(** [z.tuple(items).rest(rest)]: an array of at least [items]' length. *)
Fixpoint parse_tuple (items : list schema) (rest : schema) (vs : list value)
  : parsed (list value) :=
  match items, vs with
  | [], _ => parse_items rest vs
  | _ :: _, [] => Err too_small
  | s :: items', v :: vs' =>
      match s v with
      | Err e => Err e
      | Ok v' =>
          match parse_tuple items' rest vs' with
          | Err e => Err e
          | Ok out => Ok (v' :: out)
          end
      end
  end.

Definition tuple_rest (items : list schema) (rest : schema) : schema := fun v =>
  match v with
  | VArr vs =>
      match parse_tuple items rest vs with
      | Ok out => Ok (VArr out)
      | Err e => Err e
      end
  | _ => Err invalid_type
  end.

(** [z.record(key, value)]: every key and every value of the object is run. *)
Fixpoint parse_record (ks vs : schema) (fields : list (string * value))
  : parsed (list (string * value)) :=
  match fields with
  | [] => Ok []
  | (k, v) :: rest =>
      match ks (VStr k) with
      | Err e => Err e
      | Ok _ =>
          match vs v with
          | Err e => Err e
          | Ok v' =>
              match parse_record ks vs rest with
              | Err e => Err e
              | Ok out => Ok ((k, v') :: out)
              end
          end
      end
  end.

Definition record (ks vs : schema) : schema := fun v =>
  match v with
  | VObj fields =>
      match parse_record ks vs fields with
      | Ok out => Ok (VObj out)
      | Err e => Err e
      end
  | _ => Err invalid_type
  end.

Section Messages.

(** The tables of [Schemas.Tables], the other enumerations and constants of
    Game.ts, the schema of StatsSchemas.ts, and zod's two string formats. *)
Variable PlayerType : list string.
Variable UnitType : list string.
Variable AllPlayers : string.
Variable quickChatKeys : list string.
Variable countryCodes : list string.
Variable flattenedEmojiTable_length : Z.
Variable PatternDecoder_accepts : string -> bool.
Variable SafeString_re : string -> bool.
Variable GameMapType : list string.
Variable Difficulty : list string.
Variable GameType : list string.
Variable GameMode : list string.
Variable Duos : string.
Variable Trios : string.
Variable Quads : string.
Variable PlayerStatsSchema : schema.
Variable uuid_format : string -> bool.
Variable jwt_format : string -> bool.

Abbreviation Intent :=
  (IntentSchema PlayerType UnitType AllPlayers quickChatKeys countryCodes
                flattenedEmojiTable_length PatternDecoder_accepts SafeString_re).
Abbreviation Turn :=
  (TurnSchema PlayerType UnitType AllPlayers quickChatKeys countryCodes
              flattenedEmojiTable_length PatternDecoder_accepts SafeString_re).
Abbreviation Username := (UsernameSchema SafeString_re).
Abbreviation Flag := (FlagSchema countryCodes).
Abbreviation Pattern := (PatternSchema PatternDecoder_accepts).

Definition TeamCountConfigSchema : schema :=
  union [z_number; z_literal Duos; z_literal Trios; z_literal Quads].

Definition GameConfigSchema : shape :=
  [("gameMap", z_enum GameMapType);
   ("difficulty", z_enum Difficulty);
   ("gameType", z_enum GameType);
   ("gameMode", z_enum GameMode);
   ("disableNPCs", z_boolean);
   ("bots", num_max 400 (num_min 0 (int z_number)));
   ("infiniteGold", z_boolean);
   ("infiniteTroops", z_boolean);
   ("instantBuild", z_boolean);
   ("maxPlayers", optional z_number);
   ("disabledUnits", optional (array (z_enum UnitType)));
   ("playerTeams", optional TeamCountConfigSchema)].

Definition AllPlayersStatsSchema : schema := record ID PlayerStatsSchema.

Definition PlayerSchema : shape :=
  [("clientID", ID); ("username", Username); ("flag", Flag);
   ("pattern", Pattern)].

Definition GameStartInfoSchema : shape :=
  [("gameID", ID); ("config", z_object GameConfigSchema);
   ("players", array (z_object PlayerSchema))].

Definition WinnerSchema : schema :=
  optional
    (union [tuple_rest [z_literal "player"; ID] ID;
            tuple_rest [z_literal "team"; SafeString SafeString_re] ID]).

(** **** Server *)

Definition ServerTurnMessageSchema : shape :=
  [("type", z_literal "turn"); ("turn", Turn)].

Definition ServerPingMessageSchema : shape := [("type", z_literal "ping")].

Definition ServerPrestartMessageSchema : shape :=
  [("type", z_literal "prestart"); ("gameMap", z_enum GameMapType)].

Definition ServerStartGameMessageSchema : shape :=
  [("type", z_literal "start"); ("turns", array Turn);
   ("gameStartInfo", z_object GameStartInfoSchema)].

Definition ServerDesyncSchema : shape :=
  [("type", z_literal "desync"); ("turn", z_number);
   ("correctHash", nullable z_number);
   ("clientsWithCorrectHash", z_number);
   ("totalActiveClients", z_number);
   ("yourHash", optional z_number)].

Definition ServerErrorSchema : shape :=
  [("type", z_literal "error"); ("error", z_string);
   ("message", optional z_string)].

Definition server_options : list shape :=
  [ ServerTurnMessageSchema; ServerPrestartMessageSchema;
    ServerStartGameMessageSchema; ServerPingMessageSchema;
    ServerDesyncSchema; ServerErrorSchema ].

Definition ServerMessageSchema : schema :=
  discriminatedUnion "type" server_options.

Definition server_types : list string :=
  ["turn"; "prestart"; "start"; "ping"; "desync"; "error"].

(** **** Client *)

Definition LogSeverity : list string :=
  ["DEBUG"; "INFO"; "WARN"; "ERROR"; "FATAL"].

Definition ClientSendWinnerSchema : shape :=
  [("type", z_literal "winner"); ("winner", WinnerSchema);
   ("allPlayersStats", AllPlayersStatsSchema)].

Definition ClientHashSchema : shape :=
  [("type", z_literal "hash"); ("hash", z_number); ("turnNumber", z_number)].

Definition ClientLogMessageSchema : shape :=
  [("type", z_literal "log"); ("severity", z_enum LogSeverity); ("log", ID)].

Definition ClientPingMessageSchema : shape := [("type", z_literal "ping")].

Definition ClientIntentMessageSchema : shape :=
  [("type", z_literal "intent"); ("intent", Intent)].

Definition ClientJoinMessageSchema : shape :=
  [("type", z_literal "join"); ("clientID", ID);
   ("token", TokenSchema uuid_format jwt_format); ("gameID", ID);
   ("lastTurn", z_number); ("username", Username); ("flag", Flag);
   ("pattern", Pattern)].

Definition client_options : list shape :=
  [ ClientSendWinnerSchema; ClientPingMessageSchema;
    ClientIntentMessageSchema; ClientJoinMessageSchema;
    ClientLogMessageSchema; ClientHashSchema ].

Definition ClientMessageSchema : schema :=
  discriminatedUnion "type" client_options.

Definition client_types : list string :=
  ["winner"; "ping"; "intent"; "join"; "log"; "hash"].

End Messages.

(** A schema that hands back the value it was given, or fails. *)
Definition validator (s : schema) : Prop :=
  forall v v', s v = Ok v' -> v' = v.

(** The keys an object holds, in order. *)
Definition keys {A} (fields : list (string * A)) : list string := map fst fields.

(** Two inputs on which every field of the shape reads the same. *)
Definition agree (sh : shape) (input input' : list (string * value)) : Prop :=
  forall k s, In (k, s) sh -> s (get k input') = s (get k input).

(** *** Sample values: the schemas over small tables, and messages *)

Definition IntentSchema0 : schema :=
  IntentSchema [] [] "AllPlayers" [] [] 10 (fun _ => true) (fun _ => true).

Definition TurnSchema0 : schema :=
  TurnSchema [] [] "AllPlayers" [] [] 10 (fun _ => true) (fun _ => true).

Definition ServerMessageSchema0 : schema :=
  ServerMessageSchema [] [] "AllPlayers" [] [] 10 (fun _ => true)
    (fun _ => true) ["World"] ["Medium"] ["Public"] ["Free For All"]
    "Duos" "Trios" "Quads".

Definition ClientMessageSchema0 : schema :=
  ClientMessageSchema [] [] "AllPlayers" [] [] 10 (fun _ => true)
    (fun _ => true) z_number (fun _ => true) (fun _ => false).

(** An attack with a key no variant names. *)
Definition an_attack : list (string * value) :=
  [("clientID", VStr "abcd1234"); ("type", VStr "attack");
   ("targetID", VNull); ("troops", VNum (5 # 1)); ("colour", VStr "red")].

Definition an_attack_parsed : list (string * value) :=
  [("clientID", VStr "abcd1234"); ("type", VStr "attack");
   ("targetID", VNull); ("troops", VNum (5 # 1))].

Definition an_emoji : list (string * value) :=
  [("clientID", VStr "abcd1234"); ("type", VStr "emoji");
   ("recipient", VStr "AllPlayers"); ("emoji", VNum (3 # 1))].

(** A turn whose second intent lacks its [clientID]. *)
Definition a_bad_intent : value := VObj [("type", VStr "attack")].

Definition a_bad_turn : list (string * value) :=
  [("turnNumber", VNum (1 # 1));
   ("intents", VArr [VObj an_attack; a_bad_intent])].

Definition a_ping : list (string * value) := [("type", VStr "ping")].

Definition an_intent_message : list (string * value) :=
  [("type", VStr "intent"); ("intent", VObj an_attack)].

Definition a_turn_message : list (string * value) :=
  [("type", VStr "turn");
   ("turn", VObj [("turnNumber", VNum (1 # 1)); ("intents", VArr [])])].

Definition a_config : list (string * value) :=
  [("gameMap", VStr "World"); ("difficulty", VStr "Medium");
   ("gameType", VStr "Public"); ("gameMode", VStr "Free For All");
   ("disableNPCs", VBool false); ("bots", VNum (400 # 1));
   ("infiniteGold", VBool false); ("infiniteTroops", VBool false);
   ("instantBuild", VBool false)].

Definition a_start_info : list (string * value) :=
  [("gameID", VStr "game0001"); ("config", VObj a_config);
   ("players", VArr [])].

Definition a_start_message : list (string * value) :=
  [("type", VStr "start"); ("turns", VArr []);
   ("gameStartInfo", VObj a_start_info)].

Definition a_log_message : list (string * value) :=
  [("type", VStr "log"); ("severity", VStr "INFO"); ("log", VStr "abcd1234")].

(** *** Facts *)

Create HintDb validators.

Lemma validator_z_number : validator z_number.
Proof. intros [] v'; simpl; congruence. Qed.

Lemma validator_z_string : validator z_string.
Proof. intros [] v'; simpl; congruence. Qed.

Lemma validator_z_boolean : validator z_boolean.
Proof. intros [] v'; simpl; congruence. Qed.

Lemma validator_z_bigint : validator z_bigint.
Proof. intros [] v'; simpl; congruence. Qed.

Lemma validator_z_literal lit : validator (z_literal lit).
Proof. intros v v' H. apply z_literal_ok in H as [-> ->]. reflexivity. Qed.

Lemma validator_z_enum values : validator (z_enum values).
Proof.
  intros [] v'; simpl; try congruence.
  destruct (existsb _ _); congruence.
Qed.

Lemma validator_check test e s : validator s -> validator (check test e s).
Proof. intros Hs v v' H. apply check_ok in H as [H _]. exact (Hs _ _ H). Qed.

Lemma validator_nullable s : validator s -> validator (nullable s).
Proof. intros Hs [] v'; simpl; try apply Hs. congruence. Qed.

Lemma validator_optional s : validator s -> validator (optional s).
Proof. intros Hs [] v'; simpl; try apply Hs. congruence. Qed.

Lemma validator_union options :
  Forall validator options -> validator (union options).
Proof.
  intros HF v v'. unfold union.
  destruct (find (fun s => is_ok (s v)) options) as [s |] eqn:Hf;
    [| discriminate].
  apply find_some in Hf as [Hin _].
  rewrite List.Forall_forall in HF. apply (HF s Hin).
Qed.

#[local] Hint Resolve validator_z_number validator_z_string validator_z_boolean
  validator_z_bigint validator_z_literal validator_z_enum validator_check
  validator_nullable validator_optional validator_union : validators.

Lemma validator_ID : validator ID.
Proof. unfold ID, str_length, str_min, str_max, regex. auto with validators. Qed.

#[local] Hint Resolve validator_ID : validators.

Lemma validator_stable s v v' : validator s -> s v = Ok v' -> s v' = Ok v'.
Proof. intros Hs H. pose proof (Hs _ _ H) as ->. exact H. Qed.

Lemma parse_shape_agree sh input input' :
  agree sh input input' -> parse_shape sh input' = parse_shape sh input.
Proof.
  induction sh as [| [k s] rest IH]; intros Hag; simpl; [reflexivity |].
  rewrite (Hag k s) by now left.
  rewrite IH; [reflexivity |].
  intros k' s' Hin. apply Hag. now right.
Qed.

Lemma parse_shape_keys sh input out :
  parse_shape sh input = Ok out -> sublist (keys out) (keys sh).
Proof.
  revert out. induction sh as [| [k s] rest IH]; intros out H; simpl in H.
  - injection H as <-. constructor.
  - destruct (s (get k input)) as [v | e]; [| discriminate].
    destruct (parse_shape rest input) as [out' | e]; [| discriminate].
    injection H as <-. specialize (IH out' eq_refl). unfold keys in *.
    destruct (is_undefined v); simpl; now constructor.
Qed.

Lemma get_absent k (fields : list (string * value)) :
  ~ In k (keys fields) -> get k fields = VUndefined.
Proof.
  induction fields as [| [k' v] rest IH]; intros Hn; simpl; [reflexivity |].
  destruct (String.eqb_spec k k') as [-> | Hne].
  - exfalso. apply Hn. now left.
  - apply IH. intros Hin. apply Hn. now right.
Qed.

Lemma sublist_In {A} (l k : list A) x : sublist l k -> In x l -> In x k.
Proof.
  intros Hs Hin. apply list_elem_of_In.
  eapply sublist_subseteq; [exact Hs |]. now apply list_elem_of_In.
Qed.

(** Under a key whose field came out [undefined], the output holds nothing. *)
Lemma parse_shape_undefined sh input out k s :
  List.NoDup (keys sh) -> parse_shape sh input = Ok out -> In (k, s) sh ->
  s (get k input) = Ok VUndefined -> get k out = VUndefined.
Proof.
  unfold keys. revert out.
  induction sh as [| [k0 s0] rest IH]; intros out Hnd Hp Hin Hu.
  - destruct Hin.
  - simpl in Hp. inversion Hnd as [| ? ? Hnotin Hnd']; subst.
    destruct (s0 (get k0 input)) as [v0 | e0] eqn:E0; [| discriminate].
    destruct (parse_shape rest input) as [out' | e'] eqn:Er; [| discriminate].
    injection Hp as <-.
    destruct Hin as [[= -> ->] | Hin].
    + rewrite Hu in E0. injection E0 as <-. simpl.
      apply get_absent. intros Hk. apply Hnotin.
      exact (sublist_In _ _ _ (parse_shape_keys _ _ _ Er) Hk).
    + assert (k <> k0) as Hne.
      { intros ->. apply Hnotin. apply (in_map fst) in Hin. exact Hin. }
      destruct (is_undefined v0); [| rewrite get_cons_ne by assumption];
        eauto.
Qed.

(** Validating what a shape of validators accepted accepts it as it is. *)
Lemma parse_shape_idempotent sh input out :
  List.NoDup (keys sh) -> Forall (fun e => validator (snd e)) sh ->
  parse_shape sh input = Ok out -> parse_shape sh out = Ok out.
Proof.
  intros Hnd Hval Hp. rewrite <- Hp. apply parse_shape_agree.
  intros k s Hin.
  assert (validator s) as Hs.
  { rewrite List.Forall_forall in Hval. exact (Hval (k, s) Hin). }
  destruct (parse_shape_field _ _ _ _ _ Hnd Hp Hin) as (v & Hv & Hget).
  rewrite Hv. destruct (is_undefined v) eqn:Hu.
  - destruct v; try discriminate.
    rewrite (parse_shape_undefined _ _ _ _ _ Hnd Hp Hin Hv).
    exact (validator_stable _ _ _ Hs Hv).
  - rewrite (Hget eq_refl). exact (validator_stable _ _ _ Hs Hv).
Qed.

(** The keys of a shape written out in full are pairwise distinct. *)
Ltac distinct_keys :=
  cbn;
  repeat (constructor;
          [ cbn; let H := fresh in
                 intros H; repeat (destruct H as [H | H]; [discriminate H |]);
                 exact H
          | ]);
  constructor.

Lemma z_number_ok v v' : z_number v = Ok v' -> exists q, v = VNum q /\ v' = VNum q.
Proof. destruct v; simpl; try discriminate. intros [= <-]. eauto. Qed.

Lemma nullable_ok s v v' :
  nullable s v = Ok v' -> v = VNull \/ s v = Ok v'.
Proof. destruct v; simpl; auto. Qed.

Section MessageFacts.

Variable PlayerType : list string.
Variable UnitType : list string.
Variable AllPlayers : string.
Variable quickChatKeys : list string.
Variable countryCodes : list string.
Variable flattenedEmojiTable_length : Z.
Variable PatternDecoder_accepts : string -> bool.
Variable SafeString_re : string -> bool.
Variable GameMapType : list string.
Variable Difficulty : list string.
Variable GameType : list string.
Variable GameMode : list string.
Variable Duos : string.
Variable Trios : string.
Variable Quads : string.
Variable PlayerStatsSchema : schema.
Variable uuid_format : string -> bool.
Variable jwt_format : string -> bool.

Abbreviation options :=
  (intent_options PlayerType UnitType AllPlayers quickChatKeys countryCodes
                  flattenedEmojiTable_length PatternDecoder_accepts SafeString_re).
Abbreviation Intent :=
  (IntentSchema PlayerType UnitType AllPlayers quickChatKeys countryCodes
                flattenedEmojiTable_length PatternDecoder_accepts SafeString_re).
Abbreviation Turn :=
  (TurnSchema PlayerType UnitType AllPlayers quickChatKeys countryCodes
              flattenedEmojiTable_length PatternDecoder_accepts SafeString_re).
Abbreviation Server :=
  (ServerMessageSchema PlayerType UnitType AllPlayers quickChatKeys countryCodes
     flattenedEmojiTable_length PatternDecoder_accepts SafeString_re
     GameMapType Difficulty GameType GameMode Duos Trios Quads).
Abbreviation Client :=
  (ClientMessageSchema PlayerType UnitType AllPlayers quickChatKeys countryCodes
     flattenedEmojiTable_length PatternDecoder_accepts SafeString_re
     PlayerStatsSchema uuid_format jwt_format).

Lemma intent_options_validators :
  Forall (fun sh => Forall (fun e => validator (snd e)) sh) options.
Proof.
  unfold intent_options.
  repeat match goal with
         | |- Forall _ (_ :: _) => constructor
         | |- Forall _ [] => constructor
         end.
  all: cbn;
    repeat match goal with
           | |- Forall _ (_ :: _) => constructor
           | |- Forall _ [] => constructor
           end; cbn;
    unfold UsernameSchema, SafeString, FlagSchema, PatternSchema,
      RequiredPatternSchema, PlayerTypeSchema, EmojiSchema, QuickChatKeySchema,
      nonnegative, num_max, str_max, regex, refine;
    auto 12 with validators.
  all: apply validator_union; repeat constructor; auto with validators.
Qed.

(** X1.  [TokenSchema] accepts a value exactly when it is a string in the
    UUID format: [safeParse(v).success] is a boolean, never [null] or
    [undefined], so the [??] never reaches the JWT check, and a JWT that is
    no UUID is rejected. *)
Theorem TokenSchema_uuid_only :
  forall v,
    is_ok (TokenSchema uuid_format jwt_format v) = true <->
    exists s, v = VStr s /\ uuid_format s = true.
Proof.
  intros v. unfold TokenSchema, refine, check, PersistentIdSchema, regex, check.
  destruct v; simpl; try (split; [discriminate | intros (s0 & [=] & _)]).
  destruct (uuid_format s) eqn:Hu; simpl.
  - split; eauto.
  - split; [discriminate |]. intros (s0 & [= <-] & Hs). congruence.
Qed.

(** X2.  Validation is idempotent on intents: what [IntentSchema] hands
    out is accepted again by [IntentSchema], unchanged. *)
Theorem IntentSchema_idempotent :
  forall v out,
    IntentSchema PlayerType UnitType AllPlayers quickChatKeys countryCodes
      flattenedEmojiTable_length PatternDecoder_accepts SafeString_re v
    = Ok out ->
    IntentSchema PlayerType UnitType AllPlayers quickChatKeys countryCodes
      flattenedEmojiTable_length PatternDecoder_accepts SafeString_re out
    = Ok out.
Proof.
  intros v out H. unfold IntentSchema, discriminatedUnion in H.
  destruct v as [| | | | | | | input]; try discriminate.
  destruct (find _ options) as [sh |] eqn:Hf; [| discriminate].
  pose proof Hf as Hf'.
  apply intent_option_chosen in Hf' as ((Hnd & _ & t & _ & Hty & _) & _).
  assert (Forall (fun e => validator (snd e)) sh) as Hval.
  { pose proof intent_options_validators as HF.
    rewrite List.Forall_forall in HF. apply HF.
    now apply find_some in Hf as [Hin _]. }
  apply z_object_ok in H as (input' & fields & [= <-] & -> & Hp).
  destruct (parse_shape_field _ _ _ _ _ Hnd Hp Hty) as (v2 & H2 & G2).
  apply z_literal_ok in H2 as (Hin2 & ->).
  unfold IntentSchema, discriminatedUnion.
  rewrite (G2 eq_refl), <- Hin2, Hf.
  unfold z_object. now rewrite (parse_shape_idempotent _ _ _ Hnd Hval Hp).
Qed.

(** X3.  Validation strips what a variant does not name: the keys of an
    accepted intent are keys of one of the twenty variants, in the variant's
    order, and a key that variant does not have reads [undefined]. *)
Theorem IntentSchema_strips_unknown_keys :
  forall v out,
    Intent v = Ok out ->
    exists sh fields,
      In sh options /\ out = VObj fields /\
      sublist (keys fields) (keys sh) /\
      forall k, ~ In k (keys sh) -> get k fields = VUndefined.
Proof.
  intros v out H. unfold IntentSchema, discriminatedUnion in H.
  destruct v as [| | | | | | | input]; try discriminate.
  destruct (find _ options) as [sh |] eqn:Hf; [| discriminate].
  apply find_some in Hf as [Hin _].
  apply z_object_ok in H as (input' & fields & [= <-] & -> & Hp).
  exists sh, fields. repeat split; auto.
  - exact (parse_shape_keys _ _ _ Hp).
  - intros k Hk. apply get_absent. intros Hk'. apply Hk.
    exact (sublist_In _ _ _ (parse_shape_keys _ _ _ Hp) Hk').
Qed.

Lemma dispatch_attack input :
  get "type" input = VStr "attack" ->
  Intent (VObj input) = z_object AttackIntentSchema (VObj input).
Proof.
  intros H. unfold IntentSchema, discriminatedUnion. rewrite H. reflexivity.
Qed.

Lemma dispatch_boat input :
  get "type" input = VStr "boat" ->
  Intent (VObj input) = z_object BoatAttackIntentSchema (VObj input).
Proof.
  intros H. unfold IntentSchema, discriminatedUnion. rewrite H. reflexivity.
Qed.

Lemma dispatch_emoji input :
  get "type" input = VStr "emoji" ->
  Intent (VObj input)
  = z_object (EmojiIntentSchema AllPlayers flattenedEmojiTable_length)
             (VObj input).
Proof.
  intros H. unfold IntentSchema, discriminatedUnion. rewrite H. reflexivity.
Qed.

Lemma nonnegative_number_ok v v' :
  nonnegative z_number v = Ok v' -> exists q, v = VNum q /\ (0 <= q)%Q.
Proof.
  unfold nonnegative. intros H. apply check_ok in H as [H Hq].
  apply z_number_ok in H as (q & -> & ->). simpl in Hq.
  exists q. split; [reflexivity |]. now apply Qle_bool_iff.
Qed.

Lemma object_field sh input out k s :
  List.NoDup (keys sh) -> In (k, s) sh ->
  z_object sh (VObj input) = Ok out -> exists v, s (get k input) = Ok v.
Proof.
  intros Hnd Hin H.
  apply z_object_ok in H as (input' & fields & [= <-] & -> & Hp).
  destruct (parse_shape_field _ _ _ _ _ Hnd Hp Hin) as (v & Hv & _). eauto.
Qed.

(** X4.  Troop counts of attacks are never negative: an accepted intent
    of type "attack" has [troops] [null] or a number that is at least 0,
    and one of type "boat" has a number that is at least 0. *)
Theorem attack_troops_nonnegative :
  forall input out,
    Intent (VObj input) = Ok out ->
    (get "type" input = VStr "attack" ->
     get "troops" input = VNull \/
     exists q, get "troops" input = VNum q /\ (0 <= q)%Q) /\
    (get "type" input = VStr "boat" ->
     exists q, get "troops" input = VNum q /\ (0 <= q)%Q).
Proof.
  intros input out H. split; intros Ht.
  - rewrite (dispatch_attack _ Ht) in H.
    apply (object_field _ _ _ "troops" (nullable (nonnegative z_number))) in H
      as (v & Hv).
    + apply nullable_ok in Hv as [Hv | Hv]; [now left | right].
      exact (nonnegative_number_ok _ _ Hv).
    + distinct_keys.
    + cbn. auto.
  - rewrite (dispatch_boat _ Ht) in H.
    apply (object_field _ _ _ "troops" (nonnegative z_number)) in H as (v & Hv).
    + exact (nonnegative_number_ok _ _ Hv).
    + distinct_keys.
    + cbn. auto.
Qed.

(** X5.  The emoji of an accepted intent of type "emoji" is a number
    within the emoji table: at least 0 and at most its length minus 1. *)
Theorem emoji_within_table :
  forall input out,
    Intent (VObj input) = Ok out ->
    get "type" input = VStr "emoji" ->
    exists q, get "emoji" input = VNum q /\
              (0 <= q)%Q /\ (q <= inject_Z (flattenedEmojiTable_length - 1))%Q.
Proof.
  intros input out H Ht. rewrite (dispatch_emoji _ Ht) in H.
  apply (object_field _ _ _ "emoji" (EmojiSchema flattenedEmojiTable_length))
    in H as (v & Hv).
  - unfold EmojiSchema, num_max in Hv. apply check_ok in Hv as [Hv Hmax].
    pose proof (validator_check _ _ _ validator_z_number _ _ Hv) as ->.
    apply nonnegative_number_ok in Hv as (q & Hq & H0).
    rewrite Hq in Hmax. simpl in Hmax.
    exists q. repeat split; auto. now apply Qle_bool_iff.
  - distinct_keys.
  - cbn. auto.
Qed.

(** X6.  One malformed intent blocks its whole turn: [TurnSchema] rejects
    a turn as soon as [IntentSchema] rejects one of its intents. *)
Theorem TurnSchema_rejects_on_one_bad_intent :
  forall input items bad,
    get "intents" input = VArr items ->
    In bad items -> is_ok (Intent bad) = false ->
    is_ok (Turn (VObj input)) = false.
Proof.
  intros input items bad Hget Hin Hbad.
  unfold TurnSchema, z_object, parse_shape.
  destruct (z_number (get "turnNumber" input)); [| reflexivity].
  rewrite Hget. unfold array.
  pose proof (parse_items_ok Intent items) as Hitems.
  destruct (parse_items Intent items) as [items' | e]; [| reflexivity].
  exfalso. assert (Forall (fun i => is_ok (Intent i) = true) items) as HF
    by now apply Hitems.
  rewrite List.Forall_forall in HF. specialize (HF bad Hin). congruence.
Qed.

Lemma server_accept_type input :
  is_ok (Server (VObj input)) = true ->
  exists t, In t server_types /\ get "type" input = VStr t.
Proof.
  unfold ServerMessageSchema, discriminatedUnion.
  destruct (find _ (server_options _ _ _ _ _ _ _ _ _ _ _ _ _ _ _))
    as [sh |] eqn:Hf; [| discriminate].
  intros _. apply find_some in Hf as [Hin Hok].
  unfold server_options, server_types in *. simpl in Hin.
  repeat (destruct Hin as [<- | Hin];
          [ apply z_literal_is_ok in Hok; eexists; split; [| exact Hok];
            simpl; tauto |]).
  destruct Hin.
Qed.

Lemma client_accept_type input :
  is_ok (Client (VObj input)) = true ->
  exists t, In t client_types /\ get "type" input = VStr t.
Proof.
  unfold ClientMessageSchema, discriminatedUnion.
  destruct (find _ (client_options _ _ _ _ _ _ _ _ _ _ _))
    as [sh |] eqn:Hf; [| discriminate].
  intros _. apply find_some in Hf as [Hin Hok].
  unfold client_options, client_types in *. simpl in Hin.
  repeat (destruct Hin as [<- | Hin];
          [ apply z_literal_is_ok in Hok; eexists; split; [| exact Hok];
            simpl; tauto |]).
  destruct Hin.
Qed.

(** X7.  The two message unions are closed: a value is rejected by
    [ServerMessageSchema] unless its [type] is one of the six server
    discriminators, and by [ClientMessageSchema] unless its [type] is one of
    the six client discriminators. *)
Theorem message_discriminators_closed :
  forall v,
    (is_ok (Server v) = true ->
     exists input t,
       v = VObj input /\ In t server_types /\ get "type" input = VStr t) /\
    (is_ok (Client v) = true ->
     exists input t,
       v = VObj input /\ In t client_types /\ get "type" input = VStr t).
Proof.
  intros v. split; intros H.
  - destruct v as [| | | | | | | input]; try discriminate.
    destruct (server_accept_type _ H) as (t & Ht & Hg). eauto.
  - destruct v as [| | | | | | | input]; try discriminate.
    destruct (client_accept_type _ H) as (t & Ht & Hg). eauto.
Qed.

(** X8.  Server and client messages do not mix: a value that both
    [ServerMessageSchema] and [ClientMessageSchema] accept is a ping. *)
Theorem only_ping_is_both_server_and_client_message :
  forall input,
    is_ok (Server (VObj input)) = true ->
    is_ok (Client (VObj input)) = true ->
    get "type" input = VStr "ping".
Proof.
  intros input Hs Hc.
  destruct (server_accept_type _ Hs) as (t & Ht & Hg).
  destruct (client_accept_type _ Hc) as (t' & Ht' & Hg').
  rewrite Hg in Hg'. injection Hg' as <-. rewrite Hg.
  unfold server_types, client_types in *. simpl in Ht, Ht'.
  intuition (subst; try discriminate; reflexivity).
Qed.

(** X9.  The message wrappers add nothing to their payload's validation:
    a message of type "intent" is accepted by [ClientMessageSchema] exactly
    when [IntentSchema] accepts its [intent], and one of type "turn" by
    [ServerMessageSchema] exactly when [TurnSchema] accepts its [turn]. *)
Theorem message_wrappers_validate_payload :
  forall input,
    (get "type" input = VStr "intent" ->
     is_ok (Client (VObj input)) = is_ok (Intent (get "intent" input))) /\
    (get "type" input = VStr "turn" ->
     is_ok (Server (VObj input)) = is_ok (Turn (get "turn" input))).
Proof.
  intros input. split; intros Ht.
  - unfold ClientMessageSchema, discriminatedUnion. rewrite Ht.
    cbn [find client_options shape_field is_ok z_literal].
    change (is_ok (z_object
                     [("type", z_literal "intent"); ("intent", Intent)]
                     (VObj input))
            = is_ok (Intent (get "intent" input))).
    unfold z_object, parse_shape. rewrite Ht. simpl.
    destruct (Intent (get "intent" input)) as [w | e]; reflexivity.
  - unfold ServerMessageSchema, discriminatedUnion. rewrite Ht.
    change (is_ok (z_object [("type", z_literal "turn"); ("turn", Turn)]
                     (VObj input))
            = is_ok (Turn (get "turn" input))).
    unfold z_object, parse_shape. rewrite Ht. simpl.
    destruct (Turn (get "turn" input)) as [w | e]; reflexivity.
Qed.

Lemma object_field_obj sh v out k s :
  List.NoDup (keys sh) -> In (k, s) sh ->
  z_object sh v = Ok out ->
  exists input w, v = VObj input /\ s (get k input) = Ok w.
Proof.
  intros Hnd Hin H.
  apply z_object_ok in H as (input & fields & -> & -> & Hp).
  destruct (parse_shape_field _ _ _ _ _ Hnd Hp Hin) as (w & Hw & _). eauto.
Qed.

Lemma is_int_ok q : is_int q = true -> (q == inject_Z (Qnum (Qred q)))%Q.
Proof.
  unfold is_int. intros H. apply Z.eqb_eq in H.
  transitivity (Qred q); [symmetry; apply Qred_correct |].
  destruct (Qred q) as [n d]. simpl in *. injection H as ->.
  unfold Qeq, inject_Z. simpl. lia.
Qed.

(** X10.  A start message that [ServerMessageSchema] accepts carries a
    game configuration whose [bots] is a whole number from 0 to 400. *)
Theorem start_message_bots_bounded :
  forall input out,
    Server (VObj input) = Ok out ->
    get "type" input = VStr "start" ->
    exists info config q z,
      get "gameStartInfo" input = VObj info /\
      get "config" info = VObj config /\
      get "bots" config = VNum q /\
      (q == inject_Z z)%Q /\ (0 <= z <= 400)%Z.
Proof.
  intros input out H Ht.
  unfold ServerMessageSchema, discriminatedUnion in H. rewrite Ht in H.
  change (z_object
            (ServerStartGameMessageSchema PlayerType UnitType AllPlayers
               quickChatKeys countryCodes flattenedEmojiTable_length
               PatternDecoder_accepts SafeString_re GameMapType Difficulty
               GameType GameMode Duos Trios Quads)
            (VObj input) = Ok out) in H.
  eapply (object_field _ _ _ "gameStartInfo") in H as (w & Hw);
    [| distinct_keys
     | cbn; eauto ].
  eapply (object_field_obj _ _ _ "config") in Hw as (info & w1 & Hinfo & Hw1);
    [| distinct_keys
     | cbn; eauto ].
  eapply (object_field_obj _ _ _ "bots") in Hw1 as (config & w2 & Hcfg & Hw2);
    [| distinct_keys
     | cbn; eauto 10 ].
  unfold num_max, num_min, int in Hw2.
  apply check_ok in Hw2 as [Hw2 Hmax]. apply check_ok in Hw2 as [Hw2 Hmin].
  apply check_ok in Hw2 as [Hw2 Hint].
  apply z_number_ok in Hw2 as (q & Hq & ->). simpl in Hmax, Hmin, Hint.
  apply Qle_bool_iff in Hmax, Hmin. apply is_int_ok in Hint.
  exists info, config, q, (Qnum (Qred q)).
  split; [assumption |]. split; [assumption |]. split; [assumption |].
  split; [assumption |].
  split; rewrite Zle_Qle, <- Hint; assumption.
Qed.

(** X11.  The text of a log message is held to the identifier format: a
    message of type "log" that [ClientMessageSchema] accepts has a [log] of
    exactly eight letters and digits, and a [severity] among the five of
    [LogSeverity]. *)
Theorem log_message_text_is_an_ID :
  forall input out,
    Client (VObj input) = Ok out ->
    get "type" input = VStr "log" ->
    (exists s, get "log" input = VStr s /\ String.length s = 8%nat /\
               re_alnum_plus s = true) /\
    (exists l, get "severity" input = VStr l /\ In l LogSeverity).
Proof.
  intros input out H Ht.
  unfold ClientMessageSchema, discriminatedUnion in H. rewrite Ht in H.
  change (z_object ClientLogMessageSchema (VObj input) = Ok out) in H.
  split.
  - eapply (object_field _ _ _ "log") in H as (w & Hw);
      [| distinct_keys
       | cbn; eauto ].
    apply ID_ok in Hw as (s & Hs & _ & Hlen & Hre). eauto.
  - eapply (object_field _ _ _ "severity") in H as (w & Hw);
      [| distinct_keys
       | cbn; eauto ].
    unfold z_enum in Hw. destruct (get "severity" input); try discriminate.
    destruct (existsb _ _) eqn:Hex; [| discriminate].
    apply existsb_exists in Hex as (l & Hl & Heq).
    apply String.eqb_eq in Heq. subst. eauto.
Qed.

End MessageFacts.

Lemma IntentSchema_idempotent_witness :
  IntentSchema0 (VObj an_attack) = Ok (VObj an_attack_parsed) /\
  IntentSchema0 (VObj an_attack_parsed) = Ok (VObj an_attack_parsed).
Proof.
  assert (IntentSchema0 (VObj an_attack) = Ok (VObj an_attack_parsed)) as H
    by reflexivity.
  split; [exact H |].
  exact (IntentSchema_idempotent _ _ _ _ _ _ _ _ _ _ H).
Defined.

Lemma IntentSchema_strips_unknown_keys_witness :
  IntentSchema0 (VObj an_attack) = Ok (VObj an_attack_parsed) /\
  exists sh fields,
    In sh (intent_options [] [] "AllPlayers" [] [] 10 (fun _ => true)
             (fun _ => true)) /\
    VObj an_attack_parsed = VObj fields /\
    sublist (keys fields) (keys sh) /\
    forall k, ~ In k (keys sh) -> get k fields = VUndefined.
Proof.
  assert (IntentSchema0 (VObj an_attack) = Ok (VObj an_attack_parsed)) as H
    by reflexivity.
  split; [exact H |].
  exact (IntentSchema_strips_unknown_keys _ _ _ _ _ _ _ _ _ _ H).
Defined.

Lemma attack_troops_nonnegative_witness :
  IntentSchema0 (VObj an_attack) = Ok (VObj an_attack_parsed) /\
  get "type" an_attack = VStr "attack" /\
  (get "troops" an_attack = VNull \/
   exists q, get "troops" an_attack = VNum q /\ (0 <= q)%Q).
Proof.
  assert (IntentSchema0 (VObj an_attack) = Ok (VObj an_attack_parsed)) as H
    by reflexivity.
  split; [exact H |]. split; [reflexivity |].
  exact (proj1 (attack_troops_nonnegative _ _ _ _ _ _ _ _ _ _ H) eq_refl).
Defined.

Lemma emoji_within_table_witness :
  IntentSchema0 (VObj an_emoji) = Ok (VObj an_emoji) /\
  get "type" an_emoji = VStr "emoji" /\
  exists q, get "emoji" an_emoji = VNum q /\
            (0 <= q)%Q /\ (q <= inject_Z (10 - 1))%Q.
Proof.
  assert (IntentSchema0 (VObj an_emoji) = Ok (VObj an_emoji)) as H
    by reflexivity.
  split; [exact H |]. split; [reflexivity |].
  exact (emoji_within_table _ _ _ _ _ _ _ _ _ _ H eq_refl).
Defined.

Lemma TurnSchema_rejects_on_one_bad_intent_witness :
  get "intents" a_bad_turn = VArr [VObj an_attack; a_bad_intent] /\
  In a_bad_intent [VObj an_attack; a_bad_intent] /\
  is_ok (IntentSchema0 a_bad_intent) = false /\
  is_ok (TurnSchema0 (VObj a_bad_turn)) = false.
Proof.
  split; [reflexivity |]. split; [simpl; tauto |]. split; [reflexivity |].
  apply (TurnSchema_rejects_on_one_bad_intent
           [] [] "AllPlayers" [] [] 10 (fun _ => true) (fun _ => true)
           a_bad_turn [VObj an_attack; a_bad_intent] a_bad_intent).
  - reflexivity.
  - simpl. tauto.
  - reflexivity.
Defined.

Lemma message_discriminators_closed_witness :
  is_ok (ServerMessageSchema0 (VObj a_turn_message)) = true /\
  exists input t,
    VObj a_turn_message = VObj input /\ In t server_types /\
    get "type" input = VStr t.
Proof.
  assert (is_ok (ServerMessageSchema0 (VObj a_turn_message)) = true) as H
    by reflexivity.
  split; [exact H |].
  exact (proj1 (message_discriminators_closed
                  [] [] "AllPlayers" [] [] 10 (fun _ => true) (fun _ => true)
                  ["World"] ["Medium"] ["Public"] ["Free For All"]
                  "Duos" "Trios" "Quads" z_number (fun _ => true)
                  (fun _ => false) (VObj a_turn_message)) H).
Defined.

Lemma only_ping_is_both_server_and_client_message_witness :
  is_ok (ServerMessageSchema0 (VObj a_ping)) = true /\
  is_ok (ClientMessageSchema0 (VObj a_ping)) = true /\
  get "type" a_ping = VStr "ping".
Proof.
  assert (is_ok (ServerMessageSchema0 (VObj a_ping)) = true) as Hs
    by reflexivity.
  assert (is_ok (ClientMessageSchema0 (VObj a_ping)) = true) as Hc
    by reflexivity.
  split; [exact Hs |]. split; [exact Hc |].
  exact (only_ping_is_both_server_and_client_message
           [] [] "AllPlayers" [] [] 10 (fun _ => true) (fun _ => true)
           ["World"] ["Medium"] ["Public"] ["Free For All"] "Duos" "Trios" "Quads"
           z_number (fun _ => true) (fun _ => false) a_ping Hs Hc).
Defined.

Lemma message_wrappers_validate_payload_witness :
  (get "type" an_intent_message = VStr "intent" /\
   is_ok (ClientMessageSchema0 (VObj an_intent_message))
   = is_ok (IntentSchema0 (get "intent" an_intent_message))) /\
  (get "type" a_turn_message = VStr "turn" /\
   is_ok (ServerMessageSchema0 (VObj a_turn_message))
   = is_ok (TurnSchema0 (get "turn" a_turn_message))).
Proof.
  split; (split; [reflexivity |]).
  - exact (proj1 (message_wrappers_validate_payload
                    [] [] "AllPlayers" [] [] 10 (fun _ => true)
                    (fun _ => true) ["World"] ["Medium"] ["Public"]
                    ["Free For All"] "Duos" "Trios" "Quads" z_number
                    (fun _ => true) (fun _ => false) an_intent_message)
                 eq_refl).
  - exact (proj2 (message_wrappers_validate_payload
                    [] [] "AllPlayers" [] [] 10 (fun _ => true)
                    (fun _ => true) ["World"] ["Medium"] ["Public"]
                    ["Free For All"] "Duos" "Trios" "Quads" z_number
                    (fun _ => true) (fun _ => false) a_turn_message)
                 eq_refl).
Defined.

Lemma start_message_bots_bounded_witness :
  ServerMessageSchema0 (VObj a_start_message) = Ok (VObj a_start_message) /\
  get "type" a_start_message = VStr "start" /\
  exists info config q z,
    get "gameStartInfo" a_start_message = VObj info /\
    get "config" info = VObj config /\
    get "bots" config = VNum q /\
    (q == inject_Z z)%Q /\ (0 <= z <= 400)%Z.
Proof.
  assert (ServerMessageSchema0 (VObj a_start_message)
          = Ok (VObj a_start_message)) as H by reflexivity.
  split; [exact H |]. split; [reflexivity |].
  exact (start_message_bots_bounded
           [] [] "AllPlayers" [] [] 10 (fun _ => true) (fun _ => true)
           ["World"] ["Medium"] ["Public"] ["Free For All"] "Duos" "Trios" "Quads"
           a_start_message (VObj a_start_message) H eq_refl).
Defined.

Lemma log_message_text_is_an_ID_witness :
  ClientMessageSchema0 (VObj a_log_message) = Ok (VObj a_log_message) /\
  get "type" a_log_message = VStr "log" /\
  (exists s, get "log" a_log_message = VStr s /\ String.length s = 8%nat /\
             re_alnum_plus s = true) /\
  (exists l, get "severity" a_log_message = VStr l /\ In l LogSeverity).
Proof.
  assert (ClientMessageSchema0 (VObj a_log_message) = Ok (VObj a_log_message))
    as H by reflexivity.
  split; [exact H |]. split; [reflexivity |].
  exact (log_message_text_is_an_ID
           [] [] "AllPlayers" [] [] 10 (fun _ => true) (fun _ => true)
           z_number (fun _ => true) (fun _ => false) a_log_message (VObj a_log_message) H eq_refl).
Defined.

End SchemasMore.

(* ===================================================================== *)
(** ** GameView.ts, continued: what an update makes of players and units *)
(* ===================================================================== *)

Module GameViewMore.
Import Game GameView.

Local Open Scope Z_scope.

(** What one unit record makes of the mirror of its id:
    [unit.update(update)] on the one the table holds,
    [new UnitView(this, update)] when it holds none. *)
Definition record_on (now : Tick) (r : UnitUpdate) (o : option UnitView)
  : UnitView :=
  match o with
  | Some u => UnitView_update r u
  | None => new_UnitView now r
  end.

(** The mirror of id [i] past one unit record. *)
Definition follow (i : Z) (now : Tick) (o : option UnitView) (r : UnitUpdate)
  : option UnitView :=
  if decide (id r = i) then Some (record_on now r o) else o.

(** The trail of a mirror ends at its tile. *)
Definition trail_ok (u : UnitView) : Prop :=
  last (lastPos u) = Some (pos (data u)).

(** Every small id the view knows names a player it holds. *)
Definition registered (gv : GameView) : Prop :=
  forall i pid, smallIDToID gv !! i = Some pid -> is_Some (_players gv !! pid).

(** A warship seen at tile 5, then at tile 6, then destroyed there. *)
Definition a_warship : UnitUpdate :=
  {| id := 4; unitType := Warship; ownerID := 1; pos := 5; isActive := true;
     level := 1; missileTimerQueue := [] |}.

Definition a_warship_moved : UnitUpdate :=
  {| id := 4; unitType := Warship; ownerID := 1; pos := 6; isActive := true;
     level := 1; missileTimerQueue := [] |}.

Definition a_warship_sunk : UnitUpdate :=
  {| id := 4; unitType := Warship; ownerID := 1; pos := 6; isActive := false;
     level := 1; missileTimerQueue := [] |}.

Definition delta (t : Tick) (ps : list PlayerUpdate) (rs : list UnitUpdate)
  : GameUpdateViewData :=
  {| tick := t; updates := Some {| playerUpdates := ps; unitUpdates := rs |} |}.

(** The view of [view_at_150], ten ticks on. *)
Definition view_at_160 : GameView :=
  {| lastUpdate := Some {| tick := 160; updates := None |};
     smallIDToID := ∅; _players := ∅; heap := ∅; _units := ∅;
     unitGrid := ∅; toDelete := ∅ |}.

(** The same player under a new name. *)
Definition a_player_renamed : PlayerUpdate :=
  {| player_id := "defender_id"; smallID := 1; clientID := None;
     name := "renamed" |}.

Section UpdateFacts.

Variable gm : GameMap.
Variable cellSize : Z.

(** *** One unit record *)

Lemma applyUnitUpdate_frame gv r :
  lastUpdate (applyUnitUpdate gm cellSize gv r) = lastUpdate gv /\
  _players (applyUnitUpdate gm cellSize gv r) = _players gv.
Proof.
  unfold applyUnitUpdate, locate, reindex.
  destruct (_units gv !! id r); simpl;
    repeat match goal with
           | |- context [match ?x with _ => _ end] => destruct x; simpl
           end; auto.
Qed.

Lemma wf_applyUnitUpdate gv r : wf gv -> wf (applyUnitUpdate gm cellSize gv r).
Proof.
  intros Hwf. destruct (applyUnitUpdate_step gm cellSize gv r Hwf) as [l Hs].
  exact (step_wf _ _ _ _ Hs).
Qed.

(** The heap, the table and the deletion set past a record of a known id. *)
Lemma applyUnitUpdate_known gv r l u :
  _units gv !! id r = Some l -> heap gv !! l = Some u ->
  heap (applyUnitUpdate gm cellSize gv r)
  = alter (UnitView_update r) l (heap gv) /\
  _units (applyUnitUpdate gm cellSize gv r) = _units gv /\
  toDelete (applyUnitUpdate gm cellSize gv r)
  = (if isActive r then toDelete gv else {[id r]} ∪ toDelete gv).
Proof.
  intros Hl Hu. unfold applyUnitUpdate, locate. rewrite Hl.
  unfold reindex. simpl. rewrite lookup_alter_eq, Hu. simpl.
  unfold UnitView_isActive, UnitView_id. simpl.
  destruct (isActive r); simpl; [case_bool_decide |]; auto.
Qed.

(** The same, past a record of an id the table does not hold. *)
Lemma applyUnitUpdate_new gv r :
  _units gv !! id r = None ->
  heap gv !! fresh (dom (heap gv)) = None /\
  heap (applyUnitUpdate gm cellSize gv r)
  = <[fresh (dom (heap gv)) := new_UnitView (ticks gv) r]> (heap gv) /\
  _units (applyUnitUpdate gm cellSize gv r)
  = <[id r := fresh (dom (heap gv))]> (_units gv) /\
  toDelete (applyUnitUpdate gm cellSize gv r)
  = (if isActive r then toDelete gv else {[id r]} ∪ toDelete gv).
Proof.
  intros Hl. split; [apply not_elem_of_dom, is_fresh |].
  unfold applyUnitUpdate, locate. rewrite Hl.
  unfold reindex. simpl. rewrite lookup_insert_eq. simpl.
  unfold UnitView_isActive, UnitView_id. simpl.
  destruct (isActive r); simpl; [case_bool_decide |]; auto.
Qed.

Lemma toDelete_applyUnitUpdate gv r :
  wf gv ->
  toDelete (applyUnitUpdate gm cellSize gv r)
  = (if isActive r then toDelete gv else {[id r]} ∪ toDelete gv).
Proof.
  intros [Hheap _]. destruct (_units gv !! id r) as [l |] eqn:Hl.
  - destruct (Hheap _ _ Hl) as (u & Hu & _).
    now destruct (applyUnitUpdate_known gv r l u Hl Hu) as (_ & _ & ->).
  - now destruct (applyUnitUpdate_new gv r Hl) as (_ & _ & _ & ->).
Qed.

(** [unit(i)] past one record. *)
Lemma unit_applyUnitUpdate gv r i :
  wf gv ->
  unit (applyUnitUpdate gm cellSize gv r) i = follow i (ticks gv) (unit gv i) r.
Proof.
  intros [Hheap Hinj]. unfold follow, unit.
  destruct (_units gv !! id r) as [l |] eqn:Hl.
  - destruct (Hheap _ _ Hl) as (u & Hu & _).
    destruct (applyUnitUpdate_known gv r l u Hl Hu) as (-> & -> & _).
    destruct (decide (id r = i)) as [<- | Hne].
    + rewrite Hl. simpl. rewrite lookup_alter_eq, Hu. reflexivity.
    + destruct (_units gv !! i) as [l' |] eqn:Hl'; [| reflexivity]. simpl.
      rewrite lookup_alter_ne; [reflexivity |].
      intros <-. apply Hne. exact (Hinj _ _ _ Hl Hl').
  - destruct (applyUnitUpdate_new gv r Hl) as (Hfresh & -> & -> & _).
    destruct (decide (id r = i)) as [<- | Hne].
    + rewrite lookup_insert_eq, Hl. simpl. now rewrite lookup_insert_eq.
    + rewrite lookup_insert_ne by exact Hne.
      destruct (_units gv !! i) as [l' |] eqn:Hl'; [| reflexivity]. simpl.
      rewrite lookup_insert_ne; [reflexivity |].
      intros <-. destruct (Hheap _ _ Hl') as (u & Hu & _). congruence.
Qed.

Lemma ticks_fold gv rs :
  ticks (foldl (applyUnitUpdate gm cellSize) gv rs) = ticks gv.
Proof.
  revert gv. induction rs as [| r rs IH]; intros gv; simpl; [reflexivity |].
  rewrite IH. unfold ticks.
  now destruct (applyUnitUpdate_frame gv r) as [-> _].
Qed.

(** [unit(i)] past the unit records of a delta. *)
Lemma unit_fold gv rs i :
  wf gv ->
  unit (foldl (applyUnitUpdate gm cellSize) gv rs) i
  = foldl (follow i (ticks gv)) (unit gv i) rs.
Proof.
  revert gv. induction rs as [| r rs IH]; intros gv Hwf; simpl; [reflexivity |].
  rewrite IH by now apply wf_applyUnitUpdate.
  rewrite unit_applyUnitUpdate by exact Hwf.
  unfold ticks. now destruct (applyUnitUpdate_frame gv r) as [-> _].
Qed.

Lemma toDelete_fold gv rs i :
  wf gv ->
  i ∈ toDelete (foldl (applyUnitUpdate gm cellSize) gv rs) <->
  i ∈ toDelete gv \/ exists r, r ∈ rs /\ id r = i /\ isActive r = false.
Proof.
  revert gv. induction rs as [| r rs IH]; intros gv Hwf; simpl.
  - split; [auto |]. intros [H | (r & Hr & _)]; [exact H | inversion Hr].
  - rewrite IH by now apply wf_applyUnitUpdate.
    rewrite toDelete_applyUnitUpdate by exact Hwf. split.
    + intros [H | (r' & Hr' & Hid & Ha)].
      * destruct (isActive r) eqn:Har; [auto |].
        apply elem_of_union in H as [H | H]; [| auto].
        apply elem_of_singleton in H. right. exists r.
        split; [left | auto].
      * right. exists r'. split; [now right | auto].
    + intros [H | (r' & Hr' & Hid & Ha)].
      * left. destruct (isActive r); [exact H |]. now apply elem_of_union_r.
      * apply elem_of_cons in Hr' as [-> | Hr'].
        -- left. rewrite Ha. apply elem_of_union_l, elem_of_singleton.
           now symmetry.
        -- right. eauto.
Qed.

(** *** A whole update, read at one id *)

Lemma unit_cleanup gv i :
  unit (cleanup gv) i = if decide (i ∈ toDelete gv) then None else unit gv i.
Proof.
  unfold unit. rewrite cleanup_lookup. case_decide; reflexivity.
Qed.

Lemma unit_settle gv i : unit (settle gv) i = UnitView_settle <$> unit gv i.
Proof.
  unfold unit. change (_units (settle gv)) with (_units gv).
  destruct (_units gv !! i) as [l |] eqn:Hl; [| reflexivity].
  change (heap (settle gv) !! l = UnitView_settle <$> heap gv !! l).
  rewrite settle_heap_lookup. destruct (heap gv !! l); [| reflexivity]. simpl.
  rewrite decide_True; [reflexivity |]. apply elem_of_map_img. eauto.
Qed.

Lemma players_frame gv ps :
  lastUpdate (foldl applyPlayerUpdate gv ps) = lastUpdate gv.
Proof.
  revert gv. induction ps as [| pu ps IH]; intros gv; simpl; [reflexivity |].
  now rewrite IH.
Qed.

Lemma unit_before_units gu us gv i :
  unit (before_units gu us gv) i
  = if decide (i ∈ toDelete gv) then None else UnitView_settle <$> unit gv i.
Proof.
  unfold before_units. rewrite unit_settle.
  set (g := with_lastUpdate gu (cleanup gv)).
  assert (unit (foldl applyPlayerUpdate g (playerUpdates us)) i = unit g i)
    as ->.
  { unfold unit.
    now destruct (players_units_part g (playerUpdates us)) as (-> & -> & _). }
  change (unit g i) with (unit (cleanup gv) i). rewrite unit_cleanup.
  case_decide; reflexivity.
Qed.

Lemma toDelete_before_units gu us gv : toDelete (before_units gu us gv) = ∅.
Proof.
  unfold before_units. change (toDelete (settle ?g)) with (toDelete g).
  now destruct (players_units_part (with_lastUpdate gu (cleanup gv))
                  (playerUpdates us)) as (_ & _ & _ & ->).
Qed.

Lemma ticks_before_units gu us gv : ticks (before_units gu us gv) = tick gu.
Proof.
  unfold before_units, ticks. change (lastUpdate (settle ?g)) with (lastUpdate g).
  now rewrite players_frame.
Qed.

(** [unit(i)], the deletion set and the clock past [update(gu)]. *)
Lemma unit_update gu us gv gv' :
  wf gv -> updates gu = Some us ->
  update gm cellSize gu gv = Return gv' ->
  wf gv' /\ ticks gv' = tick gu /\
  (forall i,
      unit gv' i
      = foldl (follow i (tick gu))
              (if decide (i ∈ toDelete gv) then None
               else UnitView_settle <$> unit gv i)
              (unitUpdates us)) /\
  (forall i, i ∈ toDelete gv' <->
             exists r, r ∈ unitUpdates us /\ id r = i /\ isActive r = false).
Proof.
  intros Hwf Hus Hup. rewrite (update_unfold gm cellSize _ _ _ Hus) in Hup.
  injection Hup as <-.
  pose proof (wf_before_units gu us gv Hwf) as Hwf'.
  split; [now apply fold_wf |].
  split; [now rewrite ticks_fold, ticks_before_units |].
  split.
  - intros i. now rewrite unit_fold, ticks_before_units, unit_before_units.
  - intros i. rewrite toDelete_fold by exact Hwf'.
    rewrite toDelete_before_units. split; [| auto].
    intros [H | H]; [| exact H]. now apply not_elem_of_empty in H.
Qed.

(** *** The records of one id among those of a delta *)

Lemma follow_skip i now rs o :
  (forall r, r ∈ rs -> id r <> i) -> foldl (follow i now) o rs = o.
Proof.
  revert o. induction rs as [| r rs IH]; intros o H; simpl; [reflexivity |].
  rewrite IH by (intros r' Hr'; apply H; now right).
  unfold follow. rewrite decide_False; [reflexivity |]. apply H. left.
Qed.

Lemma follow_last i now before r after o :
  id r = i -> (forall r', r' ∈ after -> id r' <> i) ->
  foldl (follow i now) o (before ++ r :: after)
  = Some (record_on now r (foldl (follow i now) o before)).
Proof.
  intros Hr Hafter. rewrite foldl_app. simpl. rewrite follow_skip by exact Hafter.
  unfold follow at 1. now rewrite decide_True.
Qed.

Lemma record_on_data now r o :
  data (record_on now r o) = r /\ _wasUpdated (record_on now r o) = true.
Proof. destruct o; auto. Qed.

Lemma follow_invariant (P : UnitView -> Prop) i now rs o :
  (forall u, o = Some u -> P u) ->
  (forall r o', r ∈ rs -> (forall u, o' = Some u -> P u) ->
                P (record_on now r o')) ->
  forall u, foldl (follow i now) o rs = Some u -> P u.
Proof.
  revert o. induction rs as [| r rs IH]; intros o Ho Hstep u; simpl.
  - apply Ho.
  - apply IH.
    + unfold follow. case_decide; [| exact Ho].
      intros u' [= <-]. apply Hstep; [left | exact Ho].
    + intros r' o' Hr'. apply Hstep. now right.
Qed.

Lemma follow_is_Some i now rs o r :
  r ∈ rs -> id r = i -> is_Some (foldl (follow i now) o rs).
Proof.
  intros Hr Hid. apply list_elem_of_split in Hr as (before & after & ->).
  revert before o. induction after as [| r' after IH] using rev_ind;
    intros before o.
  - rewrite foldl_app. simpl. unfold follow at 1. rewrite decide_True by auto.
    eauto.
  - replace (before ++ r :: after ++ [r'])
      with ((before ++ r :: after) ++ [r']) by now rewrite <- app_assoc.
    rewrite foldl_app. simpl. unfold follow at 1.
    case_decide; [eauto | apply IH].
Qed.

(** *** What [units] lists *)

Lemma unit_values_spec gv u :
  u ∈ unit_values gv <-> exists i, unit gv i = Some u.
Proof.
  unfold unit_values, unit. rewrite list_elem_of_omap. split.
  - intros ([i l] & Hin & Hu). apply elem_of_map_to_list in Hin.
    exists i. rewrite Hin. exact Hu.
  - intros (i & Hi). destruct (_units gv !! i) as [l |] eqn:Hl; [| discriminate].
    exists (i, l). split; [now apply elem_of_map_to_list | exact Hi].
Qed.

Lemma units_spec gv types u :
  u ∈ units gv types <->
  (exists i, unit gv i = Some u) /\ UnitView_isActive u = true /\
  (types = [] \/ UnitView_type u ∈ types).
Proof.
  unfold units. destruct types as [| t types].
  - rewrite list_elem_of_filter, unit_values_spec. intuition.
  - rewrite list_elem_of_filter, unit_values_spec. split.
    + intros [[Ha Ht] Hi]. auto.
    + intros (Hi & Ha & [Ht | Ht]); [discriminate | auto].
Qed.

Lemma update_returns gu gv gv' :
  update gm cellSize gu gv = Return gv' -> exists us, updates gu = Some us.
Proof.
  unfold update. destruct (updates gu) as [us |]; [eauto | discriminate].
Qed.

Lemma run_invariant (P : GameView -> Prop) :
  (forall gu gv gv', P gv -> update gm cellSize gu gv = Return gv' -> P gv') ->
  forall gus gv gv', P gv -> run gm cellSize gus gv = Return gv' -> P gv'.
Proof.
  intros Hstep gus. induction gus as [| gu gus IH]; intros gv gv' HP; simpl.
  - now intros [= <-].
  - destruct (update gm cellSize gu gv) as [gv1 | e] eqn:Hup; [| discriminate].
    apply IH. exact (Hstep _ _ _ HP Hup).
Qed.

Lemma trail_ok_settle u : trail_ok u -> trail_ok (UnitView_settle u).
Proof.
  unfold trail_ok, UnitView_settle, slice_last. simpl. now intros ->.
Qed.

Lemma trail_ok_record_on now r o :
  (forall u, o = Some u -> trail_ok u) -> trail_ok (record_on now r o).
Proof.
  intros _. destruct o as [u |]; unfold trail_ok; simpl; [| reflexivity].
  apply last_snoc.
Qed.

(** X12.  A unit record is what [unit(id)] then shows: after an update,
    the mirror under the id of a record (the last of that id in the delta)
    holds that record and counts as updated; when the record is active,
    [units()] and [units(type)] list the mirror. *)
Theorem unit_record_round_trip gv gu us before r after gv' :
  wf gv ->
  updates gu = Some us ->
  unitUpdates us = before ++ r :: after ->
  (forall r', r' ∈ after -> id r' <> id r) ->
  update gm cellSize gu gv = Return gv' ->
  exists u,
    unit gv' (id r) = Some u /\ data u = r /\ _wasUpdated u = true /\
    (isActive r = true -> u ∈ units gv' [] /\ u ∈ units gv' [unitType r]).
Proof.
  intros Hwf Hus Hrs Hafter Hup.
  destruct (unit_update _ _ _ _ Hwf Hus Hup) as (_ & _ & Hunit & _).
  specialize (Hunit (id r)). rewrite Hrs in Hunit.
  rewrite (follow_last _ _ _ _ _ _ eq_refl Hafter) in Hunit.
  eexists. split; [exact Hunit |].
  destruct (record_on_data (tick gu) r
              (foldl (follow (id r) (tick gu))
                     (if decide (id r ∈ toDelete gv) then None
                      else UnitView_settle <$> unit gv (id r)) before))
    as [Hd Hw].
  split; [exact Hd |]. split; [exact Hw |].
  intros Ha. split; apply units_spec.
  - split; [eauto |]. split; [| now left].
    unfold UnitView_isActive. now rewrite Hd.
  - split; [eauto |]. split; [unfold UnitView_isActive; now rewrite Hd |].
    right. unfold UnitView_type. rewrite Hd. left.
Qed.

(** X13.  A unit without a record in a delta is settled by the update:
    when it is not noted for deletion, its mirror stays under its id with the
    same data and creation tick, no longer counts as updated, and its trail
    is cut down to its last position. *)
Theorem unit_without_record_settled gv gu us gv' i u :
  wf gv ->
  updates gu = Some us ->
  update gm cellSize gu gv = Return gv' ->
  unit gv i = Some u ->
  i ∉ toDelete gv ->
  (forall r, r ∈ unitUpdates us -> id r <> i) ->
  exists u',
    unit gv' i = Some u' /\ _wasUpdated u' = false /\ data u' = data u /\
    _createdAt u' = _createdAt u /\ lastPos u' = slice_last (lastPos u).
Proof.
  intros Hwf Hus Hup Hu Hdel Hno.
  destruct (unit_update _ _ _ _ Hwf Hus Hup) as (_ & _ & Hunit & _).
  specialize (Hunit i). rewrite follow_skip in Hunit by exact Hno.
  rewrite decide_False, Hu in Hunit by exact Hdel.
  exists (UnitView_settle u). split; [exact Hunit |]. auto.
Qed.

(** X14.  Deletion is by the flag of the previous delta alone: a unit
    the view holds after one update, and that has no record in the next
    delta, is gone after the next update exactly when some record of it in
    the first delta was inactive, whatever later records of that delta said. *)
Theorem unit_deleted_iff_flagged gv0 gu1 us1 gv1 gu2 us2 gv2 i u :
  wf gv0 ->
  updates gu1 = Some us1 ->
  update gm cellSize gu1 gv0 = Return gv1 ->
  updates gu2 = Some us2 ->
  update gm cellSize gu2 gv1 = Return gv2 ->
  (forall r, r ∈ unitUpdates us2 -> id r <> i) ->
  unit gv1 i = Some u ->
  (unit gv2 i = None <->
   exists r, r ∈ unitUpdates us1 /\ id r = i /\ isActive r = false).
Proof.
  intros Hwf Hus1 Hup1 Hus2 Hup2 Hno Hu.
  destruct (unit_update _ _ _ _ Hwf Hus1 Hup1) as (Hwf1 & _ & _ & Hdel).
  destruct (unit_update _ _ _ _ Hwf1 Hus2 Hup2) as (_ & _ & Hunit & _).
  rewrite (Hunit i), follow_skip by exact Hno. rewrite <- Hdel.
  case_decide as Hin.
  - split; auto.
  - rewrite Hu. split; [discriminate | contradiction].
Qed.

(** X15.  [lastTile()] is the tile of the previous tick: for a unit the
    view holds with its trail ending at its tile, and with one record in the
    delta, the update leaves a trail of the former tile and the record's
    position, so that [lastTile()] is the former [tile()] and [tile()] the
    record's position; the creation tick stays. *)
Theorem moved_unit_lastTile gv gu us gv' before r after u :
  wf gv ->
  updates gu = Some us ->
  update gm cellSize gu gv = Return gv' ->
  unit gv (id r) = Some u ->
  id r ∉ toDelete gv ->
  last (lastPos u) = Some (UnitView_tile u) ->
  unitUpdates us = before ++ r :: after ->
  (forall r', r' ∈ before -> id r' <> id r) ->
  (forall r', r' ∈ after -> id r' <> id r) ->
  exists u',
    unit gv' (id r) = Some u' /\
    lastPos u' = [UnitView_tile u; pos r] /\
    UnitView_lastTile u' = UnitView_tile u /\
    UnitView_tile u' = pos r /\
    _createdAt u' = _createdAt u.
Proof.
  intros Hwf Hus Hup Hu Hdel Htrail Hrs Hbefore Hafter.
  destruct (unit_update _ _ _ _ Hwf Hus Hup) as (_ & _ & Hunit & _).
  specialize (Hunit (id r)). rewrite Hrs in Hunit.
  rewrite (follow_last _ _ _ _ _ _ eq_refl Hafter) in Hunit.
  rewrite follow_skip in Hunit by exact Hbefore.
  rewrite decide_False, Hu in Hunit by exact Hdel.
  eexists. split; [exact Hunit |].
  unfold UnitView_lastTile, UnitView_tile. simpl.
  unfold slice_last. rewrite Htrail. simpl. auto.
Qed.

(** X16.  In every view that updates make from the empty one, a mirror
    is filed under its own id and its trail is not empty and ends at its
    tile: the empty-trail branch of [lastTile()] is never taken. *)
Theorem units_keyed_with_trail gus gv i u :
  run gm cellSize gus empty_view = Return gv ->
  unit gv i = Some u ->
  UnitView_id u = i /\ lastPos u <> [] /\
  last (lastPos u) = Some (UnitView_tile u).
Proof.
  intros Hrun Hu.
  assert (wf gv /\ forall j v, unit gv j = Some v -> trail_ok v) as [Hwf Hok].
  { refine (run_invariant
              (fun g => wf g /\ forall j v, unit g j = Some v -> trail_ok v)
              _ gus empty_view gv _ Hrun).
    - intros gu g g' [Hwf Hok] Hup.
      destruct (update_returns _ _ _ Hup) as [us Hus].
      destruct (unit_update _ _ _ _ Hwf Hus Hup) as (Hwf' & _ & Hunit & _).
      split; [exact Hwf' |]. intros j v Hv. rewrite Hunit in Hv.
      refine (follow_invariant trail_ok _ _ _ _ _ _ v Hv).
      + intros v0. case_decide; [discriminate |].
        destruct (unit g j) as [v1 |] eqn:Hv1; [| discriminate].
        intros [= <-]. apply trail_ok_settle. exact (Hok _ _ Hv1).
      + intros r o' _. apply trail_ok_record_on.
    - split; [apply wf_empty_view |]. intros j v. unfold unit. simpl.
      rewrite lookup_empty. discriminate. }
  pose proof (Hok _ _ Hu) as Ht. unfold trail_ok in Ht.
  split; [| split; [| exact Ht]].
  - unfold unit in Hu. destruct (_units gv !! i) as [l |] eqn:Hl;
      [| discriminate]. simpl in Hu.
    destruct Hwf as [Hheap _]. destruct (Hheap _ _ Hl) as (u' & Hu' & Hid).
    congruence.
  - intros Hnil. rewrite Hnil in Ht. discriminate.
Qed.

(** X17.  A unit first seen in a delta is created at that delta's tick:
    when the view holds no mirror under the id of a record, or has it noted
    for deletion, the mirror found after the update was created at the
    delta's tick, which is then the view's [ticks()]. *)
Theorem new_unit_createdAt gv gu us gv' r :
  wf gv ->
  updates gu = Some us ->
  update gm cellSize gu gv = Return gv' ->
  unit gv (id r) = None \/ id r ∈ toDelete gv ->
  r ∈ unitUpdates us ->
  exists u,
    unit gv' (id r) = Some u /\ _createdAt u = tick gu /\
    ticks gv' = tick gu.
Proof.
  intros Hwf Hus Hup Hnew Hr.
  destruct (unit_update _ _ _ _ Hwf Hus Hup) as (_ & Hticks & Hunit & _).
  specialize (Hunit (id r)).
  assert ((if decide (id r ∈ toDelete gv) then None
           else UnitView_settle <$> unit gv (id r)) = None) as Hnone.
  { case_decide as Hin; [reflexivity |].
    destruct Hnew as [-> | Hin']; [reflexivity | contradiction]. }
  rewrite Hnone in Hunit.
  destruct (follow_is_Some (id r) (tick gu) (unitUpdates us) None r Hr eq_refl)
    as [u Hu].
  exists u. split; [congruence |]. split; [| exact Hticks].
  refine (follow_invariant (fun v => _createdAt v = tick gu)
            _ _ _ _ _ _ u Hu).
  - discriminate.
  - intros r' o' _ Ho'. destruct o' as [v |]; simpl; [| reflexivity].
    now apply Ho'.
Qed.

(** *** Players *)

Lemma players_applyPlayerUpdate gv pu pid :
  _players (applyPlayerUpdate gv pu) !! pid
  = if decide (pid = player_id pu)
    then Some (match _players gv !! pid with
               | Some p => PlayerView_set_data pu p
               | None => new_PlayerView pu
               end)
    else _players gv !! pid.
Proof.
  unfold applyPlayerUpdate. simpl. case_decide as Hp.
  - subst pid. destruct (_players gv !! player_id pu);
      now rewrite lookup_insert_eq.
  - destruct (_players gv !! player_id pu);
      now rewrite lookup_insert_ne by auto.
Qed.

Lemma fold_players_other gv ps pid :
  (forall pu, pu ∈ ps -> player_id pu <> pid) ->
  _players (foldl applyPlayerUpdate gv ps) !! pid = _players gv !! pid.
Proof.
  revert gv. induction ps as [| pu ps IH]; intros gv H; simpl; [reflexivity |].
  rewrite IH by (intros pu' Hin; apply H; now right).
  rewrite players_applyPlayerUpdate, decide_False; [reflexivity |].
  intros ->. now apply (H pu); [left |].
Qed.

Lemma fold_ids_other gv ps i :
  (forall pu, pu ∈ ps -> smallID pu <> i) ->
  smallIDToID (foldl applyPlayerUpdate gv ps) !! i = smallIDToID gv !! i.
Proof.
  revert gv. induction ps as [| pu ps IH]; intros gv H; simpl; [reflexivity |].
  rewrite IH by (intros pu' Hin; apply H; now right).
  simpl. rewrite lookup_insert_ne; [reflexivity |]. apply H. left.
Qed.

Lemma fold_players_kept gv ps pid p :
  _players gv !! pid = Some p ->
  exists p', _players (foldl applyPlayerUpdate gv ps) !! pid = Some p' /\
             created_from p' = created_from p.
Proof.
  revert gv p. induction ps as [| pu ps IH]; intros gv p Hp; simpl; [eauto |].
  assert (exists p1, _players (applyPlayerUpdate gv pu) !! pid = Some p1 /\
                     created_from p1 = created_from p) as (p1 & Hp1 & Hc1).
  { rewrite players_applyPlayerUpdate. case_decide.
    - rewrite Hp. eauto.
    - eauto. }
  destruct (IH _ _ Hp1) as (p' & Hp' & Hc'). exists p'. split; congruence.
Qed.

Lemma registered_applyPlayerUpdate gv pu :
  registered gv -> registered (applyPlayerUpdate gv pu).
Proof.
  intros Hreg i pid Hi. rewrite players_applyPlayerUpdate.
  case_decide; [eauto |].
  simpl in Hi. apply lookup_insert_Some in Hi as [[_ <-] | [_ Hi]];
    [contradiction | eauto].
Qed.

Lemma registered_fold gv ps :
  registered gv -> registered (foldl applyPlayerUpdate gv ps).
Proof.
  revert gv. induction ps as [| pu ps IH]; intros gv H; simpl; [exact H |].
  apply IH. now apply registered_applyPlayerUpdate.
Qed.

Lemma fold_units_players gv rs :
  _players (foldl (applyUnitUpdate gm cellSize) gv rs) = _players gv.
Proof.
  revert gv. induction rs as [| r rs IH]; intros gv; simpl; [reflexivity |].
  rewrite IH. now destruct (applyUnitUpdate_frame gv r) as [_ ->].
Qed.

(** The player tables past an update are those the player records make. *)
Lemma update_tables gu us gv gv' :
  updates gu = Some us -> update gm cellSize gu gv = Return gv' ->
  exists g,
    _players g = _players gv /\ smallIDToID g = smallIDToID gv /\
    _players gv' = _players (foldl applyPlayerUpdate g (playerUpdates us)) /\
    smallIDToID gv'
    = smallIDToID (foldl applyPlayerUpdate g (playerUpdates us)).
Proof.
  intros Hus Hup. rewrite (update_unfold gm cellSize _ _ _ Hus) in Hup.
  injection Hup as <-. exists (with_lastUpdate gu (cleanup gv)).
  split; [reflexivity |]. split; [reflexivity |].
  rewrite fold_units_players, fold_units_ids. split; reflexivity.
Qed.

Lemma registered_update gu gv gv' :
  registered gv -> update gm cellSize gu gv = Return gv' -> registered gv'.
Proof.
  intros Hreg Hup. destruct (update_returns _ _ _ Hup) as [us Hus].
  destruct (update_tables _ _ _ _ Hus Hup) as (g & Hp & Hi & Hp' & Hi').
  assert (registered g) as Hg.
  { intros i pid. rewrite Hp, Hi. apply Hreg. }
  intros i pid. rewrite Hp', Hi'. now apply registered_fold.
Qed.

(** X18.  A player record is what [player(id)] and [playerBySmallID]
    then show: after an update, the mirror under the id of a record (the
    last of that id and of that small id in the delta) holds that record,
    and the record's small id, when it is not 0, resolves to that mirror,
    whenever it is asked, and no object is made for it. *)
Theorem player_record_round_trip gv gu us before pu after gv' :
  updates gu = Some us ->
  playerUpdates us = before ++ pu :: after ->
  (forall pu', pu' ∈ after -> player_id pu' <> player_id pu) ->
  (forall pu', pu' ∈ after -> smallID pu' <> smallID pu) ->
  smallID pu <> 0 ->
  update gm cellSize gu gv = Return gv' ->
  exists p,
    player gv' (player_id pu) = Return p /\ player_data p = pu /\
    forall next,
      playerBySmallID gv' (smallID pu) next = (Return (APlayer p), next).
Proof.
  intros Hus Hps Hafter Hafter' H0 Hup.
  destruct (update_tables _ _ _ _ Hus Hup) as (g & _ & _ & Hp' & Hi').
  rewrite Hps, foldl_app in Hp', Hi'. simpl in Hp', Hi'.
  set (g1 := foldl applyPlayerUpdate g before) in *.
  assert (exists p, _players gv' !! player_id pu = Some p /\ player_data p = pu)
    as (p & Hp & Hd).
  { rewrite Hp', fold_players_other by exact Hafter.
    rewrite players_applyPlayerUpdate, decide_True by reflexivity.
    eexists. split; [reflexivity |].
    destruct (_players g1 !! player_id pu); reflexivity. }
  assert (smallIDToID gv' !! smallID pu = Some (player_id pu)) as Hs.
  { rewrite Hi', fold_ids_other by exact Hafter'. simpl.
    apply lookup_insert_eq. }
  exists p. unfold playerBySmallID, player. rewrite Hs, Hp.
  destruct (smallID pu =? 0) eqn:Hz; [lia | auto].
Qed.

(** X19.  The view never drops a player: a player that [player(id)]
    finds is found after any further updates, and it is the same mirror,
    made from the record it was first made from. *)
Theorem players_are_kept gus gv gv' pid p :
  run gm cellSize gus gv = Return gv' ->
  player gv pid = Return p ->
  exists p', player gv' pid = Return p' /\ created_from p' = created_from p.
Proof.
  intros Hrun Hp.
  refine (run_invariant
            (fun g => exists p', player g pid = Return p' /\
                                 created_from p' = created_from p)
            _ gus gv gv' _ Hrun); [| eauto].
  intros gu g g' (p1 & Hp1 & Hc1) Hup.
  destruct (update_returns _ _ _ Hup) as [us Hus].
  destruct (update_tables _ _ _ _ Hus Hup) as (g0 & Hg0 & _ & Hp' & _).
  unfold player in Hp1 |- *.
  destruct (_players g !! pid) as [q |] eqn:Hq; [| discriminate].
  injection Hp1 as ->. rewrite <- Hg0 in Hq.
  destruct (fold_players_kept g0 (playerUpdates us) pid p1 Hq)
    as (p2 & Hp2 & Hc2).
  rewrite Hp', Hp2. exists p2. split; congruence.
Qed.

(** X20.  In every view that updates make from the empty one, a small
    id that is on record names a player the view holds: [playerBySmallID]
    never fails on the player's id, and the small id of every player record
    received resolves. *)
Theorem registered_small_ids_resolve gus gv :
  run gm cellSize gus empty_view = Return gv ->
  (forall i pid next,
      (playerBySmallID gv i next).1 <> Throw (player_id_not_found pid)) /\
  (forall gu us pu,
      gu ∈ gus -> updates gu = Some us -> pu ∈ playerUpdates us ->
      forall next, exists o, (playerBySmallID gv (smallID pu) next).1 = Return o).
Proof.
  intros Hrun.
  assert (registered gv) as Hreg.
  { refine (run_invariant registered registered_update gus empty_view gv _ Hrun).
    intros i pid. simpl. rewrite lookup_empty. discriminate. }
  assert (forall i next,
             (exists o, (playerBySmallID gv i next).1 = Return o) \/
             ((playerBySmallID gv i next).1 = Throw (small_id_not_found i) /\
              smallIDToID gv !! i = None)) as Hres.
  { intros i next. unfold playerBySmallID, player.
    destruct (i =? 0); [simpl; eauto |]. simpl.
    destruct (smallIDToID gv !! i) as [pid |] eqn:Hi; [| auto].
    destruct (Hreg _ _ Hi) as [p Hp]. rewrite Hp. eauto. }
  split.
  - intros i pid next.
    destruct (Hres i next) as [[o ->] | [-> _]]; discriminate.
  - intros gu us pu Hgu Hus Hpu next.
    destruct (Hres (smallID pu) next) as [Ho | [_ Hnone]]; [exact Ho |].
    apply (run_ids gm cellSize _ _ _ _ Hrun) in Hnone as [_ Hno].
    now destruct (Hno gu us pu Hgu Hus Hpu).
Qed.

End UpdateFacts.

(** A first delta shows the warship; it is updated in place, enumerated,
    and created at the delta's tick. *)
Lemma unit_record_round_trip_witness :
  exists gv',
    update UnitGrid.test_map 100 (delta 1 [] [a_warship]) empty_view
    = Return gv' /\
    exists u,
      unit gv' (id a_warship) = Some u /\ data u = a_warship /\
      _wasUpdated u = true /\
      (isActive a_warship = true ->
       u ∈ units gv' [] /\ u ∈ units gv' [unitType a_warship]).
Proof.
  eexists. split; [vm_compute; reflexivity |].
  apply (unit_record_round_trip UnitGrid.test_map 100 empty_view
           (delta 1 [] [a_warship])
           {| playerUpdates := []; unitUpdates := [a_warship] |}
           [] a_warship [] _ wf_empty_view eq_refl eq_refl).
  - intros r' Hr'. inversion Hr'.
  - reflexivity.
Defined.

Lemma unit_without_record_settled_witness :
  exists gv u gv',
    update UnitGrid.test_map 100 (delta 1 [] [a_warship]) empty_view
    = Return gv /\
    unit gv 4 = Some u /\ (4 ∉ toDelete gv) /\
    update UnitGrid.test_map 100 (delta 2 [] []) gv = Return gv' /\
    exists u',
      unit gv' 4 = Some u' /\ _wasUpdated u' = false /\ data u' = data u /\
      _createdAt u' = _createdAt u /\ lastPos u' = slice_last (lastPos u).
Proof.
  eexists. eexists. eexists.
  split; [vm_compute; reflexivity |]. split; [vm_compute; reflexivity |].
  assert (forall X : gset Z, X = ∅ -> 4 ∉ X) as Hempty
    by (intros X ->; apply not_elem_of_empty).
  split; [apply Hempty; vm_compute; reflexivity |].
  split; [vm_compute; reflexivity |].
  apply (unit_without_record_settled UnitGrid.test_map 100 _ (delta 2 [] [])
           {| playerUpdates := []; unitUpdates := [] |} _ 4 _
           (wf_update UnitGrid.test_map 100 (delta 1 [] [a_warship])
                      empty_view _ wf_empty_view eq_refl)
           eq_refl eq_refl eq_refl).
  - apply Hempty. vm_compute. reflexivity.
  - intros r Hr. inversion Hr.
Defined.

(** A warship destroyed and shown again within one delta is active after
    the update, and gone after the next. *)
Lemma unit_deleted_iff_flagged_witness :
  exists gv1 u gv2,
    update UnitGrid.test_map 100
           (delta 1 [] [a_warship_sunk; a_warship_moved]) empty_view
    = Return gv1 /\
    unit gv1 4 = Some u /\ UnitView_isActive u = true /\
    update UnitGrid.test_map 100 (delta 2 [] []) gv1 = Return gv2 /\
    unit gv2 4 = None.
Proof.
  eexists. eexists. eexists.
  split; [vm_compute; reflexivity |]. split; [vm_compute; reflexivity |].
  split; [reflexivity |]. split; [vm_compute; reflexivity |].
  apply (proj2 (unit_deleted_iff_flagged UnitGrid.test_map 100 empty_view
                  (delta 1 [] [a_warship_sunk; a_warship_moved])
                  {| playerUpdates := [];
                     unitUpdates := [a_warship_sunk; a_warship_moved] |}
                  _ (delta 2 [] [])
                  {| playerUpdates := []; unitUpdates := [] |} _ 4 _
                  wf_empty_view eq_refl eq_refl eq_refl eq_refl
                  (fun r Hr => match proj1 (elem_of_nil r) Hr with end)
                  eq_refl)).
  exists a_warship_sunk. split; [left | split; reflexivity].
Defined.

Lemma moved_unit_lastTile_witness :
  exists gv u gv',
    update UnitGrid.test_map 100 (delta 1 [] [a_warship]) empty_view
    = Return gv /\
    unit gv (id a_warship_moved) = Some u /\
    (id a_warship_moved ∉ toDelete gv) /\
    last (lastPos u) = Some (UnitView_tile u) /\
    update UnitGrid.test_map 100 (delta 2 [] [a_warship_moved]) gv
    = Return gv' /\
    exists u',
      unit gv' (id a_warship_moved) = Some u' /\
      lastPos u' = [UnitView_tile u; pos a_warship_moved] /\
      UnitView_lastTile u' = UnitView_tile u /\
      UnitView_tile u' = pos a_warship_moved /\
      _createdAt u' = _createdAt u.
Proof.
  eexists. eexists. eexists.
  split; [vm_compute; reflexivity |]. split; [vm_compute; reflexivity |].
  assert (forall X : gset Z, X = ∅ -> id a_warship_moved ∉ X) as Hempty
    by (intros X ->; apply not_elem_of_empty).
  split; [apply Hempty; vm_compute; reflexivity |].
  split; [reflexivity |]. split; [vm_compute; reflexivity |].
  apply (moved_unit_lastTile UnitGrid.test_map 100 _
           (delta 2 [] [a_warship_moved])
           {| playerUpdates := []; unitUpdates := [a_warship_moved] |} _
           [] a_warship_moved [] _
           (wf_update UnitGrid.test_map 100 (delta 1 [] [a_warship])
                      empty_view _ wf_empty_view eq_refl)
           eq_refl eq_refl eq_refl).
  - apply Hempty. vm_compute. reflexivity.
  - reflexivity.
  - reflexivity.
  - intros r Hr. inversion Hr.
  - intros r Hr. inversion Hr.
Defined.

Lemma units_keyed_with_trail_witness :
  exists gv u,
    run UnitGrid.test_map 100
        [delta 1 [] [a_warship]; delta 2 [] [a_warship_moved]] empty_view
    = Return gv /\
    unit gv 4 = Some u /\
    UnitView_id u = 4 /\ lastPos u <> [] /\
    last (lastPos u) = Some (UnitView_tile u).
Proof.
  eexists. eexists.
  split; [vm_compute; reflexivity |]. split; [vm_compute; reflexivity |].
  apply (units_keyed_with_trail UnitGrid.test_map 100
           [delta 1 [] [a_warship]; delta 2 [] [a_warship_moved]] _ 4 _
           eq_refl eq_refl).
Defined.

Lemma new_unit_createdAt_witness :
  exists gv',
    (unit empty_view (id a_warship) = None \/
     id a_warship ∈ toDelete empty_view) /\
    update UnitGrid.test_map 100 (delta 1 [] [a_warship]) empty_view
    = Return gv' /\
    exists u,
      unit gv' (id a_warship) = Some u /\ _createdAt u = 1 /\ ticks gv' = 1.
Proof.
  eexists. split; [left; reflexivity |].
  split; [vm_compute; reflexivity |].
  apply (new_unit_createdAt UnitGrid.test_map 100 empty_view
           (delta 1 [] [a_warship])
           {| playerUpdates := []; unitUpdates := [a_warship] |} _ a_warship
           wf_empty_view eq_refl eq_refl).
  - left. reflexivity.
  - left.
Defined.

(** A player shown and renamed within one delta. *)
Lemma player_record_round_trip_witness :
  exists gv',
    update UnitGrid.test_map 100 (delta 1 [a_player; a_player_renamed] [])
           empty_view
    = Return gv' /\
    exists p,
      player gv' "defender_id" = Return p /\
      player_data p = a_player_renamed /\
      forall next, playerBySmallID gv' 1 next = (Return (APlayer p), next).
Proof.
  eexists. split; [vm_compute; reflexivity |].
  apply (player_record_round_trip UnitGrid.test_map 100 empty_view
           (delta 1 [a_player; a_player_renamed] [])
           {| playerUpdates := [a_player; a_player_renamed];
              unitUpdates := [] |}
           [a_player] a_player_renamed [] _ eq_refl eq_refl).
  - intros pu Hpu. inversion Hpu.
  - intros pu Hpu. inversion Hpu.
  - simpl. lia.
  - reflexivity.
Defined.

Lemma players_are_kept_witness :
  exists gv p gv',
    update UnitGrid.test_map 100 delta_a_player empty_view = Return gv /\
    player gv "defender_id" = Return p /\
    run UnitGrid.test_map 100 [delta 2 [a_player_renamed] []; delta 3 [] []] gv
    = Return gv' /\
    exists p', player gv' "defender_id" = Return p' /\
               created_from p' = created_from p.
Proof.
  eexists. eexists. eexists.
  split; [vm_compute; reflexivity |].
  match goal with
  | |- player ?g _ = _ /\ _ =>
      split; [vm_compute; reflexivity |];
      split; [vm_compute; reflexivity |];
      apply (players_are_kept UnitGrid.test_map 100
               [delta 2 [a_player_renamed] []; delta 3 [] []] g _
               "defender_id" _ eq_refl eq_refl)
  end.
Defined.

Lemma registered_small_ids_resolve_witness :
  exists gv,
    run UnitGrid.test_map 100 [delta_a_player] empty_view = Return gv /\
    (forall i pid next,
        (playerBySmallID gv i next).1 <> Throw (player_id_not_found pid)) /\
    forall next,
    exists o, (playerBySmallID gv (smallID a_player) next).1 = Return o.
Proof.
  eexists. split; [vm_compute; reflexivity |].
  destruct (registered_small_ids_resolve UnitGrid.test_map 100
              [delta_a_player] _ eq_refl) as [Hnever Hres].
  split; [exact Hnever |].
  apply (Hres delta_a_player
              {| playerUpdates := [a_player]; unitUpdates := [] |} a_player).
  - left.
  - reflexivity.
  - left.
Defined.

(** *** Readiness over time *)

Lemma adjusted_monotone (p p' d M : Z) :
  0 < d -> 0 < M -> p <= p' ->
  (inject_Z p / inject_Z d / inject_Z M
   <= inject_Z p' / inject_Z d / inject_Z M)%Q.
Proof.
  intros Hd HM Hp.
  assert (0 <= / inject_Z d)%Q as Hd'.
  { apply Qinv_le_0_compat. rewrite <- (Zle_Qle 0). lia. }
  assert (0 <= / inject_Z M)%Q as HM'.
  { apply Qinv_le_0_compat. rewrite <- (Zle_Qle 0). lia. }
  unfold Qdiv. apply Qmult_le_compat_r; [| exact HM'].
  apply Qmult_le_compat_r; [| exact Hd']. now rewrite <- Zle_Qle.
Qed.

Lemma fold_progress_monotone now now' d M queue (acc acc' : Q) :
  0 < d -> 0 < M -> now <= now' -> (acc <= acc')%Q ->
  (fold_left (add_progress now d M) queue acc
   <= fold_left (add_progress now' d M) queue acc')%Q.
Proof.
  intros Hd HM Hnow. revert acc acc'.
  induction queue as [| t queue IH]; intros acc acc' Hacc; simpl; [exact Hacc |].
  apply IH. unfold add_progress. apply Qplus_le_compat; [exact Hacc |].
  apply adjusted_monotone; auto. lia.
Qed.

(** X21.  Readiness does not run backwards: for a unit of level at least
    1 under a positive cooldown, [missileReadinesss] read at a later tick is
    at least what it was at an earlier one, the unit's record being the
    same. *)
Theorem missileReadinesss_monotone cfg gv gv' u :
  0 < level (data u) ->
  0 < cooldownDuration cfg u ->
  ticks gv <= ticks gv' ->
  (missileReadinesss cfg gv u <= missileReadinesss cfg gv' u)%Q.
Proof.
  intros HM Hd Hticks. unfold missileReadinesss.
  destruct (_ =? 0); [apply Qle_refl |].
  destruct (_ && _); [apply Qle_refl |].
  apply fold_progress_monotone; auto. apply Qle_refl.
Qed.

Lemma missileReadinesss_monotone_witness :
  0 < level (data stale_launcher) /\
  0 < cooldownDuration cooldown_75 stale_launcher /\
  ticks view_at_150 <= ticks view_at_160 /\
  (missileReadinesss cooldown_75 view_at_150 stale_launcher
   <= missileReadinesss cooldown_75 view_at_160 stale_launcher)%Q.
Proof.
  assert (0 < level (data stale_launcher)) as HM by (simpl; lia).
  assert (0 < cooldownDuration cooldown_75 stale_launcher) as Hd
    by (vm_compute; reflexivity).
  assert (ticks view_at_150 <= ticks view_at_160) as Ht
    by (unfold ticks; simpl; lia).
  split; [exact HM |]. split; [exact Hd |]. split; [exact Ht |].
  exact (missileReadinesss_monotone cooldown_75 view_at_150 view_at_160
           stale_launcher HM Hd Ht).
Defined.

End GameViewMore.
